(** * driftwatch: the normalization-and-diff engine

    A shallow embedding of the Go packages [internal/model], [internal/diff]
    and the snapshot builders of [internal/collectors], followed by the
    properties of the engine.

    Conventions of the embedding.
    - A Go [map[K]V] is a [gmap K V]; a [map[K]struct{}] is a [gset K].
      Reading an absent key of a map of sets gives the nil map, that is [∅].
    - A Go slice is a [list]; [append(out, x)] is [out ++ [x]].
    - A [for ... range] over a slice is a left fold ([rangeSlice]).
    - A [for ... range] over a map visits every key exactly once in an order
      the Go runtime picks afresh for every loop.  Each such loop takes the
      order it is run in as an explicit argument (a "schedule"); a schedule
      is admissible when it is a permutation of the keys of the map.
    - [sort.Slice] is not stable.  It is an interface ([SliceSorter]) with
      its contract: the result is a permutation of the argument and is
      sorted whenever [less] is a strict weak order. *)

From stdpp Require Import base decidable option list sorting countable
  strings fin_maps fin_sets gmap.

Set Default Proof Using "Type".
#[local] Set Warnings "-clear-no-such-hyp".

(** ** Go control structure *)

(** [for _, x := range xs { body }] over a slice, threading the variables
    the body assigns. *)
Definition rangeSlice {A S : Type} (xs : list A) (body : A → S → S) (s : S) : S :=
  foldl (λ acc x, body x acc) s xs.

(** [len(xs) == 0] *)
Definition lenIsZero {A : Type} (xs : list A) : bool :=
  match xs with [] => true | _ :: _ => false end.

(** ** Package model: RBAC types *)

(** [model.SubjectKey] *)
Record SubjectKey : Type := mkSubjectKey {
  SubjectKey_Kind : string;
  SubjectKey_Name : string;
  SubjectKey_Namespace : string
}.

(** [model.Permission] *)
Record Permission : Type := mkPermission {
  ScopeNamespace : string;
  APIGroup : string;
  Resource : string;
  ResourceName : string;
  Verb : string;
  NonResourceURL : string
}.

#[global] Instance SubjectKey_eq_dec : EqDecision SubjectKey.
Proof. solve_decision. Defined.

#[global] Instance SubjectKey_countable : Countable SubjectKey.
Proof.
  refine (inj_countable'
    (λ s, (SubjectKey_Kind s, SubjectKey_Name s, SubjectKey_Namespace s))
    (λ t, match t with (k, n, ns) => mkSubjectKey k n ns end) _).
  by intros [].
Defined.

#[global] Instance Permission_eq_dec : EqDecision Permission.
Proof. solve_decision. Defined.

#[global] Instance Permission_countable : Countable Permission.
Proof.
  refine (inj_countable'
    (λ p, (ScopeNamespace p, APIGroup p, Resource p, ResourceName p, Verb p,
           NonResourceURL p))
    (λ t, match t with (s, g, r, rn, v, u) => mkPermission s g r rn v u end) _).
  by intros [].
Defined.

(** [rbacv1.PolicyRule] (k8s.io/api/rbac/v1): the five string lists the
    expander reads. *)
Record PolicyRule : Type := mkPolicyRule {
  Verbs : list string;
  APIGroups : list string;
  Resources : list string;
  ResourceNames : list string;
  NonResourceURLs : list string
}.

(** [rbacv1.Subject] *)
Record Subject : Type := mkSubject {
  Subject_Kind : string;
  Subject_Name : string;
  Subject_Namespace : string
}.

(** [model.RBACSnapshot]: [Subjects map[SubjectKey]map[Permission]struct{}].
    The nil map and the empty map read alike and are both [∅]. *)
Record RBACSnapshot : Type := mkRBACSnapshot {
  Subjects : gmap SubjectKey (gset Permission)
}.

(** [s.Subjects[subj]] read as a permission set: the nil set when absent. *)
Definition permsOf (s : RBACSnapshot) (subj : SubjectKey) : gset Permission :=
  default ∅ (Subjects s !! subj).

(** [RBACSnapshot.AddPermissions] (pointer receiver) *)
Definition AddPermissions (subj : SubjectKey) (perms : list Permission)
    (s : RBACSnapshot) : RBACSnapshot :=
  if lenIsZero perms then s
  else
    let permSet :=
      match Subjects s !! subj with
      | Some permSet => permSet
      | None => ∅
      end in
    let permSet := rangeSlice perms (λ p permSet, {[ p ]} ∪ permSet) permSet in
    mkRBACSnapshot (<[ subj := permSet ]> (Subjects s)).

(** [model.SubjectKeyFromRBACSubject] *)
Definition SubjectKeyFromRBACSubject (subj : Subject) (defaultNamespace : string)
    : SubjectKey :=
  let ns := Subject_Namespace subj in
  let ns :=
    if bool_decide (ns = "" ∧ Subject_Kind subj = "ServiceAccount")
    then defaultNamespace else ns in
  mkSubjectKey (Subject_Kind subj) (Subject_Name subj) ns.

(** The body of the [for _, rule := range rules] loop of
    [ExpandPolicyRulesToPermissions]. *)
Definition expandRule (bindingNamespace : string) (clusterScope : bool)
    (rule : PolicyRule) (out : list Permission) : list Permission :=
  if negb (lenIsZero (NonResourceURLs rule)) then
    let scope := "*" in
    rangeSlice (Verbs rule) (λ verb,
      rangeSlice (NonResourceURLs rule) (λ url out,
        out ++ [mkPermission scope "" "" "" verb url])) out
  else
    let apiGroups := APIGroups rule in
    let apiGroups := if lenIsZero apiGroups then [""] else apiGroups in
    let resources := Resources rule in
    let resources := if lenIsZero resources then [""] else resources in
    let resourceNames := ResourceNames rule in
    let resourceNames := if lenIsZero resourceNames then ["*"] else resourceNames in
    let scope := if negb clusterScope then bindingNamespace else "*" in
    rangeSlice (Verbs rule) (λ verb,
      rangeSlice apiGroups (λ group,
        rangeSlice resources (λ res,
          rangeSlice resourceNames (λ rn out,
            out ++ [mkPermission scope group res rn verb ""])))) out.

(** [model.ExpandPolicyRulesToPermissions] *)
Definition ExpandPolicyRulesToPermissions (rules : list PolicyRule)
    (bindingNamespace : string) (clusterScope : bool) : list Permission :=
  rangeSlice rules (expandRule bindingNamespace clusterScope) [].

(** *** The expansion as the specification words it *)

(** A list that is missing (empty) stands for the given default. *)
Definition orDefault (d : list string) (xs : list string) : list string :=
  match xs with [] => d | _ :: _ => xs end.

(** The cartesian product verb × apiGroup × resource × resourceName, each
    tuple one permission of the given scope. *)
Definition resourceProduct (scope : string)
    (verbs groups resources names : list string) : list Permission :=
  verb ← verbs; group ← groups; res ← resources; rn ← names;
  [mkPermission scope group res rn verb ""].

(** One permission per (verb × URL) pair, cluster-wide, with only the verb
    and the URL set. *)
Definition urlProduct (verbs urls : list string) : list Permission :=
  verb ← verbs; url ← urls; [mkPermission "*" "" "" "" verb url].

(** What one rule is specified to contribute under a binding. *)
Definition ruleFacts (bindingNamespace : string) (clusterScope : bool)
    (rule : PolicyRule) : list Permission :=
  match NonResourceURLs rule with
  | [] =>
      resourceProduct (if clusterScope then "*" else bindingNamespace)
        (Verbs rule)
        (orDefault [""] (APIGroups rule))
        (orDefault [""] (Resources rule))
        (orDefault ["*"] (ResourceNames rule))
  | _ :: _ => urlProduct (Verbs rule) (NonResourceURLs rule)
  end.

(** ** Go runtime: map iteration and sort.Slice *)

(** [for k := range m { body }] over a map, run in the order [order] the
    runtime chose for this loop. *)
Definition rangeMap {K S : Type} (order : list K) (body : K → S → S) (s : S) : S :=
  rangeSlice order body s.

(** The requirement [sort.Slice] puts on [less]: a strict weak order. *)
Record StrictWeakOrder {A : Type} (less : A → A → bool) : Prop := mkStrictWeakOrder {
  swo_asym : ∀ x y, less x y = true → less y x = false;
  swo_negtrans : ∀ x y z, less y x = false → less z y = false → less z x = false
}.

(** What [sort.Slice] establishes: no element is [less] than one before it
    (stated on neighbours). *)
Definition sortedBy {A : Type} (less : A → A → bool) (l : list A) : Prop :=
  Sorted (λ x y, less y x = false) l.

(** [sort.Slice]: some rearrangement of the slice that is sorted by
    [less]; equal elements may land in any order. *)
Class SliceSorter : Type := mkSliceSorter {
  sortSlice : ∀ {A : Type}, (A → A → bool) → list A → list A;
  sortSlice_perm : ∀ (A : Type) (less : A → A → bool) (l : list A),
    sortSlice less l ≡ₚ l;
  sortSlice_sorted : ∀ (A : Type) (less : A → A → bool) (l : list A),
    StrictWeakOrder less → sortedBy less (sortSlice less l)
}.

(** Go's [<] on strings: bytewise lexicographic. *)
Definition strLess (s1 s2 : string) : bool := String.ltb s1 s2.

(** ** Package diff: RBAC *)

(** [diff.RBACDrift] *)
Record RBACDrift : Type := mkRBACDrift {
  RBACDrift_Extra : gmap SubjectKey (list Permission);
  RBACDrift_Missing : gmap SubjectKey (list Permission)
}.

(** The orders in which one call of [DiffRBAC] ranges over its maps: the
    union of subjects, and for each subject the live and the baseline
    permission set. *)
Record RBACSchedule : Type := mkRBACSchedule {
  subjectOrder : list SubjectKey;
  liveOrder : SubjectKey → list Permission;
  baseOrder : SubjectKey → list Permission
}.

(** The union of subjects: the two loops insert every key of
    [baseline.Subjects] and of [live.Subjects] into one set. *)
Definition allSubjects (baseline live : RBACSnapshot) : gset SubjectKey :=
  dom (Subjects baseline) ∪ dom (Subjects live).

(** The inner loops: keep, in visiting order, the permissions of [order]
    that [other] lacks. *)
Definition notIn (order : list Permission) (other : gset Permission)
    : list Permission :=
  rangeMap order
    (λ p acc, if bool_decide (p ∈ other) then acc else acc ++ [p]) [].

(** The body of [for subj := range allSubjects]. *)
Definition diffSubject (sch : RBACSchedule) (baseline live : RBACSnapshot)
    (subj : SubjectKey) (result : RBACDrift) : RBACDrift :=
  let basePerms := permsOf baseline subj in
  let livePerms := permsOf live subj in
  let result :=
    if bool_decide (0 < size livePerms) then
      let extras := notIn (liveOrder sch subj) basePerms in
      if bool_decide (0 < length extras)
      then mkRBACDrift (<[ subj := extras ]> (RBACDrift_Extra result))
                       (RBACDrift_Missing result)
      else result
    else result in
  if bool_decide (0 < size basePerms) then
    let missing := notIn (baseOrder sch subj) livePerms in
    if bool_decide (0 < length missing)
    then mkRBACDrift (RBACDrift_Extra result)
                     (<[ subj := missing ]> (RBACDrift_Missing result))
    else result
  else result.

(** [diff.DiffRBAC], run under the schedule [sch]. *)
Definition DiffRBAC (sch : RBACSchedule) (baseline live : RBACSnapshot)
    : RBACDrift :=
  rangeMap (subjectOrder sch) (diffSubject sch baseline live)
    (mkRBACDrift ∅ ∅).

(** A schedule the runtime may choose for [DiffRBAC baseline live]. *)
Definition RBACSchedule_ok (sch : RBACSchedule) (baseline live : RBACSnapshot)
    : Prop :=
  subjectOrder sch ≡ₚ elements (allSubjects baseline live) ∧
  ∀ subj, liveOrder sch subj ≡ₚ elements (permsOf live subj) ∧
          baseOrder sch subj ≡ₚ elements (permsOf baseline subj).

(** Two schedules that exist for every pair of snapshots. *)
Definition RBACSchedule_forward (baseline live : RBACSnapshot) : RBACSchedule :=
  mkRBACSchedule (elements (allSubjects baseline live))
    (λ subj, elements (permsOf live subj))
    (λ subj, elements (permsOf baseline subj)).

Definition RBACSchedule_backward (baseline live : RBACSnapshot) : RBACSchedule :=
  mkRBACSchedule (reverse (elements (allSubjects baseline live)))
    (λ subj, reverse (elements (permsOf live subj)))
    (λ subj, reverse (elements (permsOf baseline subj))).

(** ** Package collectors: the RBAC snapshot builder *)

(** [rbacv1.RoleRef] *)
Record RoleRef : Type := mkRoleRef {
  RoleRef_Kind : string;
  RoleRef_Name : string
}.

(** [rbacv1.Role] *)
Record Role : Type := mkRole {
  Role_Namespace : string;
  Role_Name : string;
  Role_Rules : list PolicyRule
}.

(** [rbacv1.ClusterRole] *)
Record ClusterRole : Type := mkClusterRole {
  ClusterRole_Name : string;
  ClusterRole_Rules : list PolicyRule
}.

(** [rbacv1.RoleBinding] *)
Record RoleBinding : Type := mkRoleBinding {
  RoleBinding_Namespace : string;
  RoleBinding_RoleRef : RoleRef;
  RoleBinding_Subjects : list Subject
}.

(** [rbacv1.ClusterRoleBinding] *)
Record ClusterRoleBinding : Type := mkClusterRoleBinding {
  ClusterRoleBinding_RoleRef : RoleRef;
  ClusterRoleBinding_Subjects : list Subject
}.

(** [m[key]] for a map of rule slices: nil when absent. *)
Definition rulesAt (m : gmap string (list PolicyRule)) (key : string)
    : list PolicyRule :=
  default [] (m !! key).

Definition rolesByKey (roles : list Role) : gmap string (list PolicyRule) :=
  rangeSlice roles (λ r m,
    let key := Role_Namespace r +:+ "/" +:+ Role_Name r in
    <[ key := rulesAt m key ++ Role_Rules r ]> m) ∅.

Definition clusterRolesByName (clusterRoles : list ClusterRole)
    : gmap string (list PolicyRule) :=
  rangeSlice clusterRoles (λ cr m,
    <[ ClusterRole_Name cr := rulesAt m (ClusterRole_Name cr) ++ ClusterRole_Rules cr ]> m) ∅.

(** The tail of both binding loops, from [if len(rules) == 0] on. *)
Definition bindRules (rules : list PolicyRule) (bindingNamespace : string)
    (clusterScope : bool) (subjects : list Subject) (snapshot : RBACSnapshot)
    : RBACSnapshot :=
  if lenIsZero rules then snapshot
  else
    let perms := ExpandPolicyRulesToPermissions rules bindingNamespace clusterScope in
    if lenIsZero perms then snapshot
    else
      rangeSlice subjects (λ subj snapshot,
        let subjKey := SubjectKeyFromRBACSubject subj bindingNamespace in
        AddPermissions subjKey perms snapshot) snapshot.

(** The body of [for _, rb := range roleBindings]. *)
Definition bindRoleBinding (byKey byName : gmap string (list PolicyRule))
    (rb : RoleBinding) (snapshot : RBACSnapshot) : RBACSnapshot :=
  let ref := RoleBinding_RoleRef rb in
  if bool_decide (RoleRef_Kind ref = "Role") then
    let key := RoleBinding_Namespace rb +:+ "/" +:+ RoleRef_Name ref in
    bindRules (rulesAt byKey key) (RoleBinding_Namespace rb) false
      (RoleBinding_Subjects rb) snapshot
  else if bool_decide (RoleRef_Kind ref = "ClusterRole") then
    bindRules (rulesAt byName (RoleRef_Name ref)) (RoleBinding_Namespace rb) false
      (RoleBinding_Subjects rb) snapshot
  else snapshot.

(** The body of [for _, crb := range clusterRoleBindings]. *)
Definition bindClusterRoleBinding (byName : gmap string (list PolicyRule))
    (crb : ClusterRoleBinding) (snapshot : RBACSnapshot) : RBACSnapshot :=
  bindRules (rulesAt byName (RoleRef_Name (ClusterRoleBinding_RoleRef crb))) "" true
    (ClusterRoleBinding_Subjects crb) snapshot.

(** [collectors.buildRBACSnapshot] *)
Definition buildRBACSnapshot (roles : list Role) (clusterRoles : list ClusterRole)
    (roleBindings : list RoleBinding)
    (clusterRoleBindings : list ClusterRoleBinding) : RBACSnapshot :=
  let snapshot := mkRBACSnapshot ∅ in
  let byKey := rolesByKey roles in
  let byName := clusterRolesByName clusterRoles in
  let snapshot := rangeSlice roleBindings (bindRoleBinding byKey byName) snapshot in
  rangeSlice clusterRoleBindings (bindClusterRoleBinding byName) snapshot.

(** Snapshots reachable from the empty one through [AddPermissions]. *)
Inductive BuiltByAddPermissions : RBACSnapshot → Prop :=
  | Built_empty : BuiltByAddPermissions (mkRBACSnapshot ∅)
  | Built_add subj perms s :
      BuiltByAddPermissions s →
      BuiltByAddPermissions (AddPermissions subj perms s).

(** ** Package model: NetworkPolicy digests *)

(** [model.NetPolDigest]; [PolicyTypes] holds [networkingv1.PolicyType], a
    string type. *)
Record NetPolDigest : Type := mkNetPolDigest {
  NetPolDigest_Namespace : string;
  NetPolDigest_Name : string;
  SpecHash : string;
  PolicyTypes : list string;
  IngressCount : nat;
  EgressCount : nat
}.

(** [model.NetPolRef] *)
Record NetPolRef : Type := mkNetPolRef {
  NetPolRef_Namespace : string;
  NetPolRef_Name : string
}.

(** [model.NetPolChange] *)
Record NetPolChange : Type := mkNetPolChange {
  NetPolChange_Namespace : string;
  NetPolChange_Name : string;
  NetPolChange_Baseline : NetPolDigest;
  NetPolChange_Live : NetPolDigest
}.

(** [model.NetPolSnapshot] *)
Record NetPolSnapshot : Type := mkNetPolSnapshot {
  Items : gmap string NetPolDigest
}.

(** [metav1.ObjectMeta]: the fields of the object metadata that matter
    here, and two that must not. *)
Record ObjectMeta : Type := mkObjectMeta {
  ObjectMeta_Name : string;
  ObjectMeta_Namespace : string;
  ResourceVersion : string;
  Labels : gmap string string
}.

(** A Go [(T, error)] result of which exactly one part is meaningful. *)
Inductive result (T E : Type) : Type :=
  | Ok (v : T)
  | Err (e : E).
Arguments Ok {T E} v.
Arguments Err {T E} e.

(** [fmt.Errorf(msg + ": %w", err)]: an error wrapping its cause. *)
Inductive wrapped (E : Type) : Type :=
  | Errorf (msg : string) (cause : E).
Arguments Errorf {E} msg cause.

Section NetPolDigestConstruction.

(** The Kubernetes API type of a policy's spec and the library functions
    [NewNetPolDigest] calls are not part of this repository. *)
Context {NetworkPolicySpec IngressRule EgressRule MarshalError : Type}.
Context (Spec_PolicyTypes : NetworkPolicySpec → list string).
Context (Spec_Ingress : NetworkPolicySpec → list IngressRule).
Context (Spec_Egress : NetworkPolicySpec → list EgressRule).
Context (json_Marshal : NetworkPolicySpec → result (list Byte.byte) MarshalError).
Context (sha256_Sum256 : list Byte.byte → list Byte.byte).
Context (hex_EncodeToString : list Byte.byte → string).

(** [networkingv1.NetworkPolicy] *)
Record NetworkPolicy : Type := mkNetworkPolicy {
  NetworkPolicy_Meta : ObjectMeta;
  NetworkPolicy_Spec : NetworkPolicySpec
}.

(** [model.NewNetPolDigest] *)
Definition NewNetPolDigest (np : NetworkPolicy)
    : result NetPolDigest (wrapped MarshalError) :=
  match json_Marshal (NetworkPolicy_Spec np) with
  | Err err => Err (Errorf "marshal NetworkPolicy spec" err)
  | Ok specBytes =>
      let hash := sha256_Sum256 specBytes in
      Ok (mkNetPolDigest
            (ObjectMeta_Namespace (NetworkPolicy_Meta np))
            (ObjectMeta_Name (NetworkPolicy_Meta np))
            (hex_EncodeToString hash)
            (Spec_PolicyTypes (NetworkPolicy_Spec np))
            (length (Spec_Ingress (NetworkPolicy_Spec np)))
            (length (Spec_Egress (NetworkPolicy_Spec np))))
  end.

(** The loop of [buildNetPolSnapshot], which returns from inside. *)
Fixpoint buildNetPolSnapshot_from (netpols : list NetworkPolicy)
    (snap : NetPolSnapshot) : result NetPolSnapshot (wrapped MarshalError) :=
  match netpols with
  | [] => Ok snap
  | np :: netpols =>
      match NewNetPolDigest np with
      | Err err => Err err
      | Ok digest =>
          let key := ObjectMeta_Namespace (NetworkPolicy_Meta np) +:+ "/"
                     +:+ ObjectMeta_Name (NetworkPolicy_Meta np) in
          buildNetPolSnapshot_from netpols
            (mkNetPolSnapshot (<[ key := digest ]> (Items snap)))
      end
  end.

(** [collectors.buildNetPolSnapshot] *)
Definition buildNetPolSnapshot (netpols : list NetworkPolicy)
    : result NetPolSnapshot (wrapped MarshalError) :=
  buildNetPolSnapshot_from netpols (mkNetPolSnapshot ∅).

End NetPolDigestConstruction.

(** ** Package diff: NetworkPolicy *)

(** [diff.NetPolDrift] *)
Record NetPolDrift : Type := mkNetPolDrift {
  NetPolDrift_Missing : list NetPolRef;
  NetPolDrift_Extra : list NetPolRef;
  NetPolDrift_Changed : list NetPolChange
}.

(** The union of keys: the two loops insert every key of [baseline.Items]
    and of [live.Items] into one set. *)
Definition netpolKeys (baseline live : NetPolSnapshot) : gset string :=
  dom (Items baseline) ∪ dom (Items live).

(** The body of [for key := range keys]: the [switch] on [okBase], [okLive]. *)
Definition classifyKey (baseline live : NetPolSnapshot) (key : string)
    (result : NetPolDrift) : NetPolDrift :=
  match Items baseline !! key, Items live !! key with
  | Some base, None =>
      mkNetPolDrift
        (NetPolDrift_Missing result ++
           [mkNetPolRef (NetPolDigest_Namespace base) (NetPolDigest_Name base)])
        (NetPolDrift_Extra result) (NetPolDrift_Changed result)
  | None, Some liveItem =>
      mkNetPolDrift (NetPolDrift_Missing result)
        (NetPolDrift_Extra result ++
           [mkNetPolRef (NetPolDigest_Namespace liveItem) (NetPolDigest_Name liveItem)])
        (NetPolDrift_Changed result)
  | Some base, Some liveItem =>
      if bool_decide (SpecHash base ≠ SpecHash liveItem) then
        mkNetPolDrift (NetPolDrift_Missing result) (NetPolDrift_Extra result)
          (NetPolDrift_Changed result ++
             [mkNetPolChange (NetPolDigest_Namespace base) (NetPolDigest_Name base)
                base liveItem])
      else result
  | None, None => result
  end.

(** The comparison all three [sort.Slice] calls use, on the namespace and
    name of two elements. *)
Definition nsNameLess (ns1 name1 ns2 name2 : string) : bool :=
  if bool_decide (ns1 = ns2) then strLess name1 name2 else strLess ns1 ns2.

Definition refLess (a b : NetPolRef) : bool :=
  nsNameLess (NetPolRef_Namespace a) (NetPolRef_Name a)
             (NetPolRef_Namespace b) (NetPolRef_Name b).

Definition changeLess (a b : NetPolChange) : bool :=
  nsNameLess (NetPolChange_Namespace a) (NetPolChange_Name a)
             (NetPolChange_Namespace b) (NetPolChange_Name b).

(** [diff.DiffNetworkPolicies], ranging over the union of keys in the
    order [keyOrder]. *)
Definition DiffNetworkPolicies `{sorter : SliceSorter} (keyOrder : list string)
    (baseline live : NetPolSnapshot) : NetPolDrift :=
  let result :=
    rangeMap keyOrder (classifyKey baseline live) (mkNetPolDrift [] [] []) in
  mkNetPolDrift
    (sortSlice refLess (NetPolDrift_Missing result))
    (sortSlice refLess (NetPolDrift_Extra result))
    (sortSlice changeLess (NetPolDrift_Changed result)).

(** A key order the runtime may choose for [DiffNetworkPolicies]. *)
Definition keyOrder_ok (keyOrder : list string) (baseline live : NetPolSnapshot)
    : Prop :=
  keyOrder ≡ₚ elements (netpolKeys baseline live).

(** A snapshot keyed the way [buildNetPolSnapshot] keys it. *)
Definition keyedByNamespaceName (snap : NetPolSnapshot) : Prop :=
  ∀ key d, Items snap !! key = Some d →
    key = NetPolDigest_Namespace d +:+ "/" +:+ NetPolDigest_Name d.

(** ** Package model and diff: Pod Security Admission *)

(** [model.PSALevel] *)
Definition PSALevel : Type := string.
Definition PSALevelPrivileged : PSALevel := "privileged".
Definition PSALevelBaseline : PSALevel := "baseline".
Definition PSALevelRestricted : PSALevel := "restricted".

(** [model.NamespacePSA] *)
Record NamespacePSA : Type := mkNamespacePSA {
  NamespacePSA_Namespace : string;
  Enforce : PSALevel;
  Audit : PSALevel;
  Warn : PSALevel
}.

(** [model.PSADriftEntry]; a field the code leaves out holds the empty
    string. *)
Record PSADriftEntry : Type := mkPSADriftEntry {
  PSADriftEntry_Namespace : string;
  PSADriftEntry_Baseline : PSALevel;
  PSADriftEntry_Live : PSALevel;
  DriftType : string
}.

(** The loops that fill [bMap] and [lMap]: a later element of the slice
    overwrites an earlier one of the same namespace. *)
Definition byNamespace (l : list NamespacePSA) : gmap string NamespacePSA :=
  rangeSlice l (λ b m, <[ NamespacePSA_Namespace b := b ]> m) ∅.

(** The orders in which one call of [DiffPSA] ranges over [bMap] and
    [lMap]. *)
Record PSASchedule : Type := mkPSASchedule {
  bOrder : list (string * NamespacePSA);
  lOrder : list (string * NamespacePSA)
}.

(** A schedule the runtime may choose for [DiffPSA baseline live]. *)
Definition PSASchedule_ok (sch : PSASchedule) (baseline live : list NamespacePSA)
    : Prop :=
  bOrder sch ≡ₚ map_to_list (byNamespace baseline) ∧
  lOrder sch ≡ₚ map_to_list (byNamespace live).

Definition PSASchedule_forward (baseline live : list NamespacePSA) : PSASchedule :=
  mkPSASchedule (map_to_list (byNamespace baseline))
                (map_to_list (byNamespace live)).

(** The comparison of the PSA [sort.Slice] calls. *)
Definition entryLess (a b : PSADriftEntry) : bool :=
  strLess (PSADriftEntry_Namespace a) (PSADriftEntry_Namespace b).

(** The differ with the two buckets [Extra] and [Missing]. *)
Module PSABucketed.

(** [diff.PSADrift] *)
Record PSADrift : Type := mkPSADrift {
  Extra : list PSADriftEntry;
  Missing : list PSADriftEntry
}.

(** [diff.psaRank] *)
Definition psaRank (level : PSALevel) : Z :=
  if bool_decide (level = PSALevelPrivileged) then 1
  else if bool_decide (level = PSALevelBaseline) then 2
  else if bool_decide (level = PSALevelRestricted) then 3
  else 0.

(** [diff.classifyPSADirection]: the pair (direction, label). *)
Definition classifyPSADirection (base live : PSALevel) : string * string :=
  let b := psaRank base in
  let l := psaRank live in
  if bool_decide (l < b)%Z then ("extra", "weaker")
  else if bool_decide (l > b)%Z then ("missing", "stronger")
  else ("extra", "different").

(** The body of [for ns, b := range bMap], on the pair (extra, missing). *)
Definition baselineDriven (lMap : gmap string NamespacePSA)
    (kv : string * NamespacePSA)
    (acc : list PSADriftEntry * list PSADriftEntry)
    : list PSADriftEntry * list PSADriftEntry :=
  let '(ns, b) := kv in
  let '(extra, missing) := acc in
  match lMap !! ns with
  | None => (extra, missing ++ [mkPSADriftEntry ns (Enforce b) "" "missing"])
  | Some l =>
      if bool_decide (Enforce b ≠ Enforce l) then
        let '(dir, label) := classifyPSADirection (Enforce b) (Enforce l) in
        let e := mkPSADriftEntry ns (Enforce b) (Enforce l) label in
        if bool_decide (dir = "extra") then (extra ++ [e], missing)
        else if bool_decide (dir = "missing") then (extra, missing ++ [e])
        else (extra ++ [e], missing)
      else (extra, missing)
  end.

(** The body of [for ns, l := range lMap]. *)
Definition liveOnly (bMap : gmap string NamespacePSA)
    (kv : string * NamespacePSA)
    (acc : list PSADriftEntry * list PSADriftEntry)
    : list PSADriftEntry * list PSADriftEntry :=
  let '(ns, l) := kv in
  let '(extra, missing) := acc in
  match bMap !! ns with
  | None => (extra ++ [mkPSADriftEntry ns "" (Enforce l) "extra"], missing)
  | Some _ => (extra, missing)
  end.

(** [diff.DiffPSA], run under the schedule [sch]. *)
Definition DiffPSA `{sorter : SliceSorter} (sch : PSASchedule)
    (baseline live : list NamespacePSA) : PSADrift :=
  let bMap := byNamespace baseline in
  let lMap := byNamespace live in
  let acc := rangeMap (bOrder sch) (baselineDriven lMap) ([], []) in
  let acc := rangeMap (lOrder sch) (liveOnly bMap) acc in
  mkPSADrift (sortSlice entryLess acc.1) (sortSlice entryLess acc.2).

End PSABucketed.

(** The differ with the single list [Entries]. *)
Module PSAFlat.

(** [diff.PSADrift] *)
Record PSADrift : Type := mkPSADrift {
  Entries : list PSADriftEntry
}.

(** The map literal [order] of [classifyPSADrift]. *)
Definition order : gmap PSALevel Z :=
  <[ PSALevelPrivileged := 1%Z ]>
    (<[ PSALevelBaseline := 2%Z ]> (<[ PSALevelRestricted := 3%Z ]> ∅)).

(** [diff.classifyPSADrift]; reading an absent key of [order] gives 0. *)
Definition classifyPSADrift (base live : PSALevel) : string :=
  let b := default 0%Z (order !! base) in
  let l := default 0%Z (order !! live) in
  if bool_decide (b = 0%Z ∨ l = 0%Z) then "different"
  else if bool_decide (l < b)%Z then "weaker"
  else if bool_decide (l > b)%Z then "stronger"
  else "different".

(** The body of [for ns, b := range bMap]. *)
Definition baselineDriven (lMap : gmap string NamespacePSA)
    (kv : string * NamespacePSA) (entries : list PSADriftEntry)
    : list PSADriftEntry :=
  let '(ns, b) := kv in
  match lMap !! ns with
  | None => entries ++ [mkPSADriftEntry ns (Enforce b) "" "missing"]
  | Some l =>
      if bool_decide (Enforce b ≠ Enforce l) then
        entries ++ [mkPSADriftEntry ns (Enforce b) (Enforce l)
                      (classifyPSADrift (Enforce b) (Enforce l))]
      else entries
  end.

(** The body of [for ns, l := range lMap]. *)
Definition liveOnly (bMap : gmap string NamespacePSA)
    (kv : string * NamespacePSA) (entries : list PSADriftEntry)
    : list PSADriftEntry :=
  let '(ns, l) := kv in
  match bMap !! ns with
  | None => entries ++ [mkPSADriftEntry ns "" (Enforce l) "extra"]
  | Some _ => entries
  end.

(** [diff.DiffPSA], run under the schedule [sch]. *)
Definition DiffPSA `{sorter : SliceSorter} (sch : PSASchedule)
    (baseline live : list NamespacePSA) : PSADrift :=
  let bMap := byNamespace baseline in
  let lMap := byNamespace live in
  let entries := rangeMap (bOrder sch) (baselineDriven lMap) [] in
  let entries := rangeMap (lOrder sch) (liveOnly bMap) entries in
  mkPSADrift (sortSlice entryLess entries).

End PSAFlat.

(** ** A sorter that meets the contract of [sort.Slice] *)

Definition mergeSortSlice {A : Type} (less : A → A → bool) (l : list A) : list A :=
  @merge_sort A (λ x y, less y x = false)
    (λ x y, decide_rel (=) (less y x) false) l.

(** No subject of the snapshot is mapped to an empty permission set. *)
Definition nonEmptySets (s : RBACSnapshot) : Prop :=
  ∀ subj ps, Subjects s !! subj = Some ps → ps ≠ ∅.

(** What one side of [diffSubject] stores for a subject, if anything: the
    permissions of [mine], in visiting order, that [other] lacks. *)
Definition keptAt (order : list Permission) (mine other : gset Permission)
    : option (list Permission) :=
  if bool_decide (0 < size mine) then
    let kept := notIn order other in
    if bool_decide (0 < length kept) then Some kept else None
  else None.

(** ** Sample snapshots *)

Definition alice : SubjectKey := mkSubjectKey "User" "alice" "".
Definition getPods : Permission := mkPermission "dev" "" "pods" "*" "get" "".
Definition listPods : Permission := mkPermission "dev" "" "pods" "*" "list" "".
Definition watchPods : Permission := mkPermission "dev" "" "pods" "*" "watch" "".

(** Alice may get pods. *)
Definition snapshotGet : RBACSnapshot :=
  AddPermissions alice [getPods] (mkRBACSnapshot ∅).

(** Alice may get, list and watch pods. *)
Definition snapshotGetListWatch : RBACSnapshot :=
  AddPermissions alice [getPods; listPods; watchPods] (mkRBACSnapshot ∅).

Definition mergeSorter : SliceSorter.
Proof.
  refine (mkSliceSorter (@mergeSortSlice) _ _).
  - intros A less l. apply merge_sort_Permutation.
  - intros A less l Hless. apply Sorted_merge_sort.
    intros x y. destruct (less y x) eqn:Hyx; [right|by left].
    by apply (swo_asym less Hless).
Defined.

(** ** The classifications as the specification words them *)

(** The two buckets of the PSA differ. *)
Inductive Bucket : Type := InExtra | InMissing.

#[global] Instance Bucket_eq_dec : EqDecision Bucket.
Proof. solve_decision. Defined.

(** The PSA classification of one namespace, from the baseline and the
    live enforce level, each absent when the namespace is: the bucket and
    the drift type, or nothing when there is no drift. *)
Definition psaVerdict (baseline live : option PSALevel) : option (Bucket * string) :=
  match baseline, live with
  | Some b, Some l =>
      if decide (b = l) then None
      else if decide (PSABucketed.psaRank l < PSABucketed.psaRank b)%Z
           then Some (InExtra, "weaker")
      else if decide (PSABucketed.psaRank l > PSABucketed.psaRank b)%Z
           then Some (InMissing, "stronger")
      else Some (InExtra, "different")
  | Some _, None => Some (InMissing, "missing")
  | None, Some _ => Some (InExtra, "extra")
  | None, None => None
  end.

(** The entry, if any, that the namespace [ns] contributes to the bucket
    [want]. *)
Definition psaEntry (ns : string) (baseline live : option PSALevel) (want : Bucket)
    : list PSADriftEntry :=
  match psaVerdict baseline live with
  | Some (bucket, driftType) =>
      if decide (bucket = want)
      then [mkPSADriftEntry ns (default "" baseline) (default "" live) driftType]
      else []
  | None => []
  end.

(** Sorted by namespace. *)
Definition entryLe (a b : PSADriftEntry) : Prop :=
  String.le (PSADriftEntry_Namespace a) (PSADriftEntry_Namespace b).

(** The NetworkPolicy classification of one key: the bucket with what it
    receives. *)
Inductive NetPolBucket : Type :=
  | BucketMissing (ref : NetPolRef)
  | BucketExtra (ref : NetPolRef)
  | BucketChanged (change : NetPolChange).

Definition refOf (d : NetPolDigest) : NetPolRef :=
  mkNetPolRef (NetPolDigest_Namespace d) (NetPolDigest_Name d).

(** Missing: in baseline only.  Extra: in live only.  Changed: in both,
    with differing [specHash].  Otherwise no bucket. *)
Definition netpolVerdict (baseline live : option NetPolDigest) : option NetPolBucket :=
  match baseline, live with
  | Some b, None => Some (BucketMissing (refOf b))
  | None, Some l => Some (BucketExtra (refOf l))
  | Some b, Some l =>
      if decide (SpecHash b = SpecHash l) then None
      else Some (BucketChanged
                   (mkNetPolChange (NetPolDigest_Namespace b) (NetPolDigest_Name b) b l))
  | None, None => None
  end.

Definition missingOf (v : option NetPolBucket) : list NetPolRef :=
  match v with Some (BucketMissing ref) => [ref] | _ => [] end.

Definition extraOf (v : option NetPolBucket) : list NetPolRef :=
  match v with Some (BucketExtra ref) => [ref] | _ => [] end.

Definition changedOf (v : option NetPolBucket) : list NetPolChange :=
  match v with Some (BucketChanged change) => [change] | _ => [] end.

(** Sorted by (namespace, name): lexicographic. *)
Definition nsNameLe (ns1 name1 ns2 name2 : string) : Prop :=
  (ns1 = ns2 ∧ String.le name1 name2) ∨ (ns1 ≠ ns2 ∧ String.le ns1 ns2).

Definition refLe (a b : NetPolRef) : Prop :=
  nsNameLe (NetPolRef_Namespace a) (NetPolRef_Name a)
           (NetPolRef_Namespace b) (NetPolRef_Name b).

Definition changeLe (a b : NetPolChange) : Prop :=
  nsNameLe (NetPolChange_Namespace a) (NetPolChange_Name a)
           (NetPolChange_Namespace b) (NetPolChange_Name b).

(** The entries of a bucket that are about the namespace [ns]. *)
Definition entriesOf (ns : string) (l : list PSADriftEntry) : list PSADriftEntry :=
  filter (λ e, PSADriftEntry_Namespace e = ns) l.

(** The enforce level a map of namespaces records for [ns], if any. *)
Definition levelAt (m : gmap string NamespacePSA) (ns : string) : option PSALevel :=
  Enforce <$> m !! ns.

(** What the two loops of the bucketed [DiffPSA] have collected before
    sorting: the pair (extra, missing). *)
Definition collectPSA (sch : PSASchedule) (bMap lMap : gmap string NamespacePSA)
    : list PSADriftEntry * list PSADriftEntry :=
  rangeMap (lOrder sch) (PSABucketed.liveOnly bMap)
    (rangeMap (bOrder sch) (PSABucketed.baselineDriven lMap) ([], [])).

(** ** Sample namespaces *)

(** The baseline and the live namespaces of a cluster: [a] is loosened,
    [b] is tightened, [c] has disappeared, [d] is new, [e] is unchanged and
    [f] has lost its label. *)
Definition psaBaseline : list NamespacePSA :=
  [mkNamespacePSA "a" PSALevelRestricted "" "";
   mkNamespacePSA "b" PSALevelBaseline "" "";
   mkNamespacePSA "c" PSALevelRestricted "" "";
   mkNamespacePSA "e" PSALevelPrivileged "" "";
   mkNamespacePSA "f" PSALevelRestricted "" ""].

Definition psaLive : list NamespacePSA :=
  [mkNamespacePSA "f" "" "" "";
   mkNamespacePSA "e" PSALevelPrivileged "" "";
   mkNamespacePSA "d" PSALevelBaseline "" "";
   mkNamespacePSA "b" PSALevelRestricted "" "";
   mkNamespacePSA "a" PSALevelBaseline "" ""].

(** The key under which [buildNetPolSnapshot] files a policy of this
    namespace and name. *)
Definition keyOf (ns name : string) : string := ns +:+ "/" +:+ name.

(** The classification of [key] between two snapshots. *)
Definition verdictAt (baseline live : NetPolSnapshot) (key : string)
    : option NetPolBucket :=
  netpolVerdict (Items baseline !! key) (Items live !! key).

(** ** Sample NetworkPolicy snapshots *)

Definition allowDns : NetPolDigest :=
  mkNetPolDigest "ns1" "allow-dns" "3f2a" ["Egress"] 0 1.
Definition denyAll : NetPolDigest :=
  mkNetPolDigest "ns1" "deny-all" "77c0" ["Ingress"] 0 0.
Definition denyAllEdited : NetPolDigest :=
  mkNetPolDigest "ns1" "deny-all" "b915" ["Ingress"] 1 0.
Definition web : NetPolDigest :=
  mkNetPolDigest "ns2" "web" "e41d" ["Ingress"] 2 0.
Definition metrics : NetPolDigest :=
  mkNetPolDigest "ns0" "metrics" "0a6e" ["Ingress"] 1 0.

(** [ns1/allow-dns] is only in baseline, [ns0/metrics] only in live,
    [ns1/deny-all] has another spec in live, [ns2/web] is unchanged. *)
Definition netpolBaseline : NetPolSnapshot :=
  mkNetPolSnapshot
    (<[ "ns1/allow-dns" := allowDns ]>
       (<[ "ns1/deny-all" := denyAll ]> (<[ "ns2/web" := web ]> ∅))).

Definition netpolLive : NetPolSnapshot :=
  mkNetPolSnapshot
    (<[ "ns0/metrics" := metrics ]>
       (<[ "ns1/deny-all" := denyAllEdited ]> (<[ "ns2/web" := web ]> ∅))).

Definition PSASchedule_backward (baseline live : list NamespacePSA) : PSASchedule :=
  mkPSASchedule (reverse (map_to_list (byNamespace baseline)))
                (reverse (map_to_list (byNamespace live))).

(** Two snapshots that are not keyed by namespace and name: the keys [k1]
    and [k2] both hold a policy [ns1/deny-all]. *)
Definition unkeyedBaseline : NetPolSnapshot :=
  mkNetPolSnapshot (<[ "k1" := denyAll ]> (<[ "k2" := denyAllEdited ]> ∅)).

Definition unkeyedLive : NetPolSnapshot :=
  mkNetPolSnapshot (<[ "k1" := denyAllEdited ]> (<[ "k2" := denyAll ]> ∅)).

(** ** Stand-ins for the library functions, to run digest construction *)

(** A spec is the list of its policy types; the stand-in serializer
    writes the first one and rejects a spec without any; the stand-in hash
    is the identity. *)
Definition toyMarshal (spec : list string) : result (list Byte.byte) string :=
  match spec with
  | [] => Err "unsupported value"
  | policyType :: _ => Ok (String.list_byte_of_string policyType)
  end.

Definition toyPolicy (name resourceVersion : string) (spec : list string)
    : @NetworkPolicy (list string) :=
  mkNetworkPolicy (mkObjectMeta name "ns1" resourceVersion ∅) spec.

(** ** The classification of the differ with a single list *)

(** The entry, if any, that the namespace [ns] contributes to [Entries]. *)
Definition flatEntry (ns : string) (baseline live : option PSALevel)
    : list PSADriftEntry :=
  match baseline, live with
  | Some b, Some l =>
      if decide (b = l) then []
      else [mkPSADriftEntry ns b l (PSAFlat.classifyPSADrift b l)]
  | Some b, None => [mkPSADriftEntry ns b "" "missing"]
  | None, Some l => [mkPSADriftEntry ns "" l "extra"]
  | None, None => []
  end.

(** What the two loops of the flat [DiffPSA] have collected before
    sorting. *)
Definition collectFlat (sch : PSASchedule) (bMap lMap : gmap string NamespacePSA)
    : list PSADriftEntry :=
  rangeMap (lOrder sch) (PSAFlat.liveOnly bMap)
    (rangeMap (bOrder sch) (PSAFlat.baselineDriven lMap) []).

(** An entry without its drift type: namespace, baseline and live level. *)
Definition transition (e : PSADriftEntry) : string * PSALevel * PSALevel :=
  (PSADriftEntry_Namespace e, PSADriftEntry_Baseline e, PSADriftEntry_Live e).

(** [NetPolRef.String]: [fmt.Sprintf("%s/%s", r.Namespace, r.Name)]. *)
Definition NetPolRef_String (r : NetPolRef) : string :=
  NetPolRef_Namespace r +:+ "/" +:+ NetPolRef_Name r.

(** The stand-in builder, and the snapshot it returns for two versions of
    [ns1/allow-dns] followed by [ns1/web]. *)
Definition toyBuild (netpols : list (@NetworkPolicy (list string)))
    : result NetPolSnapshot (wrapped string) :=
  buildNetPolSnapshot (IngressRule := unit) (EgressRule := unit)
    (λ spec, spec) (λ _, []) (λ _, []) toyMarshal (λ bytes, bytes)
    String.string_of_list_byte netpols.

Definition toyPolicies : list (@NetworkPolicy (list string)) :=
  [toyPolicy "allow-dns" "41" ["Egress"];
   toyPolicy "web" "3" ["Ingress"];
   toyPolicy "allow-dns" "42" ["Ingress"; "Egress"]].

Definition toySnapshot : NetPolSnapshot :=
  mkNetPolSnapshot
    (<[ "ns1/allow-dns" := mkNetPolDigest "ns1" "allow-dns" "Ingress" ["Ingress"; "Egress"] 0 0 ]>
       (<[ "ns1/web" := mkNetPolDigest "ns1" "web" "Ingress" ["Ingress"] 0 0 ]> ∅)).

(** ** What a binding grants *)

(** The rules a RoleBinding resolves to: those filed under the key of its
    namespace and role name for kind [Role], those filed under the role
    name for kind [ClusterRole], none for any other kind. *)
Definition roleBindingRules (byKey byName : gmap string (list PolicyRule))
    (rb : RoleBinding) : list PolicyRule :=
  let ref := RoleBinding_RoleRef rb in
  if bool_decide (RoleRef_Kind ref = "Role") then
    rulesAt byKey (RoleBinding_Namespace rb +:+ "/" +:+ RoleRef_Name ref)
  else if bool_decide (RoleRef_Kind ref = "ClusterRole") then
    rulesAt byName (RoleRef_Name ref)
  else [].

(** The binding names the subject [subj]. *)
Definition bindsSubject (subjects : list Subject) (defaultNamespace : string)
    (subj : SubjectKey) : Prop :=
  ∃ s, s ∈ subjects ∧ SubjectKeyFromRBACSubject s defaultNamespace = subj.

(** ** Sample roles and bindings *)

Definition podReader : Role :=
  mkRole "dev" "pod-reader" [mkPolicyRule ["get"; "list"] [] ["pods"] [] []].
Definition podWatcher : Role :=
  mkRole "dev" "pod-reader" [mkPolicyRule ["watch"] [] ["pods"] [] []].
Definition health : ClusterRole :=
  mkClusterRole "health" [mkPolicyRule ["get"] [] [] [] ["/healthz"]].
Definition aliceReads : RoleBinding :=
  mkRoleBinding "dev" (mkRoleRef "Role" "pod-reader") [mkSubject "User" "alice" ""].
Definition botReads : RoleBinding :=
  mkRoleBinding "dev" (mkRoleRef "Role" "pod-reader")
    [mkSubject "ServiceAccount" "bot" ""].
Definition aliceHealth : ClusterRoleBinding :=
  mkClusterRoleBinding (mkRoleRef "ClusterRole" "health") [mkSubject "User" "alice" ""].

(** ** Package model: printing subjects and permissions *)

(** [SubjectKey.String]; [fmt.Sprintf] with [%s] verbs is concatenation. *)
Definition SubjectKey_String (s : SubjectKey) : string :=
  if bool_decide (SubjectKey_Kind s = "ServiceAccount" ∧ SubjectKey_Namespace s ≠ "") then
    SubjectKey_Kind s +:+ " " +:+ SubjectKey_Namespace s +:+ "/" +:+ SubjectKey_Name s
  else if bool_decide (SubjectKey_Namespace s ≠ "") then
    SubjectKey_Kind s +:+ " " +:+ SubjectKey_Namespace s +:+ "/" +:+ SubjectKey_Name s
  else SubjectKey_Kind s +:+ " " +:+ SubjectKey_Name s.

(** [Permission.String] *)
Definition Permission_String (p : Permission) : string :=
  let scope := "[cluster-wide]" in
  let scope :=
    if bool_decide (ScopeNamespace p ≠ "" ∧ ScopeNamespace p ≠ "*")
    then "[ns=" +:+ ScopeNamespace p +:+ "]" else scope in
  if bool_decide (NonResourceURL p ≠ "") then
    scope +:+ " verb=" +:+ Verb p +:+ " nonResourceURL=" +:+ NonResourceURL p
  else
    let group := APIGroup p in
    let group := if bool_decide (group = "") then "core" else group in
    let rn := ResourceName p in
    let rn := if bool_decide (rn = "") then "*" else rn in
    scope +:+ " verb=" +:+ Verb p +:+ " resource=" +:+ Resource p +:+ "." +:+ group
    +:+ " resourceName=" +:+ rn.

(** ** Package collectors: PSA labels of a namespace *)

(** [corev1.Namespace]: its name and labels. *)
Record Namespace : Type := mkNamespace {
  Namespace_Name : string;
  Namespace_Labels : gmap string string
}.

(** The closure [get] of [namespaceToPSA]; reading an absent label gives
    the empty string. *)
Definition labelLevel (ns : Namespace) (key : string) : PSALevel :=
  let val := default "" (Namespace_Labels ns !! key) in
  if bool_decide (val = "") then "" else val.

(** [collectors.namespaceToPSA] *)
Definition namespaceToPSA (ns : Namespace) : NamespacePSA :=
  mkNamespacePSA (Namespace_Name ns)
    (labelLevel ns "pod-security.kubernetes.io/enforce")
    (labelLevel ns "pod-security.kubernetes.io/audit")
    (labelLevel ns "pod-security.kubernetes.io/warn").

(** ** Package app: filtering for the report *)

(** [app.Options] *)
Record Options : Type := mkOptions {
  Options_Mode : string;
  Options_BaselineDir : string;
  Options_Kubeconfig : string;
  Options_KubeconfigA : string;
  Options_KubeconfigB : string;
  Options_DriftType : string;
  Options_IgnoreSystem : bool;
  Options_SubjectKind : string;
  Options_SubjectName : string;
  Options_SubjectNamespace : string;
  Options_OutputFormat : string
}.

(** [app.subjectPermissions] *)
Record subjectPermissions : Type := mkSubjectPermissions {
  Subject_of : SubjectKey;
  Permissions_of : list Permission
}.

(** [app.netPolDriftJSON] *)
Record netPolDriftJSON : Type := mkNetPolDriftJSON {
  netPolDriftJSON_Missing : list NetPolRef;
  netPolDriftJSON_Extra : list NetPolRef;
  netPolDriftJSON_Changed : list NetPolChange
}.

(** [app.psaDriftJSON] *)
Record psaDriftJSON : Type := mkPsaDriftJSON {
  psaDriftJSON_Extra : list PSADriftEntry;
  psaDriftJSON_Missing : list PSADriftEntry
}.

(** [app.isSystemSubject]; [strings.HasPrefix] is [String.prefix]. *)
Definition isSystemSubject (s : SubjectKey) : bool :=
  if bool_decide (SubjectKey_Kind s = "User" ∨ SubjectKey_Kind s = "Group")
     && String.prefix "system:" (SubjectKey_Name s)
  then true
  else if bool_decide (SubjectKey_Kind s = "ServiceAccount")
          && bool_decide (SubjectKey_Namespace s = "kube-system"
                          ∨ SubjectKey_Namespace s = "kube-public")
  then true
  else false.

(** [app.isSystemNamespace] *)
Definition isSystemNamespace (ns : string) : bool :=
  if bool_decide (ns = "kube-system" ∨ ns = "kube-public") then true else false.

(** The loops of [filterNetPolDriftToJSON] and the closure [addFiltered]
    of [psaDriftToJSON]: append the elements of [src] that are not skipped
    for their namespace. *)
Definition appendUnlessSystem {A : Type} (ignoreSystem : bool)
    (namespaceOf : A → string) (src dst : list A) : list A :=
  rangeSlice src (λ x dst,
    if ignoreSystem && isSystemNamespace (namespaceOf x) then dst
    else dst ++ [x]) dst.

(** [app.filterNetPolDriftToJSON] *)
Definition filterNetPolDriftToJSON (d : NetPolDrift) (opts : Options) : netPolDriftJSON :=
  let j := mkNetPolDriftJSON [] [] [] in
  let j :=
    if bool_decide (Options_DriftType opts = "extra" ∨ Options_DriftType opts = "both")
    then mkNetPolDriftJSON (netPolDriftJSON_Missing j)
           (appendUnlessSystem (Options_IgnoreSystem opts) NetPolRef_Namespace
              (NetPolDrift_Extra d) (netPolDriftJSON_Extra j))
           (netPolDriftJSON_Changed j)
    else j in
  let j :=
    if bool_decide (Options_DriftType opts = "missing" ∨ Options_DriftType opts = "both")
    then mkNetPolDriftJSON
           (appendUnlessSystem (Options_IgnoreSystem opts) NetPolRef_Namespace
              (NetPolDrift_Missing d) (netPolDriftJSON_Missing j))
           (netPolDriftJSON_Extra j) (netPolDriftJSON_Changed j)
    else j in
  mkNetPolDriftJSON (netPolDriftJSON_Missing j) (netPolDriftJSON_Extra j)
    (appendUnlessSystem (Options_IgnoreSystem opts) NetPolChange_Namespace
       (NetPolDrift_Changed d) (netPolDriftJSON_Changed j)).

(** The closure [addFiltered] of [psaDriftToJSON]: append, then sort. *)
Definition addFiltered `{sorter : SliceSorter} (opts : Options)
    (dst src : list PSADriftEntry) : list PSADriftEntry :=
  sortSlice entryLess
    (appendUnlessSystem (Options_IgnoreSystem opts) PSADriftEntry_Namespace src dst).

(** [app.psaDriftToJSON], on the result of the differ with two buckets. *)
Definition psaDriftToJSON `{sorter : SliceSorter} (d : PSABucketed.PSADrift)
    (opts : Options) : psaDriftJSON :=
  let out := mkPsaDriftJSON [] [] in
  if bool_decide (Options_DriftType opts = "extra") then
    mkPsaDriftJSON (addFiltered opts (psaDriftJSON_Extra out) (PSABucketed.Extra d))
      (psaDriftJSON_Missing out)
  else if bool_decide (Options_DriftType opts = "missing") then
    mkPsaDriftJSON (psaDriftJSON_Extra out)
      (addFiltered opts (psaDriftJSON_Missing out) (PSABucketed.Missing d))
  else if bool_decide (Options_DriftType opts = "both") then
    mkPsaDriftJSON (addFiltered opts (psaDriftJSON_Extra out) (PSABucketed.Extra d))
      (addFiltered opts (psaDriftJSON_Missing out) (PSABucketed.Missing d))
  else
    mkPsaDriftJSON (addFiltered opts (psaDriftJSON_Extra out) (PSABucketed.Extra d))
      (psaDriftJSON_Missing out).

Section app_filters.

(** [strings.ToLower], [strings.TrimSpace] and package [regexp] are not
    part of this repository; [regexp_Compile] gives nothing where
    [regexp.Compile] returns an error. *)
Context {Regexp : Type}.
Context (strings_ToLower : string → string).
Context (strings_TrimSpace : string → string).
Context (regexp_Compile : string → option Regexp).
Context (Regexp_MatchString : Regexp → string → bool).

(** [app.normalizeOutputFormat] *)
Definition normalizeOutputFormat (s : string) : string :=
  let lower := strings_ToLower s in
  if bool_decide (lower = "json") then "json"
  else if bool_decide (lower = "text" ∨ lower = "") then "text"
  else "text".

(** [app.normalizeDriftType] *)
Definition normalizeDriftType (s : string) : string :=
  let lower := strings_ToLower s in
  if bool_decide (lower = "missing") then "missing"
  else if bool_decide (lower = "both") then "both"
  else if bool_decide (lower = "extra" ∨ lower = "") then "extra"
  else "extra".

(** [app.matchesSubjectKind] *)
Definition matchesSubjectKind (s : SubjectKey) (filter : string) : bool :=
  let filter := strings_ToLower (strings_TrimSpace filter) in
  if bool_decide (filter = "" ∨ filter = "all") then true
  else bool_decide (strings_ToLower (SubjectKey_Kind s) = filter).

(** [app.matchesSubjectNamespace] *)
Definition matchesSubjectNamespace (s : SubjectKey) (ns : string) : bool :=
  let ns := strings_TrimSpace ns in
  if bool_decide (ns = "") then true
  else bool_decide (SubjectKey_Namespace s = ns).

(** [app.matchesSubjectName]; [filter[0]] and [filter[len(filter)-1]] are
    bytes, compared with the byte of the string "/";
    [filter[1 : len(filter)-1]] is the string between them. *)
Definition matchesSubjectName (name filter : string) : bool :=
  let filter := strings_TrimSpace filter in
  if bool_decide (filter = "") then true
  else if bool_decide (2 ≤ String.length filter)
          && bool_decide (String.get 0 filter = String.get 0 "/")
          && bool_decide (String.get (String.length filter - 1) filter = String.get 0 "/")
  then
    let pattern := String.substring 1 (String.length filter - 2) filter in
    match regexp_Compile pattern with
    | None => false
    | Some re => Regexp_MatchString re name
    end
  else bool_decide (name = filter).

(** The four tests a subject has to pass in [filterRBACDriftToSlices]
    before the length of its permission list is looked at. *)
Definition subjectSkipped (opts : Options) (subj : SubjectKey) : bool :=
  if Options_IgnoreSystem opts && isSystemSubject subj then true
  else if negb (matchesSubjectKind subj (Options_SubjectKind opts)) then true
  else if negb (matchesSubjectNamespace subj (Options_SubjectNamespace opts)) then true
  else if negb (matchesSubjectName (SubjectKey_Name subj) (Options_SubjectName opts)) then true
  else false.

(** The comparisons of the two kinds of [sort.Slice] calls. *)
Definition subjectLess (a b : SubjectKey) : bool :=
  strLess (SubjectKey_String a) (SubjectKey_String b).

Definition permissionLess (a b : Permission) : bool :=
  strLess (Permission_String a) (Permission_String b).

(** One side of [filterRBACDriftToSlices]: the subjects of the map,
    collected in the order [order] the map is ranged over, sorted, and
    then filtered, each with a sorted copy of its permissions. *)
Definition subjectsToSlice `{sorter : SliceSorter} (opts : Options)
    (side : gmap SubjectKey (list Permission)) (order : list SubjectKey)
    : list subjectPermissions :=
  let subjects := rangeMap order (λ s subjects, subjects ++ [s]) [] in
  let subjects := sortSlice subjectLess subjects in
  rangeSlice subjects (λ subj out,
    let perms := default [] (side !! subj) in
    if subjectSkipped opts subj then out
    else if lenIsZero perms then out
    else
      let permsCopy := [] ++ perms in
      let permsCopy := sortSlice permissionLess permsCopy in
      out ++ [mkSubjectPermissions subj permsCopy]) [].

(** [app.filterRBACDriftToSlices], ranging over [d.Extra] in the order
    [extraOrder] and over [d.Missing] in the order [missingOrder]. *)
Definition filterRBACDriftToSlices `{sorter : SliceSorter}
    (extraOrder missingOrder : list SubjectKey) (d : RBACDrift) (opts : Options)
    : list subjectPermissions * list subjectPermissions :=
  (subjectsToSlice opts (RBACDrift_Extra d) extraOrder,
   subjectsToSlice opts (RBACDrift_Missing d) missingOrder).

End app_filters.

(** Orders the runtime may choose for [filterRBACDriftToSlices]. *)
Definition sliceOrders_ok (extraOrder missingOrder : list SubjectKey) (d : RBACDrift)
    : Prop :=
  extraOrder ≡ₚ elements (dom (RBACDrift_Extra d)) ∧
  missingOrder ≡ₚ elements (dom (RBACDrift_Missing d)).

(** An element of this namespace is not skipped. *)
Definition keptNamespace (ignoreSystem : bool) (ns : string) : Prop :=
  (ignoreSystem && isSystemNamespace ns) = false.

#[global] Instance keptNamespace_dec ignoreSystem ns :
  Decision (keptNamespace ignoreSystem ns).
Proof. unfold keptNamespace. apply _. Defined.

(** ** Sample options *)

(** Both drift types, system objects ignored, no subject filter. *)
Definition optionsBoth : Options :=
  mkOptions "single" "baseline" "kubeconfig" "" "" "both" true "all" "" "" "json".

(** Sorted by the printed subject, and by the printed permission. *)
Definition subjectLe (a b : SubjectKey) : Prop :=
  String.le (SubjectKey_String a) (SubjectKey_String b).

Definition permissionLe (a b : Permission) : Prop :=
  String.le (Permission_String a) (Permission_String b).

(** Stand-ins for [strings.ToLower], [strings.TrimSpace] and package
    [regexp], to run the subject filters: nothing is changed, and a pattern
    matches the names equal to it. *)
Definition toyCompile (pattern : string) : option string := Some pattern.
Definition toyMatch (re name : string) : bool := bool_decide (re = name).

(** A subject of [kube-system] beside Alice. *)
Definition controller : SubjectKey := mkSubjectKey "ServiceAccount" "controller" "kube-system".

Definition sampleDrift : RBACDrift :=
  mkRBACDrift (<[ alice := [watchPods; listPods] ]> (<[ controller := [getPods] ]> ∅)) ∅.

(** ** Sample namespace objects *)

Definition paymentsLabelled : Namespace :=
  mkNamespace "payments"
    (<[ "pod-security.kubernetes.io/enforce" := "restricted" ]>
       (<[ "team" := "pay" ]> ∅)).

Definition paymentsUnlabelled : Namespace :=
  mkNamespace "payments" (<[ "team" := "pay" ]> ∅).

(** ** Package app: the JSON report *)

(** [app.rbacDriftJSON] *)
Record rbacDriftJSON : Type := mkRbacDriftJSON {
  rbacDriftJSON_Extra : list subjectPermissions;
  rbacDriftJSON_Missing : list subjectPermissions
}.

(** [app.driftReportJSON] *)
Record driftReportJSON : Type := mkDriftReportJSON {
  Report_Mode : string;
  Report_DriftType : string;
  Report_IgnoreSystem : bool;
  Report_SubjectKind : string;
  Report_SubjectName : string;
  Report_SubjectNamespace : string;
  Report_RBAC : rbacDriftJSON;
  Report_NetworkPolicy : netPolDriftJSON;
  Report_PSA : psaDriftJSON
}.

Section app_report.
Context {Regexp : Type}.
Context (strings_ToLower : string → string).
Context (strings_TrimSpace : string → string).
Context (regexp_Compile : string → option Regexp).
Context (Regexp_MatchString : Regexp → string → bool).
Context `{sorter : SliceSorter}.

(** The options after the two assignments [renderReport] starts with. *)
Definition normalizeOptions (opts : Options) : Options :=
  let driftType := normalizeDriftType strings_ToLower (Options_DriftType opts) in
  let outputFormat := normalizeOutputFormat strings_ToLower (Options_OutputFormat opts) in
  mkOptions (Options_Mode opts) (Options_BaselineDir opts) (Options_Kubeconfig opts)
    (Options_KubeconfigA opts) (Options_KubeconfigB opts) driftType
    (Options_IgnoreSystem opts) (Options_SubjectKind opts) (Options_SubjectName opts)
    (Options_SubjectNamespace opts) outputFormat.

(** The value [printJSONReport] hands to the JSON encoder. *)
Definition jsonReport (extraOrder missingOrder : list SubjectKey)
    (modeLabel : string) (opts : Options) (rbacDrift : RBACDrift)
    (netpolDrift : NetPolDrift) (psaDrift : PSABucketed.PSADrift) : driftReportJSON :=
  let '(extra, missing) :=
    filterRBACDriftToSlices strings_ToLower strings_TrimSpace regexp_Compile
      Regexp_MatchString extraOrder missingOrder rbacDrift opts in
  let rbacJSON := mkRbacDriftJSON [] [] in
  let rbacJSON :=
    if bool_decide (Options_DriftType opts = "extra") then
      mkRbacDriftJSON extra (rbacDriftJSON_Missing rbacJSON)
    else if bool_decide (Options_DriftType opts = "missing") then
      mkRbacDriftJSON (rbacDriftJSON_Extra rbacJSON) missing
    else if bool_decide (Options_DriftType opts = "both") then
      mkRbacDriftJSON extra missing
    else rbacJSON in
  let netpolJSON := filterNetPolDriftToJSON netpolDrift opts in
  let psaJSON := psaDriftToJSON psaDrift opts in
  mkDriftReportJSON modeLabel (Options_DriftType opts) (Options_IgnoreSystem opts)
    (Options_SubjectKind opts) (Options_SubjectName opts)
    (Options_SubjectNamespace opts) rbacJSON netpolJSON psaJSON.

End app_report.

(** * Properties *)

(** ** Loops over slices *)

Arguments rangeSlice : simpl never.
Arguments rangeMap : simpl never.

Lemma rangeSlice_nil {A S : Type} (body : A → S → S) (s : S) :
  rangeSlice [] body s = s.
Proof. reflexivity. Qed.

Lemma rangeSlice_cons {A S : Type} (x : A) (xs : list A) (body : A → S → S) (s : S) :
  rangeSlice (x :: xs) body s = rangeSlice xs body (body x s).
Proof. reflexivity. Qed.

Lemma rangeSlice_app {A S : Type} (xs ys : list A) (body : A → S → S) (s : S) :
  rangeSlice (xs ++ ys) body s = rangeSlice ys body (rangeSlice xs body s).
Proof. unfold rangeSlice. apply foldl_app. Qed.

(** A loop whose body only appends to [out] appends, element after
    element, what each body appends. *)
Lemma rangeSlice_emit {A B : Type} (xs : list A) (body : A → list B → list B)
    (emits : A → list B) :
  (∀ x out, body x out = out ++ emits x) →
  ∀ out, rangeSlice xs body out = out ++ (xs ≫= emits).
Proof.
  intros Hbody. induction xs as [|x xs IH]; intros out; simpl.
  - by rewrite rangeSlice_nil, app_nil_r.
  - rewrite rangeSlice_cons, IH, Hbody. by rewrite <-(assoc_L (++)).
Qed.

(** A loop that appends the elements failing a test is a filter. *)
Lemma rangeSlice_reject {A : Type} (P : A → Prop) `{∀ x, Decision (P x)}
    (xs : list A) :
  ∀ out, rangeSlice xs (λ x out, if bool_decide (P x) then out else out ++ [x]) out
         = out ++ filter (λ x, ¬ P x) xs.
Proof.
  induction xs as [|x xs IH]; intros out.
  - by rewrite rangeSlice_nil, app_nil_r.
  - rewrite rangeSlice_cons, IH, filter_cons.
    case_bool_decide.
    + by rewrite decide_False by tauto.
    + rewrite decide_True by done. by rewrite <-(assoc_L (++)).
Qed.

Lemma lenIsZero_spec {A : Type} (xs : list A) : lenIsZero xs = true ↔ xs = [].
Proof. by destruct xs. Qed.

(** ** The rule expander *)

Lemma expandRule_emit ns cs rule out :
  expandRule ns cs rule out = out ++ ruleFacts ns cs rule.
Proof.
  unfold expandRule, ruleFacts.
  destruct (NonResourceURLs rule) as [|url urls] eqn:Hurls; simpl.
  - unfold resourceProduct.
    replace (if lenIsZero (APIGroups rule) then [""] else APIGroups rule)
      with (orDefault [""] (APIGroups rule)) by by destruct (APIGroups rule).
    replace (if lenIsZero (Resources rule) then [""] else Resources rule)
      with (orDefault [""] (Resources rule)) by by destruct (Resources rule).
    replace (if lenIsZero (ResourceNames rule) then ["*"] else ResourceNames rule)
      with (orDefault ["*"] (ResourceNames rule)) by by destruct (ResourceNames rule).
    replace (if negb cs then ns else "*") with (if cs then "*" else ns)
      by by destruct cs.
    apply rangeSlice_emit; intros verb out1.
    apply rangeSlice_emit; intros group out2.
    apply rangeSlice_emit; intros res out3.
    apply rangeSlice_emit; intros rn out4.
    reflexivity.
  - unfold urlProduct.
    apply rangeSlice_emit; intros verb out1.
    apply rangeSlice_emit; intros u out2.
    reflexivity.
Qed.

Lemma Expand_bind rules ns cs :
  ExpandPolicyRulesToPermissions rules ns cs = rules ≫= ruleFacts ns cs.
Proof.
  unfold ExpandPolicyRulesToPermissions.
  rewrite (rangeSlice_emit rules _ (ruleFacts ns cs)); [done|].
  intros rule out. apply expandRule_emit.
Qed.

Lemma length_bind_const {A B : Type} (xs : list A) (f : A → list B) (n : nat) :
  (∀ x, length (f x) = n) → length (xs ≫= f) = length xs * n.
Proof.
  intros Hf. induction xs as [|x xs IH]; [done|].
  rewrite bind_cons, length_app, Hf, IH. simpl. lia.
Qed.

Lemma length_resourceProduct scope verbs groups resources names :
  length (resourceProduct scope verbs groups resources names)
  = length verbs * length groups * length resources * length names.
Proof.
  unfold resourceProduct.
  rewrite (length_bind_const verbs _
             (length groups * (length resources * length names))); [lia|].
  intros verb.
  rewrite (length_bind_const groups _ (length resources * length names)); [lia|].
  intros group.
  rewrite (length_bind_const resources _ (length names)); [lia|].
  intros res.
  rewrite (length_bind_const names _ 1); [lia|done].
Qed.

Lemma length_urlProduct verbs urls :
  length (urlProduct verbs urls) = length verbs * length urls.
Proof.
  unfold urlProduct.
  rewrite (length_bind_const verbs _ (length urls)); [lia|].
  intros verb. rewrite (length_bind_const urls _ 1); [lia|done].
Qed.

Lemma elem_of_resourceProduct scope verbs groups resources names p :
  p ∈ resourceProduct scope verbs groups resources names ↔
  ∃ verb group res rn,
    verb ∈ verbs ∧ group ∈ groups ∧ res ∈ resources ∧ rn ∈ names ∧
    p = mkPermission scope group res rn verb "".
Proof.
  unfold resourceProduct. split.
  - intros (verb & H1 & ?)%list_elem_of_bind.
    apply list_elem_of_bind in H1 as (group & H1 & ?).
    apply list_elem_of_bind in H1 as (res & H1 & ?).
    apply list_elem_of_bind in H1 as (rn & H1 & ?).
    apply list_elem_of_singleton in H1. naive_solver.
  - intros (verb & group & res & rn & ? & ? & ? & ? & ->).
    apply list_elem_of_bind; exists verb; split; [|done].
    apply list_elem_of_bind; exists group; split; [|done].
    apply list_elem_of_bind; exists res; split; [|done].
    apply list_elem_of_bind; exists rn; split; [|done].
    by apply list_elem_of_singleton.
Qed.

Lemma elem_of_urlProduct verbs urls p :
  p ∈ urlProduct verbs urls ↔
  ∃ verb url, verb ∈ verbs ∧ url ∈ urls ∧ p = mkPermission "*" "" "" "" verb url.
Proof.
  unfold urlProduct. split.
  - intros (verb & H1 & ?)%list_elem_of_bind.
    apply list_elem_of_bind in H1 as (url & H1 & ?).
    apply list_elem_of_singleton in H1. naive_solver.
  - intros (verb & url & ? & ? & ->).
    apply list_elem_of_bind; exists verb; split; [|done].
    apply list_elem_of_bind; exists url; split; [|done].
    by apply list_elem_of_singleton.
Qed.

(** C2. The expander emits, for one rule, exactly the cartesian product
    verb × apiGroup × resource × resourceName (with the defaults [""],
    [""] and ["*"] for missing lists, and scope "*" or the binding
    namespace) when the rule has no non-resource URL, and one permission
    per verb × URL pair with scope "*" otherwise; the count is the product
    of the lengths, so 2 verbs × 1 group × 2 resources × 1 name give 4
    permissions; a rule without verbs gives none; and the rules of a list
    contribute one after the other. *)
Theorem C2_expander_emits_cartesian_product
    (rule : PolicyRule) (bindingNamespace : string) (clusterScope : bool)
    (before after : list PolicyRule) (v1 v2 g r1 r2 n : string) :
  let emitted := ExpandPolicyRulesToPermissions [rule] bindingNamespace clusterScope in
  let scope := if clusterScope then "*" else bindingNamespace in
  let groups := orDefault [""] (APIGroups rule) in
  let resources := orDefault [""] (Resources rule) in
  let names := orDefault ["*"] (ResourceNames rule) in
  emitted = ruleFacts bindingNamespace clusterScope rule
  ∧ (∀ p, p ∈ emitted ↔
       match NonResourceURLs rule with
       | [] => ∃ verb group res rn,
                 verb ∈ Verbs rule ∧ group ∈ groups ∧ res ∈ resources ∧
                 rn ∈ names ∧ p = mkPermission scope group res rn verb ""
       | urls => ∃ verb url,
                 verb ∈ Verbs rule ∧ url ∈ urls ∧
                 p = mkPermission "*" "" "" "" verb url
       end)
  ∧ length emitted =
      match NonResourceURLs rule with
      | [] => length (Verbs rule) * length groups * length resources * length names
      | urls => length (Verbs rule) * length urls
      end
  ∧ length (ExpandPolicyRulesToPermissions
              [mkPolicyRule [v1; v2] [g] [r1; r2] [n] []]
              bindingNamespace clusterScope) = 4
  ∧ ExpandPolicyRulesToPermissions
      [mkPolicyRule [] (APIGroups rule) (Resources rule) (ResourceNames rule)
         (NonResourceURLs rule)] bindingNamespace clusterScope = []
  ∧ ExpandPolicyRulesToPermissions (before ++ rule :: after)
      bindingNamespace clusterScope
    = ExpandPolicyRulesToPermissions before bindingNamespace clusterScope
      ++ emitted
      ++ ExpandPolicyRulesToPermissions after bindingNamespace clusterScope.
Proof.
  intros emitted scope groups resources names.
  assert (Hemit : emitted = ruleFacts bindingNamespace clusterScope rule).
  { unfold emitted. rewrite Expand_bind. apply bind_singleton. }
  split; [exact Hemit|]. split; [|split; [|split; [|split]]].
  - intros p. rewrite Hemit. unfold ruleFacts.
    destruct (NonResourceURLs rule) as [|url urls].
    + apply elem_of_resourceProduct.
    + apply elem_of_urlProduct.
  - rewrite Hemit. unfold ruleFacts.
    destruct (NonResourceURLs rule) as [|url urls].
    + apply length_resourceProduct.
    + apply length_urlProduct.
  - reflexivity.
  - rewrite Expand_bind, bind_singleton. unfold ruleFacts.
    cbn [NonResourceURLs Verbs]. by destruct (NonResourceURLs rule).
  - unfold emitted. rewrite !Expand_bind, bind_app, bind_cons.
    by rewrite bind_singleton.
Qed.

(** The rule [get, list] on [pods, services] of the core group, bound in
    namespace [dev]. *)
Example expand_two_by_two :
  ExpandPolicyRulesToPermissions
    [mkPolicyRule ["get"; "list"] [] ["pods"; "services"] [] []] "dev" false
  = [mkPermission "dev" "" "pods" "*" "get" "";
     mkPermission "dev" "" "services" "*" "get" "";
     mkPermission "dev" "" "pods" "*" "list" "";
     mkPermission "dev" "" "services" "*" "list" ""].
Proof. reflexivity. Qed.

(** A rule with a non-resource URL: its resources and groups leave no
    trace. *)
Example expand_url_rule :
  ExpandPolicyRulesToPermissions
    [mkPolicyRule ["get"] ["apps"] ["pods"] ["x"] ["/healthz"]] "dev" false
  = [mkPermission "*" "" "" "" "get" "/healthz"].
Proof. reflexivity. Qed.

(** ** Snapshots and [AddPermissions] *)

Lemma rangeSlice_insert_all (perms : list Permission) (permSet : gset Permission) :
  rangeSlice perms (λ p permSet, {[ p ]} ∪ permSet) permSet
  = list_to_set perms ∪ permSet.
Proof.
  revert permSet. induction perms as [|p perms IH]; intros permSet.
  - rewrite rangeSlice_nil. set_solver.
  - rewrite rangeSlice_cons, IH. set_solver.
Qed.

Lemma AddPermissions_nil subj s : AddPermissions subj [] s = s.
Proof. reflexivity. Qed.

Lemma AddPermissions_cons subj p perms s :
  AddPermissions subj (p :: perms) s
  = mkRBACSnapshot
      (<[ subj := list_to_set (p :: perms) ∪ permsOf s subj ]> (Subjects s)).
Proof.
  unfold AddPermissions, permsOf. cbn [lenIsZero].
  rewrite rangeSlice_insert_all. by destruct (Subjects s !! subj).
Qed.

Lemma permsOf_AddPermissions subj perms s :
  permsOf (AddPermissions subj perms s) subj = list_to_set perms ∪ permsOf s subj.
Proof.
  destruct perms as [|p perms].
  - rewrite AddPermissions_nil. set_solver.
  - rewrite AddPermissions_cons. unfold permsOf at 1. cbn [Subjects].
    by rewrite lookup_insert_eq.
Qed.

Lemma AddPermissions_nonEmptySets subj perms s :
  nonEmptySets s → nonEmptySets (AddPermissions subj perms s).
Proof.
  intros Hs. destruct perms as [|p perms]; [done|].
  rewrite AddPermissions_cons. intros subj' ps. cbn [Subjects].
  destruct (decide (subj = subj')) as [->|Hne].
  - rewrite lookup_insert_eq. intros [= <-]. set_solver.
  - rewrite lookup_insert_ne by done. apply Hs.
Qed.

Lemma Built_nonEmptySets s : BuiltByAddPermissions s → nonEmptySets s.
Proof.
  induction 1 as [|subj perms s _ IH].
  - intros subj ps. cbn [Subjects]. by rewrite lookup_empty.
  - by apply AddPermissions_nonEmptySets.
Qed.

(** C8. [AddPermissions] is an idempotent union: adding a list a second
    time, or adding a list that repeats itself, changes nothing; the
    subject's set afterwards holds exactly the old and the added
    permissions; and a permission set lists no permission twice. *)
Theorem C8_AddPermissions_idempotent_union
    (s : RBACSnapshot) (subj other : SubjectKey) (perms : list Permission)
    (p : Permission) :
  AddPermissions subj perms (AddPermissions subj perms s)
    = AddPermissions subj perms s
  ∧ AddPermissions subj (perms ++ perms) s = AddPermissions subj perms s
  ∧ (∀ q, q ∈ permsOf (AddPermissions subj perms s) subj
          ↔ q ∈ perms ∨ q ∈ permsOf s subj)
  ∧ NoDup (elements (permsOf (AddPermissions subj perms s) other))
  ∧ elements (permsOf (AddPermissions subj [p; p] (mkRBACSnapshot ∅)) subj) = [p].
Proof.
  split; [|split; [|split; [|split]]].
  - destruct perms as [|p0 perms]; [done|].
    rewrite (AddPermissions_cons subj p0 perms (AddPermissions _ _ _)).
    rewrite permsOf_AddPermissions. rewrite AddPermissions_cons. cbn [Subjects].
    rewrite insert_insert_eq. do 2 f_equal. set_solver.
  - destruct perms as [|p0 perms]; [done|].
    change ((p0 :: perms) ++ p0 :: perms) with (p0 :: (perms ++ p0 :: perms)).
    rewrite !AddPermissions_cons. do 2 f_equal. set_solver.
  - intros q. rewrite permsOf_AddPermissions. set_solver.
  - apply NoDup_elements.
  - rewrite permsOf_AddPermissions. unfold permsOf. cbn [Subjects].
    rewrite lookup_empty. cbn [default].
    replace (list_to_set [p; p] ∪ ∅ : gset Permission) with ({[ p ]} : gset Permission)
      by set_solver.
    apply elements_singleton.
Qed.

(** ** The snapshot builder *)

Lemma rangeSlice_Built {A : Type} (xs : list A) (body : A → RBACSnapshot → RBACSnapshot) :
  (∀ x s, BuiltByAddPermissions s → BuiltByAddPermissions (body x s)) →
  ∀ s, BuiltByAddPermissions s → BuiltByAddPermissions (rangeSlice xs body s).
Proof.
  intros Hbody. induction xs as [|x xs IH]; intros s Hs; [done|].
  rewrite rangeSlice_cons. by apply IH, Hbody.
Qed.

Lemma bindRules_Built rules ns cs subjects s :
  BuiltByAddPermissions s → BuiltByAddPermissions (bindRules rules ns cs subjects s).
Proof.
  intros Hs. unfold bindRules.
  destruct (lenIsZero rules); [done|].
  destruct (lenIsZero _); [done|].
  apply rangeSlice_Built; [|done].
  intros subj s' Hs'. by constructor.
Qed.

Lemma buildRBACSnapshot_Built roles clusterRoles roleBindings clusterRoleBindings :
  BuiltByAddPermissions
    (buildRBACSnapshot roles clusterRoles roleBindings clusterRoleBindings).
Proof.
  unfold buildRBACSnapshot.
  apply rangeSlice_Built.
  { intros crb s Hs. by apply bindRules_Built. }
  apply rangeSlice_Built; [|constructor].
  intros rb s Hs. unfold bindRoleBinding.
  repeat case_bool_decide; try done; by apply bindRules_Built.
Qed.

(** C10. Every snapshot built through [AddPermissions], and so every
    snapshot the builder returns, maps each of its subjects to a non-empty
    permission set: [AddPermissions] with an empty list changes nothing, and
    a binding whose rules or whose expanded permissions are empty leaves
    the snapshot as it is. *)
Theorem C10_built_snapshots_have_no_empty_sets :
  (∀ s, BuiltByAddPermissions s → nonEmptySets s)
  ∧ (∀ roles clusterRoles roleBindings clusterRoleBindings,
       BuiltByAddPermissions
         (buildRBACSnapshot roles clusterRoles roleBindings clusterRoleBindings)
       ∧ nonEmptySets
           (buildRBACSnapshot roles clusterRoles roleBindings clusterRoleBindings))
  ∧ (∀ subj s, AddPermissions subj [] s = s)
  ∧ (∀ ns cs subjects s, bindRules [] ns cs subjects s = s)
  ∧ (∀ rules ns cs subjects s,
       ExpandPolicyRulesToPermissions rules ns cs = [] →
       bindRules rules ns cs subjects s = s).
Proof.
  split; [apply Built_nonEmptySets|]. split; [|split; [|split]].
  - intros. split; [apply buildRBACSnapshot_Built|].
    apply Built_nonEmptySets, buildRBACSnapshot_Built.
  - done.
  - done.
  - intros rules ns cs subjects s Hnil. unfold bindRules. rewrite Hnil.
    by destruct (lenIsZero rules).
Qed.

(** A role without verbs, bound to a user: the builder does not create the
    subject. *)
Lemma C10_built_snapshots_witness :
  nonEmptySets
    (AddPermissions (mkSubjectKey "User" "alice" "")
       [mkPermission "*" "" "pods" "*" "get" ""] (mkRBACSnapshot ∅))
  ∧ bindRules [mkPolicyRule [] [] ["pods"] [] []] "dev" false
      [mkSubject "User" "alice" ""] (mkRBACSnapshot ∅) = mkRBACSnapshot ∅.
Proof.
  split.
  - apply (proj1 C10_built_snapshots_have_no_empty_sets).
    apply Built_add, Built_empty.
  - apply (proj2 (proj2 (proj2 (proj2 C10_built_snapshots_have_no_empty_sets)))).
    reflexivity.
Defined.

(** ** The RBAC differ *)

Lemma notIn_filter order other :
  notIn order other = filter (λ p, p ∉ other) order.
Proof. unfold notIn, rangeMap. by rewrite rangeSlice_reject. Qed.

Lemma diffSubject_Extra sch baseline live subj r :
  RBACDrift_Extra (diffSubject sch baseline live subj r)
  = match keptAt (liveOrder sch subj) (permsOf live subj) (permsOf baseline subj) with
    | Some extras => <[ subj := extras ]> (RBACDrift_Extra r)
    | None => RBACDrift_Extra r
    end.
Proof.
  unfold diffSubject, keptAt. by repeat case_bool_decide.
Qed.

Lemma diffSubject_Missing sch baseline live subj r :
  RBACDrift_Missing (diffSubject sch baseline live subj r)
  = match keptAt (baseOrder sch subj) (permsOf baseline subj) (permsOf live subj) with
    | Some missing => <[ subj := missing ]> (RBACDrift_Missing r)
    | None => RBACDrift_Missing r
    end.
Proof.
  unfold diffSubject, keptAt. by repeat case_bool_decide.
Qed.

(** The loop over the subjects writes, for each subject it visits, that
    subject's entry and no other. *)
Lemma rangeSubjects_Extra sch baseline live order r subj :
  RBACDrift_Extra (rangeMap order (diffSubject sch baseline live) r) !! subj
  = match keptAt (liveOrder sch subj) (permsOf live subj) (permsOf baseline subj) with
    | Some extras =>
        if decide (subj ∈ order) then Some extras else RBACDrift_Extra r !! subj
    | None => RBACDrift_Extra r !! subj
    end.
Proof.
  unfold rangeMap. revert r. induction order as [|x order IH]; intros r.
  - rewrite rangeSlice_nil. destruct (keptAt _ _ _); [|done].
    by rewrite decide_False by apply not_elem_of_nil.
  - rewrite rangeSlice_cons, IH, diffSubject_Extra.
    destruct (decide (x = subj)) as [->|Hne].
    + destruct (keptAt (liveOrder sch subj) _ _) as [extras|]; [|done].
      rewrite lookup_insert_eq.
      rewrite (decide_True (P := subj ∈ subj :: order)) by left.
      by destruct (decide (subj ∈ order)).
    + assert (RBACDrift_Extra r !! subj
              = match keptAt (liveOrder sch x) (permsOf live x) (permsOf baseline x) with
                | Some extras => <[ x := extras ]> (RBACDrift_Extra r)
                | None => RBACDrift_Extra r
                end !! subj) as <-.
      { destruct (keptAt (liveOrder sch x) _ _); [|done].
        by rewrite lookup_insert_ne. }
      destruct (keptAt (liveOrder sch subj) _ _); [|done].
      destruct (decide (subj ∈ order)) as [Hin|Hnin].
      * by rewrite decide_True by by right.
      * rewrite decide_False; [done|].
        intros [?|?]%elem_of_cons; congruence.
Qed.

Lemma rangeSubjects_Missing sch baseline live order r subj :
  RBACDrift_Missing (rangeMap order (diffSubject sch baseline live) r) !! subj
  = match keptAt (baseOrder sch subj) (permsOf baseline subj) (permsOf live subj) with
    | Some missing =>
        if decide (subj ∈ order) then Some missing else RBACDrift_Missing r !! subj
    | None => RBACDrift_Missing r !! subj
    end.
Proof.
  unfold rangeMap. revert r. induction order as [|x order IH]; intros r.
  - rewrite rangeSlice_nil. destruct (keptAt _ _ _); [|done].
    by rewrite decide_False by apply not_elem_of_nil.
  - rewrite rangeSlice_cons, IH, diffSubject_Missing.
    destruct (decide (x = subj)) as [->|Hne].
    + destruct (keptAt (baseOrder sch subj) _ _) as [missing|]; [|done].
      rewrite lookup_insert_eq.
      rewrite (decide_True (P := subj ∈ subj :: order)) by left.
      by destruct (decide (subj ∈ order)).
    + assert (RBACDrift_Missing r !! subj
              = match keptAt (baseOrder sch x) (permsOf baseline x) (permsOf live x) with
                | Some missing => <[ x := missing ]> (RBACDrift_Missing r)
                | None => RBACDrift_Missing r
                end !! subj) as <-.
      { destruct (keptAt (baseOrder sch x) _ _); [|done].
        by rewrite lookup_insert_ne. }
      destruct (keptAt (baseOrder sch subj) _ _); [|done].
      destruct (decide (subj ∈ order)) as [Hin|Hnin].
      * by rewrite decide_True by by right.
      * rewrite decide_False; [done|].
        intros [?|?]%elem_of_cons; congruence.
Qed.

Lemma keptAt_Some_nonempty order mine other kept :
  keptAt order mine other = Some kept → mine ≠ ∅ ∧ kept ≠ [].
Proof.
  unfold keptAt. repeat case_bool_decide; intros [= <-]. split.
  - intros ->. rewrite size_empty in *. lia.
  - intros Hnil. rewrite Hnil in *. simpl in *. lia.
Qed.

Lemma permsOf_nonempty_dom s subj : permsOf s subj ≠ ∅ → subj ∈ dom (Subjects s).
Proof.
  unfold permsOf. intros Hne. apply elem_of_dom.
  destruct (Subjects s !! subj); [done|]. by destruct Hne.
Qed.

Lemma DiffRBAC_Extra_lookup sch baseline live subj :
  RBACSchedule_ok sch baseline live →
  RBACDrift_Extra (DiffRBAC sch baseline live) !! subj
  = keptAt (liveOrder sch subj) (permsOf live subj) (permsOf baseline subj).
Proof.
  intros [Hsubj _]. unfold DiffRBAC. rewrite rangeSubjects_Extra. cbn [RBACDrift_Extra].
  rewrite lookup_empty.
  destruct (keptAt _ _ _) as [extras|] eqn:Hk; [|done].
  apply keptAt_Some_nonempty in Hk as [Hne _].
  rewrite decide_True; [done|].
  rewrite Hsubj. apply elem_of_elements. unfold allSubjects.
  apply elem_of_union_r. by apply permsOf_nonempty_dom.
Qed.

Lemma DiffRBAC_Missing_lookup sch baseline live subj :
  RBACSchedule_ok sch baseline live →
  RBACDrift_Missing (DiffRBAC sch baseline live) !! subj
  = keptAt (baseOrder sch subj) (permsOf baseline subj) (permsOf live subj).
Proof.
  intros [Hsubj _]. unfold DiffRBAC. rewrite rangeSubjects_Missing. cbn [RBACDrift_Missing].
  rewrite lookup_empty.
  destruct (keptAt _ _ _) as [missing|] eqn:Hk; [|done].
  apply keptAt_Some_nonempty in Hk as [Hne _].
  rewrite decide_True; [done|].
  rewrite Hsubj. apply elem_of_elements. unfold allSubjects.
  apply elem_of_union_l. by apply permsOf_nonempty_dom.
Qed.

(** What is kept is the set difference, listed without repetition, and it
    is kept exactly when the difference is not empty. *)
Lemma keptAt_difference order mine other :
  order ≡ₚ elements mine →
  match keptAt order mine other with
  | Some kept =>
      kept ≠ [] ∧ NoDup kept ∧ (list_to_set kept : gset Permission) = mine ∖ other
  | None => mine ∖ other = ∅
  end.
Proof.
  intros Horder.
  assert (Hset : (list_to_set (notIn order other) : gset Permission) = mine ∖ other).
  { apply set_eq. intros p. rewrite notIn_filter, elem_of_list_to_set.
    rewrite list_elem_of_filter, Horder, elem_of_elements. set_solver. }
  destruct (keptAt order mine other) as [kept|] eqn:Hk.
  - pose proof (keptAt_Some_nonempty _ _ _ _ Hk) as [_ Hne].
    unfold keptAt in Hk. repeat case_bool_decide; simplify_eq.
    split; [done|]. split; [|done].
    rewrite notIn_filter. apply NoDup_filter. rewrite Horder. apply NoDup_elements.
  - unfold keptAt in Hk. repeat case_bool_decide; simplify_eq.
    + rewrite <-Hset. destruct (notIn order other); [done|simpl in *; lia].
    + assert (mine = ∅) as ->; [|set_solver].
      apply leibniz_equiv, size_empty_iff. lia.
Qed.

(** Two runs keep the same permissions, possibly in another order. *)
Lemma keptAt_Permutation order1 order2 mine other :
  order1 ≡ₚ order2 →
  option_Forall2 (≡ₚ) (keptAt order1 mine other) (keptAt order2 mine other).
Proof.
  intros Horder.
  assert (Hperm : notIn order1 other ≡ₚ notIn order2 other).
  { rewrite !notIn_filter. by rewrite Horder. }
  unfold keptAt. case_bool_decide; [|constructor].
  cbn zeta. rewrite <-(Permutation_length Hperm).
  case_bool_decide; by constructor.
Qed.

Lemma RBACSchedule_forward_ok baseline live :
  RBACSchedule_ok (RBACSchedule_forward baseline live) baseline live.
Proof. by split. Qed.

Lemma RBACSchedule_backward_ok baseline live :
  RBACSchedule_ok (RBACSchedule_backward baseline live) baseline live.
Proof.
  split; [apply reverse_Permutation|].
  intros subj. split; apply reverse_Permutation.
Qed.

(** C1. Under every admissible schedule and for every subject, [Extra]
    holds for the subject exactly the permissions of live's set that
    baseline's set lacks, and [Missing] those of baseline's set that live's
    lacks, as a list without repetition; the subject is absent from a side
    exactly when that difference is empty, so no list is empty. *)
Theorem C1_DiffRBAC_set_differences
    (sch : RBACSchedule) (baseline live : RBACSnapshot) (subj : SubjectKey) :
  RBACSchedule_ok sch baseline live →
  let r := DiffRBAC sch baseline live in
  match RBACDrift_Extra r !! subj with
  | Some extras =>
      extras ≠ [] ∧ NoDup extras ∧
      (list_to_set extras : gset Permission)
        = permsOf live subj ∖ permsOf baseline subj
  | None => permsOf live subj ∖ permsOf baseline subj = ∅
  end
  ∧ match RBACDrift_Missing r !! subj with
    | Some missing =>
        missing ≠ [] ∧ NoDup missing ∧
        (list_to_set missing : gset Permission)
          = permsOf baseline subj ∖ permsOf live subj
    | None => permsOf baseline subj ∖ permsOf live subj = ∅
    end.
Proof.
  intros Hok r. unfold r.
  rewrite DiffRBAC_Extra_lookup, DiffRBAC_Missing_lookup by done.
  destruct Hok as [_ Hperms]. destruct (Hperms subj) as [Hlive Hbase].
  split; by apply keptAt_difference.
Qed.

(** Alice gains [list] and [watch]: both are reported as extra, nothing as
    missing. *)
Lemma C1_DiffRBAC_set_differences_witness :
  let r := DiffRBAC (RBACSchedule_forward snapshotGet snapshotGetListWatch)
             snapshotGet snapshotGetListWatch in
  match RBACDrift_Extra r !! alice with
  | Some extras =>
      extras ≠ [] ∧ NoDup extras ∧
      (list_to_set extras : gset Permission)
        = permsOf snapshotGetListWatch alice ∖ permsOf snapshotGet alice
  | None => permsOf snapshotGetListWatch alice ∖ permsOf snapshotGet alice = ∅
  end
  ∧ match RBACDrift_Missing r !! alice with
    | Some missing =>
        missing ≠ [] ∧ NoDup missing ∧
        (list_to_set missing : gset Permission)
          = permsOf snapshotGet alice ∖ permsOf snapshotGetListWatch alice
    | None => permsOf snapshotGet alice ∖ permsOf snapshotGetListWatch alice = ∅
    end.
Proof.
  apply (C1_DiffRBAC_set_differences
           (RBACSchedule_forward snapshotGet snapshotGetListWatch)
           snapshotGet snapshotGetListWatch alice).
  split; [reflexivity|]. intros subj. split; reflexivity.
Defined.

Lemma option_Permutation_to_set (o1 o2 : option (list Permission)) :
  option_Forall2 (≡ₚ) o1 o2 →
  (list_to_set <$> o1 : option (gset Permission)) = list_to_set <$> o2.
Proof.
  intros [l1 l2 Hperm|]; [|done]. simpl. f_equal.
  apply set_eq. intros p. by rewrite !elem_of_list_to_set, Hperm.
Qed.

Lemma DiffRBAC_swap_Permutation schAB schBA A B subj :
  RBACSchedule_ok schAB A B → RBACSchedule_ok schBA B A →
  option_Forall2 (≡ₚ)
    (RBACDrift_Extra (DiffRBAC schAB A B) !! subj)
    (RBACDrift_Missing (DiffRBAC schBA B A) !! subj)
  ∧ option_Forall2 (≡ₚ)
      (RBACDrift_Missing (DiffRBAC schAB A B) !! subj)
      (RBACDrift_Extra (DiffRBAC schBA B A) !! subj).
Proof.
  intros HAB HBA.
  rewrite !DiffRBAC_Extra_lookup, !DiffRBAC_Missing_lookup by done.
  destruct HAB as [_ HAB], HBA as [_ HBA].
  destruct (HAB subj) as [HABlive HABbase], (HBA subj) as [HBAlive HBAbase].
  split; apply keptAt_Permutation.
  - by rewrite HABlive, HBAbase.
  - by rewrite HABbase, HBAlive.
Qed.

(** C3. For all snapshots A and B, whatever the schedules of the two runs,
    [DiffRBAC(A,B).Extra] and [DiffRBAC(B,A).Missing] hold for every subject
    the same set of permissions (and the lists are rearrangements of each
    other), and likewise [DiffRBAC(A,B).Missing] and [DiffRBAC(B,A).Extra]. *)
Theorem C3_DiffRBAC_symmetry
    (schAB schBA : RBACSchedule) (A B : RBACSnapshot) (subj : SubjectKey) :
  RBACSchedule_ok schAB A B →
  RBACSchedule_ok schBA B A →
  let ab := DiffRBAC schAB A B in
  let ba := DiffRBAC schBA B A in
  (list_to_set <$> RBACDrift_Extra ab !! subj : option (gset Permission))
    = list_to_set <$> RBACDrift_Missing ba !! subj
  ∧ (list_to_set <$> RBACDrift_Missing ab !! subj : option (gset Permission))
    = list_to_set <$> RBACDrift_Extra ba !! subj
  ∧ option_Forall2 (≡ₚ) (RBACDrift_Extra ab !! subj) (RBACDrift_Missing ba !! subj)
  ∧ option_Forall2 (≡ₚ) (RBACDrift_Missing ab !! subj) (RBACDrift_Extra ba !! subj).
Proof.
  intros HAB HBA ab ba.
  destruct (DiffRBAC_swap_Permutation schAB schBA A B subj HAB HBA) as [H1 H2].
  split; [by apply option_Permutation_to_set|].
  split; [by apply option_Permutation_to_set|]. done.
Qed.

(** The run from [snapshotGet] to [snapshotGetListWatch] visiting forwards,
    the opposite run visiting backwards. *)
Lemma C3_DiffRBAC_symmetry_witness :
  let ab := DiffRBAC (RBACSchedule_forward snapshotGet snapshotGetListWatch)
              snapshotGet snapshotGetListWatch in
  let ba := DiffRBAC (RBACSchedule_backward snapshotGetListWatch snapshotGet)
              snapshotGetListWatch snapshotGet in
  (list_to_set <$> RBACDrift_Extra ab !! alice : option (gset Permission))
    = list_to_set <$> RBACDrift_Missing ba !! alice
  ∧ (list_to_set <$> RBACDrift_Missing ab !! alice : option (gset Permission))
    = list_to_set <$> RBACDrift_Extra ba !! alice
  ∧ option_Forall2 (≡ₚ) (RBACDrift_Extra ab !! alice) (RBACDrift_Missing ba !! alice)
  ∧ option_Forall2 (≡ₚ) (RBACDrift_Missing ab !! alice) (RBACDrift_Extra ba !! alice).
Proof.
  apply (C3_DiffRBAC_symmetry
           (RBACSchedule_forward snapshotGet snapshotGetListWatch)
           (RBACSchedule_backward snapshotGetListWatch snapshotGet)
           snapshotGet snapshotGetListWatch alice).
  - split; [reflexivity|]. intros subj. split; reflexivity.
  - split; [apply reverse_Permutation|].
    intros subj. split; apply reverse_Permutation.
Defined.

(** The two runs of the witness, computed: the same two permissions, in
    opposite orders. *)
Example DiffRBAC_forward_run :
  RBACDrift_Extra
    (DiffRBAC (RBACSchedule_forward snapshotGet snapshotGetListWatch)
       snapshotGet snapshotGetListWatch) !! alice
  = Some [watchPods; listPods].
Proof. vm_compute. reflexivity. Qed.

Example DiffRBAC_backward_run :
  RBACDrift_Extra
    (DiffRBAC (RBACSchedule_backward snapshotGet snapshotGetListWatch)
       snapshotGet snapshotGetListWatch) !! alice
  = Some [listPods; watchPods].
Proof. vm_compute. reflexivity. Qed.

(** ** Orders and sorting *)

Lemma strLess_false s1 s2 : strLess s2 s1 = false ↔ String.le s1 s2.
Proof.
  unfold strLess, String.le, String.ltb, String.leb.
  rewrite (String.compare_antisym s1 s2).
  destruct (String.compare s2 s1); simpl; naive_solver.
Qed.

Lemma nsNameLess_false ns1 name1 ns2 name2 :
  nsNameLess ns2 name2 ns1 name1 = false ↔ nsNameLe ns1 name1 ns2 name2.
Proof.
  unfold nsNameLess, nsNameLe. case_bool_decide as Heq.
  - subst. rewrite strLess_false. naive_solver.
  - rewrite strLess_false. naive_solver.
Qed.

Lemma nsNameLe_trans ns1 n1 ns2 n2 ns3 n3 :
  nsNameLe ns1 n1 ns2 n2 → nsNameLe ns2 n2 ns3 n3 → nsNameLe ns1 n1 ns3 n3.
Proof.
  unfold nsNameLe. intros [[-> H12]|[Hne12 H12]] [[-> H23]|[Hne23 H23]].
  - left. split; [done|]. by etrans.
  - by right.
  - by right.
  - right. split; [|by etrans].
    intros ->. apply Hne12. by apply (anti_symm String.le).
Qed.

Lemma nsNameLe_total ns1 n1 ns2 n2 :
  nsNameLe ns1 n1 ns2 n2 ∨ nsNameLe ns2 n2 ns1 n1.
Proof.
  unfold nsNameLe. destruct (decide (ns1 = ns2)) as [->|Hne].
  - destruct (total String.le n1 n2); [left|right]; by left.
  - destruct (total String.le ns1 ns2); [left|right]; right; split; congruence.
Qed.

Lemma nsNameLe_antisym ns1 n1 ns2 n2 :
  nsNameLe ns1 n1 ns2 n2 → nsNameLe ns2 n2 ns1 n1 → ns1 = ns2 ∧ n1 = n2.
Proof.
  unfold nsNameLe. intros [[-> H12]|[Hne12 H12]] [[? H21]|[Hne21 H21]].
  - split; [done|]. by apply (anti_symm String.le).
  - done.
  - congruence.
  - destruct Hne12. by apply (anti_symm String.le).
Qed.

Lemma entryLess_false a b : entryLess b a = false ↔ entryLe a b.
Proof. apply strLess_false. Qed.

Lemma refLess_false a b : refLess b a = false ↔ refLe a b.
Proof. apply nsNameLess_false. Qed.

Lemma changeLess_false a b : changeLess b a = false ↔ changeLe a b.
Proof. apply nsNameLess_false. Qed.

(** A comparison whose negation is a total preorder is a strict weak
    order. *)
Lemma StrictWeakOrder_of_le {A : Type} (less : A → A → bool) (le : relation A) :
  (∀ a b, less b a = false ↔ le a b) →
  (∀ a b, le a b ∨ le b a) →
  (∀ a b c, le a b → le b c → le a c) →
  StrictWeakOrder less.
Proof.
  intros Hle Htotal Htrans. split.
  - intros x y Hxy. apply Hle.
    destruct (Htotal x y) as [?|Hyx]; [done|].
    apply Hle in Hyx. congruence.
  - intros x y z Hyx Hzy. apply Hle. apply Hle in Hyx, Hzy. by eapply Htrans.
Qed.

Lemma entryLess_swo : StrictWeakOrder entryLess.
Proof.
  apply (StrictWeakOrder_of_le _ entryLe).
  - intros a b. apply entryLess_false.
  - intros a b. apply (total String.le).
  - intros a b c. unfold entryLe. by etrans.
Qed.

Lemma refLess_swo : StrictWeakOrder refLess.
Proof.
  apply (StrictWeakOrder_of_le _ refLe).
  - intros a b. apply refLess_false.
  - intros a b. apply nsNameLe_total.
  - intros a b c. apply nsNameLe_trans.
Qed.

Lemma changeLess_swo : StrictWeakOrder changeLess.
Proof.
  apply (StrictWeakOrder_of_le _ changeLe).
  - intros a b. apply changeLess_false.
  - intros a b. apply nsNameLe_total.
  - intros a b c. apply nsNameLe_trans.
Qed.

Lemma Sorted_weaken {A : Type} (R1 R2 : relation A) (l : list A) :
  (∀ a b, R1 a b → R2 a b) → Sorted R1 l → Sorted R2 l.
Proof.
  intros HR. induction 1 as [|x l _ IH Hhd]; constructor; [done|].
  destruct Hhd; constructor; auto.
Qed.

Section sorting.
Context `{sorter : SliceSorter}.
Context {A : Type} (less : A → A → bool) (le : relation A).
Context (Hle : ∀ a b, less b a = false ↔ le a b).
Context (Hswo : StrictWeakOrder less).

Lemma sortSlice_Sorted_le (l : list A) : Sorted le (sortSlice less l).
Proof using Hle Hswo.
  eapply Sorted_weaken; [|by apply sortSlice_sorted].
  intros a b. apply Hle.
Qed.

Lemma elem_of_sortSlice (l : list A) (x : A) : x ∈ sortSlice less l ↔ x ∈ l.
Proof. by rewrite sortSlice_perm. Qed.

(** Where elements that compare equal are equal, the sorted slice does
    not depend on the order the elements came in. *)
Lemma sortSlice_unique (l1 l2 : list A) :
  (∀ x y, x ∈ l1 → y ∈ l1 → le x y → le y x → x = y) →
  l1 ≡ₚ l2 →
  sortSlice less l1 = sortSlice less l2.
Proof using Hle Hswo.
  intros Heq Hperm.
  assert (Transitive le) as Htrans.
  { intros a b c Hab Hbc. apply Hle. apply Hle in Hab, Hbc.
    by apply (swo_negtrans less Hswo a b c). }
  apply (Sorted_unique_strong le).
  - intros x y Hx Hy. apply Heq.
    + by apply (elem_of_sortSlice l1 x).
    + rewrite Hperm. by apply (elem_of_sortSlice l2 y).
  - apply sortSlice_Sorted_le.
  - apply sortSlice_Sorted_le.
  - by rewrite !sortSlice_perm.
Qed.

End sorting.

(** ** The PSA differ with two buckets *)

(** A loop whose body only appends to two slices. *)
Lemma rangeSlice_emit2 {A B C : Type} (xs : list A)
    (body : A → list B * list C → list B * list C)
    (emits1 : A → list B) (emits2 : A → list C) :
  (∀ x out1 out2, body x (out1, out2) = (out1 ++ emits1 x, out2 ++ emits2 x)) →
  ∀ out1 out2, rangeSlice xs body (out1, out2)
               = (out1 ++ (xs ≫= emits1), out2 ++ (xs ≫= emits2)).
Proof.
  intros Hbody. induction xs as [|x xs IH]; intros out1 out2.
  - rewrite rangeSlice_nil. csimpl. by rewrite !app_nil_r.
  - rewrite rangeSlice_cons, Hbody, IH, !bind_cons.
    by rewrite <-!(assoc_L (++)).
Qed.

(** Two lists without repetition and with the same elements, one of them
    of at most one element, are equal. *)
Lemma short_list_eq {A : Type} (l1 l2 : list A) :
  NoDup l1 → NoDup l2 → length l2 ≤ 1 → (∀ x, x ∈ l1 ↔ x ∈ l2) → l1 = l2.
Proof.
  intros Hl1 Hl2 Hlen Hel.
  assert (Hperm : l1 ≡ₚ l2) by by apply NoDup_Permutation.
  destruct l2 as [|x [|y l2]]; simpl in Hlen; [| |lia].
  - by apply Permutation_nil_r.
  - by apply Permutation_singleton_r.
Qed.

Lemma psaEntry_length ns baseline live want :
  length (psaEntry ns baseline live want) ≤ 1.
Proof.
  unfold psaEntry. destruct (psaVerdict baseline live) as [[bucket dt]|]; simpl; [|lia].
  destruct (decide (bucket = want)); simpl; lia.
Qed.

Lemma psaEntry_NoDup ns baseline live want : NoDup (psaEntry ns baseline live want).
Proof.
  unfold psaEntry. destruct (psaVerdict baseline live) as [[bucket dt]|];
    [|constructor].
  destruct (decide (bucket = want)); [apply NoDup_singleton|constructor].
Qed.

Lemma psaEntry_namespace ns baseline live want e :
  e ∈ psaEntry ns baseline live want → PSADriftEntry_Namespace e = ns.
Proof.
  unfold psaEntry. destruct (psaVerdict baseline live) as [[bucket dt]|];
    [|by intros ?%elem_of_nil].
  destruct (decide (bucket = want)); [|by intros ?%elem_of_nil].
  by intros ->%list_elem_of_singleton.
Qed.

Lemma psaEntry_None_None ns want : psaEntry ns None None want = [].
Proof. reflexivity. Qed.

Lemma baselineDriven_emit lMap ns b extra missing :
  PSABucketed.baselineDriven lMap (ns, b) (extra, missing)
  = (extra ++ psaEntry ns (Some (Enforce b)) (levelAt lMap ns) InExtra,
     missing ++ psaEntry ns (Some (Enforce b)) (levelAt lMap ns) InMissing).
Proof.
  unfold PSABucketed.baselineDriven, levelAt, psaEntry, psaVerdict.
  destruct (lMap !! ns) as [l|]; simpl; [|by rewrite app_nil_r].
  unfold PSABucketed.classifyPSADirection.
  case_bool_decide as Hne.
  - rewrite decide_False by done.
    case_bool_decide as Hlt.
    { rewrite decide_True by done. simpl. by rewrite app_nil_r. }
    rewrite decide_False by done.
    case_bool_decide as Hgt.
    { rewrite decide_True by done. simpl. by rewrite app_nil_r. }
    rewrite decide_False by done. simpl. by rewrite app_nil_r.
  - rewrite decide_True by (by destruct (decide (Enforce b = Enforce l)); [|tauto]).
    by rewrite !app_nil_r.
Qed.

Lemma liveOnly_emit bMap ns l extra missing :
  PSABucketed.liveOnly bMap (ns, l) (extra, missing)
  = (extra ++ match bMap !! ns with
              | None => psaEntry ns None (Some (Enforce l)) InExtra
              | Some _ => []
              end,
     missing ++ []).
Proof.
  unfold PSABucketed.liveOnly. rewrite !app_nil_r.
  destruct (bMap !! ns); [by rewrite app_nil_r|done].
Qed.

Lemma collectPSA_eq sch bMap lMap :
  collectPSA sch bMap lMap =
  ((bOrder sch ≫= λ kv, psaEntry kv.1 (Some (Enforce kv.2)) (levelAt lMap kv.1) InExtra)
   ++ (lOrder sch ≫= λ kv,
         match bMap !! kv.1 with
         | None => psaEntry kv.1 None (Some (Enforce kv.2)) InExtra
         | Some _ => []
         end),
   (bOrder sch ≫= λ kv, psaEntry kv.1 (Some (Enforce kv.2)) (levelAt lMap kv.1) InMissing)
   ++ (lOrder sch ≫= λ _, [])).
Proof.
  unfold collectPSA, rangeMap.
  rewrite (rangeSlice_emit2 (bOrder sch) _
    (λ kv, psaEntry kv.1 (Some (Enforce kv.2)) (levelAt lMap kv.1) InExtra)
    (λ kv, psaEntry kv.1 (Some (Enforce kv.2)) (levelAt lMap kv.1) InMissing)).
  2:{ intros [ns b] out1 out2. apply baselineDriven_emit. }
  rewrite (rangeSlice_emit2 (lOrder sch) _
    (λ kv, match bMap !! kv.1 with
           | None => psaEntry kv.1 None (Some (Enforce kv.2)) InExtra
           | Some _ => []
           end)
    (λ _, [])).
  2:{ intros [ns l] out1 out2. apply liveOnly_emit. }
  done.
Qed.

(** Another visiting order collects the same entries in another order. *)
Lemma collectPSA_Permutation sch1 sch2 bMap lMap :
  bOrder sch1 ≡ₚ bOrder sch2 → lOrder sch1 ≡ₚ lOrder sch2 →
  (collectPSA sch1 bMap lMap).1 ≡ₚ (collectPSA sch2 bMap lMap).1 ∧
  (collectPSA sch1 bMap lMap).2 ≡ₚ (collectPSA sch2 bMap lMap).2.
Proof.
  intros Hb Hl. rewrite !collectPSA_eq. cbn [fst snd].
  by rewrite Hb, Hl.
Qed.

Lemma DiffPSA_eq `{sorter : SliceSorter} sch baseline live :
  PSABucketed.DiffPSA sch baseline live
  = PSABucketed.mkPSADrift
      (sortSlice entryLess (collectPSA sch (byNamespace baseline) (byNamespace live)).1)
      (sortSlice entryLess (collectPSA sch (byNamespace baseline) (byNamespace live)).2).
Proof. reflexivity. Qed.

Lemma NoDup_fst_functional {K V : Type} (kvs : list (K * V)) k v1 v2 :
  NoDup (kvs.*1) → (k, v1) ∈ kvs → (k, v2) ∈ kvs → v1 = v2.
Proof.
  induction kvs as [|[k' v'] kvs IH]; csimpl; intros Hnd H1 H2.
  - by apply elem_of_nil in H1.
  - apply NoDup_cons in Hnd as [Hnin Hnd].
    apply elem_of_cons in H1 as [H1|H1], H2 as [H2|H2]; simplify_eq; [done| | |by auto].
    + destruct Hnin. apply list_elem_of_fmap. by exists (k', v2).
    + destruct Hnin. apply list_elem_of_fmap. by exists (k', v1).
Qed.

Lemma NoDup_bind_keyed {V E : Type} (kvs : list (string * V))
    (f : string * V → list E) (key : E → string) :
  NoDup (kvs.*1) →
  (∀ kv e, e ∈ f kv → key e = kv.1) →
  (∀ kv, NoDup (f kv)) →
  NoDup (kvs ≫= f).
Proof.
  intros Hkeys Hkey Hf.
  apply NoDup_bind; [|by auto|by apply NoDup_fmap_1 in Hkeys].
  intros [k1 v1] [k2 v2] e Hin1 Hin2 He1 He2.
  apply Hkey in He1, He2. cbn [fst] in *. subst k1. subst k2.
  f_equal. by eapply NoDup_fst_functional.
Qed.

Section psa_bucketed.
Context `{sorter : SliceSorter}.
Context (sch : PSASchedule) (baseline live : list NamespacePSA).
Context (Hok : PSASchedule_ok sch baseline live).

Local Abbreviation bMap := (byNamespace baseline).
Local Abbreviation lMap := (byNamespace live).
Local Abbreviation collected := (collectPSA sch (byNamespace baseline) (byNamespace live)).

Lemma bOrder_elem ns b : (ns, b) ∈ bOrder sch ↔ bMap !! ns = Some b.
Proof using Hok. destruct Hok as [-> _]. apply elem_of_map_to_list. Qed.

Lemma lOrder_elem ns l : (ns, l) ∈ lOrder sch ↔ lMap !! ns = Some l.
Proof using Hok. destruct Hok as [_ ->]. apply elem_of_map_to_list. Qed.

Lemma elem_of_collected_Extra e :
  e ∈ collected.1 ↔
  e ∈ psaEntry (PSADriftEntry_Namespace e)
        (levelAt bMap (PSADriftEntry_Namespace e))
        (levelAt lMap (PSADriftEntry_Namespace e)) InExtra.
Proof using Hok.
  rewrite collectPSA_eq. cbn [fst]. rewrite elem_of_app, !list_elem_of_bind. split.
  - intros [([ns b] & He & Hin)|([ns l] & He & Hin)]; cbn [fst snd] in He.
    + apply bOrder_elem in Hin.
      rewrite (psaEntry_namespace _ _ _ _ _ He). unfold levelAt at 1.
      by rewrite Hin.
    + apply lOrder_elem in Hin.
      destruct (bMap !! ns) eqn:Hb; [by apply elem_of_nil in He|].
      rewrite (psaEntry_namespace _ _ _ _ _ He). unfold levelAt.
      by rewrite Hb, Hin.
  - set (ns := PSADriftEntry_Namespace e). unfold levelAt. intros He.
    destruct (bMap !! ns) as [b|] eqn:Hb.
    + left. exists (ns, b). split; [done|]. by apply bOrder_elem.
    + destruct (lMap !! ns) as [l|] eqn:Hl.
      * right. exists (ns, l). cbn [fst snd]. rewrite Hb.
        split; [done|]. by apply lOrder_elem.
      * by apply elem_of_nil in He.
Qed.

Lemma elem_of_collected_Missing e :
  e ∈ collected.2 ↔
  e ∈ psaEntry (PSADriftEntry_Namespace e)
        (levelAt bMap (PSADriftEntry_Namespace e))
        (levelAt lMap (PSADriftEntry_Namespace e)) InMissing.
Proof using Hok.
  rewrite collectPSA_eq. cbn [snd]. rewrite elem_of_app, !list_elem_of_bind. split.
  - intros [([ns b] & He & Hin)|([ns l] & He & Hin)]; cbn [fst snd] in He.
    + apply bOrder_elem in Hin.
      rewrite (psaEntry_namespace _ _ _ _ _ He). unfold levelAt at 1.
      by rewrite Hin.
    + by apply elem_of_nil in He.
  - set (ns := PSADriftEntry_Namespace e). unfold levelAt. intros He.
    destruct (bMap !! ns) as [b|] eqn:Hb.
    + left. exists (ns, b). split; [done|]. by apply bOrder_elem.
    + destruct (lMap !! ns) as [l|] eqn:Hl; by apply elem_of_nil in He.
Qed.

(** Entries of one bucket about the same namespace are the same entry. *)
Lemma collected_Extra_functional e1 e2 :
  e1 ∈ collected.1 → e2 ∈ collected.1 →
  PSADriftEntry_Namespace e1 = PSADriftEntry_Namespace e2 → e1 = e2.
Proof using Hok.
  intros H1%elem_of_collected_Extra H2%elem_of_collected_Extra Hns.
  rewrite Hns in H1.
  pose proof (psaEntry_length (PSADriftEntry_Namespace e2)
    (levelAt bMap (PSADriftEntry_Namespace e2))
    (levelAt lMap (PSADriftEntry_Namespace e2)) InExtra) as Hlen.
  destruct (psaEntry _ _ _ _) as [|x [|y l]]; simpl in Hlen; [|set_solver|lia].
  by apply elem_of_nil in H1.
Qed.

Lemma collected_Missing_functional e1 e2 :
  e1 ∈ collected.2 → e2 ∈ collected.2 →
  PSADriftEntry_Namespace e1 = PSADriftEntry_Namespace e2 → e1 = e2.
Proof using Hok.
  intros H1%elem_of_collected_Missing H2%elem_of_collected_Missing Hns.
  rewrite Hns in H1.
  pose proof (psaEntry_length (PSADriftEntry_Namespace e2)
    (levelAt bMap (PSADriftEntry_Namespace e2))
    (levelAt lMap (PSADriftEntry_Namespace e2)) InMissing) as Hlen.
  destruct (psaEntry _ _ _ _) as [|x [|y l]]; simpl in Hlen; [|set_solver|lia].
  by apply elem_of_nil in H1.
Qed.

Lemma bOrder_NoDup : NoDup ((bOrder sch).*1).
Proof using Hok. destruct Hok as [-> _]. apply NoDup_fst_map_to_list. Qed.

Lemma lOrder_NoDup : NoDup ((lOrder sch).*1).
Proof using Hok. destruct Hok as [_ ->]. apply NoDup_fst_map_to_list. Qed.

Lemma collected_Extra_NoDup : NoDup (collected.1).
Proof using Hok.
  rewrite collectPSA_eq. cbn [fst]. apply NoDup_app. split_and!.
  - apply (NoDup_bind_keyed _ _ PSADriftEntry_Namespace); [apply bOrder_NoDup| |].
    + intros kv e. apply psaEntry_namespace.
    + intros kv. apply psaEntry_NoDup.
  - intros e ([ns b] & He & Hin)%list_elem_of_bind
             ([ns' l] & He' & Hin')%list_elem_of_bind.
    cbn [fst snd] in *. apply bOrder_elem in Hin.
    destruct (bMap !! ns') eqn:Hb'; [by apply elem_of_nil in He'|].
    apply psaEntry_namespace in He, He'. congruence.
  - apply (NoDup_bind_keyed _ _ PSADriftEntry_Namespace); [apply lOrder_NoDup| |].
    + intros kv e. destruct (bMap !! kv.1); [by intros ?%elem_of_nil|].
      apply psaEntry_namespace.
    + intros kv. destruct (bMap !! kv.1); [constructor|apply psaEntry_NoDup].
Qed.

Lemma collected_Missing_NoDup : NoDup (collected.2).
Proof using Hok.
  rewrite collectPSA_eq. cbn [snd]. apply NoDup_app. split_and!.
  - apply (NoDup_bind_keyed _ _ PSADriftEntry_Namespace); [apply bOrder_NoDup| |].
    + intros kv e. apply psaEntry_namespace.
    + intros kv. apply psaEntry_NoDup.
  - intros e _ (kv & He & _)%list_elem_of_bind. by apply elem_of_nil in He.
  - apply (NoDup_bind_keyed _ _ PSADriftEntry_Namespace); [apply lOrder_NoDup| |].
    + intros kv e. by intros ?%elem_of_nil.
    + intros kv. constructor.
Qed.

(** Each bucket holds, about every namespace, exactly what the
    classification of that namespace puts there. *)
Lemma DiffPSA_Extra_at ns :
  entriesOf ns (PSABucketed.Extra (PSABucketed.DiffPSA sch baseline live))
  = psaEntry ns (levelAt bMap ns) (levelAt lMap ns) InExtra.
Proof using Hok.
  rewrite DiffPSA_eq. cbn [PSABucketed.Extra]. unfold entriesOf.
  apply short_list_eq.
  - apply NoDup_filter. rewrite sortSlice_perm. apply collected_Extra_NoDup.
  - apply psaEntry_NoDup.
  - apply psaEntry_length.
  - intros e. rewrite list_elem_of_filter, sortSlice_perm, elem_of_collected_Extra.
    split.
    + by intros [<- ?].
    + intros He. pose proof (psaEntry_namespace _ _ _ _ _ He) as Hns.
      by rewrite Hns.
Qed.

Lemma DiffPSA_Missing_at ns :
  entriesOf ns (PSABucketed.Missing (PSABucketed.DiffPSA sch baseline live))
  = psaEntry ns (levelAt bMap ns) (levelAt lMap ns) InMissing.
Proof using Hok.
  rewrite DiffPSA_eq. cbn [PSABucketed.Missing]. unfold entriesOf.
  apply short_list_eq.
  - apply NoDup_filter. rewrite sortSlice_perm. apply collected_Missing_NoDup.
  - apply psaEntry_NoDup.
  - apply psaEntry_length.
  - intros e. rewrite list_elem_of_filter, sortSlice_perm, elem_of_collected_Missing.
    split.
    + by intros [<- ?].
    + intros He. pose proof (psaEntry_namespace _ _ _ _ _ He) as Hns.
      by rewrite Hns.
Qed.

Lemma DiffPSA_sorted :
  Sorted entryLe (PSABucketed.Extra (PSABucketed.DiffPSA sch baseline live)) ∧
  Sorted entryLe (PSABucketed.Missing (PSABucketed.DiffPSA sch baseline live)).
Proof.
  rewrite DiffPSA_eq.
  split; apply (sortSlice_Sorted_le entryLess entryLe entryLess_false entryLess_swo).
Qed.

(** Every admissible schedule gives the result of the forward one. *)
Lemma DiffPSA_schedule_irrelevant :
  PSABucketed.DiffPSA sch baseline live
  = PSABucketed.DiffPSA (PSASchedule_forward baseline live) baseline live.
Proof using Hok.
  rewrite !DiffPSA_eq.
  destruct (collectPSA_Permutation sch (PSASchedule_forward baseline live) bMap lMap)
    as [Hextra Hmissing]; [apply Hok..|].
  f_equal.
  - apply (sortSlice_unique entryLess entryLe entryLess_false entryLess_swo);
      [|done].
    intros e1 e2 He1 He2 H12 H21. apply collected_Extra_functional; [done..|].
    by apply (anti_symm String.le).
  - apply (sortSlice_unique entryLess entryLe entryLess_false entryLess_swo);
      [|done].
    intros e1 e2 He1 He2 H12 H21. apply collected_Missing_functional; [done..|].
    by apply (anti_symm String.le).
Qed.

End psa_bucketed.

Lemma psaEntry_cases ns (b l : PSALevel) :
  (b ≠ l → (PSABucketed.psaRank l < PSABucketed.psaRank b)%Z →
     psaEntry ns (Some b) (Some l) InExtra = [mkPSADriftEntry ns b l "weaker"] ∧
     psaEntry ns (Some b) (Some l) InMissing = [])
  ∧ (b ≠ l → (PSABucketed.psaRank l > PSABucketed.psaRank b)%Z →
     psaEntry ns (Some b) (Some l) InExtra = [] ∧
     psaEntry ns (Some b) (Some l) InMissing = [mkPSADriftEntry ns b l "stronger"])
  ∧ (b ≠ l → PSABucketed.psaRank l = PSABucketed.psaRank b →
     psaEntry ns (Some b) (Some l) InExtra = [mkPSADriftEntry ns b l "different"] ∧
     psaEntry ns (Some b) (Some l) InMissing = [])
  ∧ (psaEntry ns (Some b) (Some b) InExtra = [] ∧
     psaEntry ns (Some b) (Some b) InMissing = [])
  ∧ (psaEntry ns (Some b) None InExtra = [] ∧
     psaEntry ns (Some b) None InMissing = [mkPSADriftEntry ns b "" "missing"])
  ∧ (psaEntry ns None (Some l) InExtra = [mkPSADriftEntry ns "" l "extra"] ∧
     psaEntry ns None (Some l) InMissing = []).
Proof.
  unfold psaEntry, psaVerdict. split_and!; try done.
  - intros Hne Hlt. rewrite decide_False by done. by rewrite decide_True by done.
  - intros Hne Hgt. rewrite decide_False by done.
    rewrite decide_False by lia. by rewrite decide_True by done.
  - intros Hne Heq. rewrite decide_False by done.
    rewrite decide_False by lia. by rewrite decide_False by lia.
  - by rewrite decide_True by done.
  - by rewrite decide_True by done.
Qed.

(** C4. The differ with two buckets, under every admissible schedule and
    every sorter: what each bucket holds about a namespace is a function
    of the two enforce levels and of presence.  Present in both with
    differing enforce values: live rank below baseline rank gives one
    "weaker" entry in Extra, live rank above gives one "stronger" entry in
    Missing, equal rank gives one "different" entry in Extra.  Only in
    baseline: one "missing" entry in Missing.  Only in live: one "extra"
    entry in Extra.  Equal enforce values: no entry.  Both lists are sorted
    by namespace.  (A namespace is present in a snapshot with the last
    element the slice has for it.) *)
Theorem C4_bucketed_PSA_classification `{sorter : SliceSorter}
    (sch : PSASchedule) (baseline live : list NamespacePSA) :
  PSASchedule_ok sch baseline live →
  let r := PSABucketed.DiffPSA sch baseline live in
  let bMap := byNamespace baseline in
  let lMap := byNamespace live in
  let extraOf ns := entriesOf ns (PSABucketed.Extra r) in
  let missingOf ns := entriesOf ns (PSABucketed.Missing r) in
  (∀ ns,
     extraOf ns = psaEntry ns (levelAt bMap ns) (levelAt lMap ns) InExtra ∧
     missingOf ns = psaEntry ns (levelAt bMap ns) (levelAt lMap ns) InMissing)
  ∧ (∀ ns b l,
       bMap !! ns = Some b → lMap !! ns = Some l → Enforce b ≠ Enforce l →
       ((PSABucketed.psaRank (Enforce l) < PSABucketed.psaRank (Enforce b))%Z →
          extraOf ns = [mkPSADriftEntry ns (Enforce b) (Enforce l) "weaker"] ∧
          missingOf ns = [])
       ∧ ((PSABucketed.psaRank (Enforce l) > PSABucketed.psaRank (Enforce b))%Z →
          extraOf ns = [] ∧
          missingOf ns = [mkPSADriftEntry ns (Enforce b) (Enforce l) "stronger"])
       ∧ (PSABucketed.psaRank (Enforce l) = PSABucketed.psaRank (Enforce b) →
          extraOf ns = [mkPSADriftEntry ns (Enforce b) (Enforce l) "different"] ∧
          missingOf ns = []))
  ∧ (∀ ns b,
       bMap !! ns = Some b → lMap !! ns = None →
       extraOf ns = [] ∧
       missingOf ns = [mkPSADriftEntry ns (Enforce b) "" "missing"])
  ∧ (∀ ns l,
       bMap !! ns = None → lMap !! ns = Some l →
       extraOf ns = [mkPSADriftEntry ns "" (Enforce l) "extra"] ∧
       missingOf ns = [])
  ∧ (∀ ns b l,
       bMap !! ns = Some b → lMap !! ns = Some l → Enforce b = Enforce l →
       extraOf ns = [] ∧ missingOf ns = [])
  ∧ Sorted entryLe (PSABucketed.Extra r)
  ∧ Sorted entryLe (PSABucketed.Missing r).
Proof.
  intros Hok r bMap lMap extraOf missingOf.
  assert (Hat : ∀ ns,
    extraOf ns = psaEntry ns (levelAt bMap ns) (levelAt lMap ns) InExtra ∧
    missingOf ns = psaEntry ns (levelAt bMap ns) (levelAt lMap ns) InMissing).
  { intros ns. split; [by apply DiffPSA_Extra_at|by apply DiffPSA_Missing_at]. }
  split; [exact Hat|].
  split_and!.
  - intros ns b l Hb Hl Hne. destruct (Hat ns) as [-> ->].
    unfold levelAt. rewrite Hb, Hl. cbn [fmap option_fmap option_map].
    destruct (psaEntry_cases ns (Enforce b) (Enforce l)) as (H1 & H2 & H3 & _).
    split_and!; auto.
  - intros ns b Hb Hl. destruct (Hat ns) as [-> ->].
    unfold levelAt. rewrite Hb, Hl. cbn [fmap option_fmap option_map].
    apply (psaEntry_cases ns (Enforce b) "").
  - intros ns l Hb Hl. destruct (Hat ns) as [-> ->].
    unfold levelAt. rewrite Hb, Hl. cbn [fmap option_fmap option_map].
    apply (psaEntry_cases ns "" (Enforce l)).
  - intros ns b l Hb Hl Heq. destruct (Hat ns) as [-> ->].
    unfold levelAt. rewrite Hb, Hl. cbn [fmap option_fmap option_map].
    rewrite Heq. apply (psaEntry_cases ns (Enforce l) (Enforce l)).
  - by apply DiffPSA_sorted.
  - by apply DiffPSA_sorted.
Qed.

(** The sample cluster, visited forwards and sorted by merge sort:
    namespace [c], present only in baseline, is reported missing. *)
Lemma C4_bucketed_PSA_classification_witness :
  let r := PSABucketed.DiffPSA (sorter := mergeSorter)
             (PSASchedule_forward psaBaseline psaLive) psaBaseline psaLive in
  entriesOf "c" (PSABucketed.Extra r) = [] ∧
  entriesOf "c" (PSABucketed.Missing r)
    = [mkPSADriftEntry "c" PSALevelRestricted "" "missing"].
Proof.
  pose proof (C4_bucketed_PSA_classification (sorter := mergeSorter)
                (PSASchedule_forward psaBaseline psaLive) psaBaseline psaLive)
    as Hthm.
  destruct Hthm as (_ & _ & Hmissing & _).
  - split; reflexivity.
  - apply (Hmissing "c" (mkNamespacePSA "c" PSALevelRestricted "" ""));
      vm_compute; reflexivity.
Defined.

(** The sample cluster, computed. *)
Example DiffPSA_sample_run :
  PSABucketed.DiffPSA (sorter := mergeSorter)
    (PSASchedule_forward psaBaseline psaLive) psaBaseline psaLive
  = PSABucketed.mkPSADrift
      [mkPSADriftEntry "a" "restricted" "baseline" "weaker";
       mkPSADriftEntry "d" "" "baseline" "extra";
       mkPSADriftEntry "f" "restricted" "" "weaker"]
      [mkPSADriftEntry "b" "baseline" "restricted" "stronger";
       mkPSADriftEntry "c" "restricted" "" "missing"].
Proof. vm_compute. reflexivity. Qed.

(** ** The rank of a level and the two classifiers *)

Lemma psaRank_known :
  PSABucketed.psaRank PSALevelPrivileged = 1%Z ∧
  PSABucketed.psaRank PSALevelBaseline = 2%Z ∧
  PSABucketed.psaRank PSALevelRestricted = 3%Z.
Proof. by split_and!. Qed.

Lemma psaRank_unknown level :
  PSABucketed.psaRank level = 0%Z ↔
  level ≠ PSALevelPrivileged ∧ level ≠ PSALevelBaseline ∧ level ≠ PSALevelRestricted.
Proof.
  unfold PSABucketed.psaRank. repeat case_bool_decide; subst; split; try done.
  - intros (? & ? & ?); done.
  - intros (? & ? & ?); done.
  - intros (? & ? & ?); done.
Qed.

Lemma psaRank_range level : (0 ≤ PSABucketed.psaRank level ≤ 3)%Z.
Proof. unfold PSABucketed.psaRank. repeat case_bool_decide; lia. Qed.

(** The map literal of the flat classifier holds the same ranks. *)
Lemma order_lookup level :
  default 0%Z (PSAFlat.order !! level) = PSABucketed.psaRank level.
Proof.
  unfold PSAFlat.order, PSABucketed.psaRank.
  rewrite !lookup_insert, lookup_empty.
  repeat case_bool_decide; repeat case_decide; simplify_eq; done.
Qed.

Lemma classifyPSADirection_unknown_live base live :
  PSABucketed.psaRank base ≠ 0%Z → PSABucketed.psaRank live = 0%Z →
  PSABucketed.classifyPSADirection base live = ("extra", "weaker").
Proof.
  intros Hb Hl. unfold PSABucketed.classifyPSADirection.
  pose proof (psaRank_range base). rewrite bool_decide_eq_true_2; [done|lia].
Qed.

Lemma classifyPSADrift_unknown base live :
  PSABucketed.psaRank base = 0%Z ∨ PSABucketed.psaRank live = 0%Z →
  PSAFlat.classifyPSADrift base live = "different".
Proof.
  intros H0. unfold PSAFlat.classifyPSADrift. rewrite !order_lookup.
  by rewrite bool_decide_eq_true_2.
Qed.

(** C5 (as the code has it).  The rank is total: privileged 1, baseline
    2, restricted 3, and 0 for every other level, the empty one included.
    In the differ with two buckets rank 0 is the least restrictive state:
    a namespace present in both snapshots whose baseline level is known
    and whose live level is empty or unknown gets one "weaker" entry, in
    Extra.  The classifier of the differ with a single list answers
    "different" whenever either level is empty or unknown. *)
Theorem C5_rank_zero_is_weakest_for_the_bucketed_differ `{sorter : SliceSorter}
    (sch : PSASchedule) (baseline live : list NamespacePSA)
    (ns : string) (b l : NamespacePSA) (level base liveLevel : PSALevel) :
  (PSABucketed.psaRank PSALevelPrivileged = 1%Z ∧
   PSABucketed.psaRank PSALevelBaseline = 2%Z ∧
   PSABucketed.psaRank PSALevelRestricted = 3%Z)
  ∧ (PSABucketed.psaRank level = 0%Z ↔
       level ≠ PSALevelPrivileged ∧ level ≠ PSALevelBaseline ∧
       level ≠ PSALevelRestricted)
  ∧ PSABucketed.psaRank "" = 0%Z
  ∧ (PSABucketed.psaRank base ≠ 0%Z → PSABucketed.psaRank liveLevel = 0%Z →
       PSABucketed.classifyPSADirection base liveLevel = ("extra", "weaker"))
  ∧ (PSASchedule_ok sch baseline live →
     byNamespace baseline !! ns = Some b → byNamespace live !! ns = Some l →
     PSABucketed.psaRank (Enforce b) ≠ 0%Z → PSABucketed.psaRank (Enforce l) = 0%Z →
     let r := PSABucketed.DiffPSA sch baseline live in
     entriesOf ns (PSABucketed.Extra r)
       = [mkPSADriftEntry ns (Enforce b) (Enforce l) "weaker"] ∧
     entriesOf ns (PSABucketed.Missing r) = [])
  ∧ (PSABucketed.psaRank base = 0%Z ∨ PSABucketed.psaRank liveLevel = 0%Z →
       PSAFlat.classifyPSADrift base liveLevel = "different").
Proof.
  split; [apply psaRank_known|]. split; [apply psaRank_unknown|].
  split; [done|]. split; [apply classifyPSADirection_unknown_live|].
  split; [|apply classifyPSADrift_unknown].
  intros Hok Hb Hl Hknown Hunknown r. unfold r.
  rewrite DiffPSA_Extra_at, DiffPSA_Missing_at by done.
  unfold levelAt. rewrite Hb, Hl. cbn [fmap option_fmap option_map].
  pose proof (psaRank_range (Enforce b)).
  apply psaEntry_cases; [|lia]. intros Heq. rewrite Heq in Hknown. done.
Qed.

(** Namespace [f] of the sample cluster: restricted in baseline, without a
    label in live. *)
Lemma C5_rank_zero_witness :
  let r := PSABucketed.DiffPSA (sorter := mergeSorter)
             (PSASchedule_forward psaBaseline psaLive) psaBaseline psaLive in
  (entriesOf "f" (PSABucketed.Extra r)
     = [mkPSADriftEntry "f" PSALevelRestricted "" "weaker"] ∧
   entriesOf "f" (PSABucketed.Missing r) = [])
  ∧ PSABucketed.classifyPSADirection PSALevelRestricted "" = ("extra", "weaker")
  ∧ PSAFlat.classifyPSADrift PSALevelRestricted "" = "different".
Proof.
  pose proof (C5_rank_zero_is_weakest_for_the_bucketed_differ (sorter := mergeSorter)
                (PSASchedule_forward psaBaseline psaLive) psaBaseline psaLive "f"
                (mkNamespacePSA "f" PSALevelRestricted "" "")
                (mkNamespacePSA "f" "" "" "") "" PSALevelRestricted "")
    as (_ & _ & _ & Hdir & Hdiffer & Hflat).
  split; [|split].
  - apply Hdiffer.
    + split; reflexivity.
    + vm_compute; reflexivity.
    + vm_compute; reflexivity.
    + intros Hrank; vm_compute in Hrank; discriminate Hrank.
    + reflexivity.
  - apply Hdir; [|reflexivity].
    intros Hrank; vm_compute in Hrank; discriminate Hrank.
  - apply Hflat. right. reflexivity.
Defined.

(** The classifier of the differ with a single list, at baseline
    [restricted] and an empty live level: "different", not "weaker"; and so
    the entry the differ reports. *)
Lemma C5_flat_classifier_counterexample :
  PSABucketed.psaRank PSALevelRestricted = 3%Z
  ∧ PSABucketed.psaRank "" = 0%Z
  ∧ PSAFlat.classifyPSADrift PSALevelRestricted "" = "different"
  ∧ PSAFlat.classifyPSADrift PSALevelRestricted "" ≠ "weaker"
  ∧ PSAFlat.DiffPSA (sorter := mergeSorter)
      (PSASchedule_forward [mkNamespacePSA "f" PSALevelRestricted "" ""]
                           [mkNamespacePSA "f" "" "" ""])
      [mkNamespacePSA "f" PSALevelRestricted "" ""]
      [mkNamespacePSA "f" "" "" ""]
    = PSAFlat.mkPSADrift [mkPSADriftEntry "f" PSALevelRestricted "" "different"].
Proof.
  split_and!; [reflexivity|reflexivity|reflexivity|discriminate|].
  vm_compute. reflexivity.
Qed.

(** ** The NetworkPolicy differ *)

Lemma classifyKey_emit baseline live key r :
  classifyKey baseline live key r
  = mkNetPolDrift
      (NetPolDrift_Missing r ++ missingOf (verdictAt baseline live key))
      (NetPolDrift_Extra r ++ extraOf (verdictAt baseline live key))
      (NetPolDrift_Changed r ++ changedOf (verdictAt baseline live key)).
Proof.
  unfold classifyKey, verdictAt, netpolVerdict.
  destruct (Items baseline !! key) as [b|], (Items live !! key) as [l|];
    cbn [missingOf extraOf changedOf]; rewrite ?app_nil_r; try done.
  - case_bool_decide as Hne.
    + rewrite decide_False by done. cbn [missingOf extraOf changedOf].
      by rewrite !app_nil_r.
    + rewrite decide_True by (by destruct (decide (SpecHash b = SpecHash l)); [|tauto]).
      cbn [missingOf extraOf changedOf]. rewrite !app_nil_r. by destruct r.
  - by destruct r.
Qed.

Lemma rangeKeys_collect baseline live order r :
  rangeMap order (classifyKey baseline live) r
  = mkNetPolDrift
      (NetPolDrift_Missing r ++ (order ≫= λ key, missingOf (verdictAt baseline live key)))
      (NetPolDrift_Extra r ++ (order ≫= λ key, extraOf (verdictAt baseline live key)))
      (NetPolDrift_Changed r ++ (order ≫= λ key, changedOf (verdictAt baseline live key))).
Proof.
  unfold rangeMap. revert r. induction order as [|key order IH]; intros r.
  - rewrite rangeSlice_nil. csimpl. rewrite !app_nil_r. by destruct r.
  - rewrite rangeSlice_cons, IH, classifyKey_emit, !bind_cons.
    cbn [NetPolDrift_Missing NetPolDrift_Extra NetPolDrift_Changed].
    by rewrite <-!(assoc_L (++)).
Qed.

Lemma DiffNetworkPolicies_eq `{sorter : SliceSorter} keyOrder baseline live :
  DiffNetworkPolicies keyOrder baseline live
  = mkNetPolDrift
      (sortSlice refLess (keyOrder ≫= λ key, missingOf (verdictAt baseline live key)))
      (sortSlice refLess (keyOrder ≫= λ key, extraOf (verdictAt baseline live key)))
      (sortSlice changeLess (keyOrder ≫= λ key, changedOf (verdictAt baseline live key))).
Proof. unfold DiffNetworkPolicies. by rewrite rangeKeys_collect. Qed.

Lemma verdict_one_bucket (v : option NetPolBucket) :
  length (missingOf v) + length (extraOf v) + length (changedOf v) ≤ 1.
Proof. destruct v as [[]|]; simpl; lia. Qed.

Lemma elem_of_missingOf baseline live key ref :
  ref ∈ missingOf (verdictAt baseline live key) ↔
  ∃ b, Items baseline !! key = Some b ∧ Items live !! key = None ∧ ref = refOf b.
Proof.
  unfold verdictAt, netpolVerdict.
  destruct (Items baseline !! key) as [b|], (Items live !! key) as [l|];
    try destruct (decide _); cbn [missingOf];
    rewrite ?list_elem_of_singleton, ?elem_of_nil; naive_solver.
Qed.

Lemma elem_of_extraOf baseline live key ref :
  ref ∈ extraOf (verdictAt baseline live key) ↔
  ∃ l, Items baseline !! key = None ∧ Items live !! key = Some l ∧ ref = refOf l.
Proof.
  unfold verdictAt, netpolVerdict.
  destruct (Items baseline !! key) as [b|], (Items live !! key) as [l|];
    try destruct (decide _); cbn [extraOf];
    rewrite ?list_elem_of_singleton, ?elem_of_nil; naive_solver.
Qed.

Lemma elem_of_changedOf baseline live key change :
  change ∈ changedOf (verdictAt baseline live key) ↔
  ∃ b l, Items baseline !! key = Some b ∧ Items live !! key = Some l ∧
         SpecHash b ≠ SpecHash l ∧
         change = mkNetPolChange (NetPolDigest_Namespace b) (NetPolDigest_Name b) b l.
Proof.
  unfold verdictAt, netpolVerdict.
  destruct (Items baseline !! key) as [b|], (Items live !! key) as [l|];
    try destruct (decide _); cbn [changedOf];
    rewrite ?list_elem_of_singleton, ?elem_of_nil; naive_solver.
Qed.

Lemma refLe_antisym a b : refLe a b → refLe b a → a = b.
Proof.
  intros Hab Hba. destruct (nsNameLe_antisym _ _ _ _ Hab Hba) as [Hns Hname].
  destruct a, b; simpl in *; by subst.
Qed.

Section netpol.
Context `{sorter : SliceSorter}.
Context (keyOrder : list string) (baseline live : NetPolSnapshot).
Context (Hok : keyOrder_ok keyOrder baseline live).

Local Abbreviation keys := (elements (netpolKeys baseline live)).
Local Abbreviation result := (DiffNetworkPolicies keyOrder baseline live).

Lemma DiffNetworkPolicies_Permutation :
  NetPolDrift_Missing result ≡ₚ (keys ≫= λ key, missingOf (verdictAt baseline live key)) ∧
  NetPolDrift_Extra result ≡ₚ (keys ≫= λ key, extraOf (verdictAt baseline live key)) ∧
  NetPolDrift_Changed result ≡ₚ (keys ≫= λ key, changedOf (verdictAt baseline live key)).
Proof using Hok.
  rewrite DiffNetworkPolicies_eq.
  cbn [NetPolDrift_Missing NetPolDrift_Extra NetPolDrift_Changed].
  rewrite !sortSlice_perm.
  pose proof Hok as Hperm. unfold keyOrder_ok in Hperm. by rewrite Hperm.
Qed.

Lemma DiffNetworkPolicies_sorted :
  Sorted refLe (NetPolDrift_Missing result) ∧
  Sorted refLe (NetPolDrift_Extra result) ∧
  Sorted changeLe (NetPolDrift_Changed result).
Proof.
  rewrite DiffNetworkPolicies_eq. split_and!.
  - apply (sortSlice_Sorted_le refLess refLe refLess_false refLess_swo).
  - apply (sortSlice_Sorted_le refLess refLe refLess_false refLess_swo).
  - apply (sortSlice_Sorted_le changeLess changeLe changeLess_false changeLess_swo).
Qed.

(** Membership in the three lists, by the key an element came from. *)
Lemma elem_of_Missing ref :
  ref ∈ NetPolDrift_Missing result ↔
  ∃ key b, Items baseline !! key = Some b ∧ Items live !! key = None ∧ ref = refOf b.
Proof using Hok.
  destruct DiffNetworkPolicies_Permutation as (-> & _ & _).
  rewrite list_elem_of_bind. split.
  - intros (key & Href & _). apply elem_of_missingOf in Href. naive_solver.
  - intros (key & b & Hb & Hl & ->). exists key. split.
    + apply elem_of_missingOf. eauto.
    + apply elem_of_elements. unfold netpolKeys.
      apply elem_of_union_l, elem_of_dom. eauto.
Qed.

Lemma elem_of_Extra ref :
  ref ∈ NetPolDrift_Extra result ↔
  ∃ key l, Items baseline !! key = None ∧ Items live !! key = Some l ∧ ref = refOf l.
Proof using Hok.
  destruct DiffNetworkPolicies_Permutation as (_ & -> & _).
  rewrite list_elem_of_bind. split.
  - intros (key & Href & _). apply elem_of_extraOf in Href. naive_solver.
  - intros (key & l & Hb & Hl & ->). exists key. split.
    + apply elem_of_extraOf. eauto.
    + apply elem_of_elements. unfold netpolKeys.
      apply elem_of_union_r, elem_of_dom. eauto.
Qed.

Lemma elem_of_Changed change :
  change ∈ NetPolDrift_Changed result ↔
  ∃ key b l, Items baseline !! key = Some b ∧ Items live !! key = Some l ∧
             SpecHash b ≠ SpecHash l ∧
             change = mkNetPolChange (NetPolDigest_Namespace b) (NetPolDigest_Name b) b l.
Proof using Hok.
  destruct DiffNetworkPolicies_Permutation as (_ & _ & ->).
  rewrite list_elem_of_bind. split.
  - intros (key & Hch & _). apply elem_of_changedOf in Hch. naive_solver.
  - intros (key & b & l & Hb & Hl & Hne & ->). exists key. split.
    + apply elem_of_changedOf. eauto 10.
    + apply elem_of_elements. unfold netpolKeys.
      apply elem_of_union_l, elem_of_dom. eauto.
Qed.

(** Every admissible key order gives the [Missing] and [Extra] lists of
    the forward one, and on a baseline keyed by namespace and name the
    [Changed] list too. *)
Lemma DiffNetworkPolicies_refs_order_irrelevant :
  NetPolDrift_Missing result
    = NetPolDrift_Missing (DiffNetworkPolicies keys baseline live) ∧
  NetPolDrift_Extra result
    = NetPolDrift_Extra (DiffNetworkPolicies keys baseline live).
Proof using Hok.
  rewrite !DiffNetworkPolicies_eq. cbn [NetPolDrift_Missing NetPolDrift_Extra].
  pose proof Hok as Hperm. unfold keyOrder_ok in Hperm.
  split; apply (sortSlice_unique refLess refLe refLess_false refLess_swo);
    try (by rewrite Hperm); intros x y _ _; apply refLe_antisym.
Qed.

Lemma DiffNetworkPolicies_changed_order_irrelevant :
  keyedByNamespaceName baseline →
  NetPolDrift_Changed result
    = NetPolDrift_Changed (DiffNetworkPolicies keys baseline live).
Proof using Hok.
  intros Hkeyed. rewrite !DiffNetworkPolicies_eq. cbn [NetPolDrift_Changed].
  pose proof Hok as Hperm. unfold keyOrder_ok in Hperm.
  apply (sortSlice_unique changeLess changeLe changeLess_false changeLess_swo);
    [|by rewrite Hperm].
  intros c1 c2 (key1 & Hc1 & _)%list_elem_of_bind (key2 & Hc2 & _)%list_elem_of_bind
    H12 H21.
  apply elem_of_changedOf in Hc1 as (b1 & l1 & Hb1 & Hl1 & _ & ->).
  apply elem_of_changedOf in Hc2 as (b2 & l2 & Hb2 & Hl2 & _ & ->).
  destruct (nsNameLe_antisym _ _ _ _ H12 H21) as [Hns Hname]. simpl in Hns, Hname.
  assert (key1 = key2) as ->.
  { rewrite (Hkeyed _ _ Hb1), (Hkeyed _ _ Hb2). by rewrite Hns, Hname. }
  by simplify_eq.
Qed.

End netpol.

Lemma buckets_length baseline live (keys : list string) :
  length (keys ≫= λ key, missingOf (verdictAt baseline live key))
  + length (keys ≫= λ key, extraOf (verdictAt baseline live key))
  + length (keys ≫= λ key, changedOf (verdictAt baseline live key))
  ≤ length keys.
Proof.
  induction keys as [|key keys IH]; [done|].
  rewrite !bind_cons, !length_app.
  pose proof (verdict_one_bucket (verdictAt baseline live key)). simpl. lia.
Qed.

(** C6. Under every admissible key order and every sorter, each key of
    the union is classified into at most one bucket: Missing holds (the
    namespace and name of) exactly the keys that are in baseline only,
    Extra the keys in live only, Changed the keys in both with differing
    [specHash], with both digests; a key in both with equal [specHash]
    contributes nothing; and the three lists are sorted by (namespace,
    name). *)
Theorem C6_DiffNetworkPolicies_buckets `{sorter : SliceSorter}
    (keyOrder : list string) (baseline live : NetPolSnapshot) :
  keyOrder_ok keyOrder baseline live →
  let r := DiffNetworkPolicies keyOrder baseline live in
  let keys := elements (netpolKeys baseline live) in
  let verdict := verdictAt baseline live in
  (∀ key,
     verdict key =
       match Items baseline !! key, Items live !! key with
       | Some b, None => Some (BucketMissing (refOf b))
       | None, Some l => Some (BucketExtra (refOf l))
       | Some b, Some l =>
           if decide (SpecHash b = SpecHash l) then None
           else Some (BucketChanged
                        (mkNetPolChange (NetPolDigest_Namespace b)
                           (NetPolDigest_Name b) b l))
       | None, None => None
       end)
  ∧ NetPolDrift_Missing r ≡ₚ (keys ≫= λ key, missingOf (verdict key))
  ∧ NetPolDrift_Extra r ≡ₚ (keys ≫= λ key, extraOf (verdict key))
  ∧ NetPolDrift_Changed r ≡ₚ (keys ≫= λ key, changedOf (verdict key))
  ∧ (∀ key, length (missingOf (verdict key)) + length (extraOf (verdict key))
            + length (changedOf (verdict key)) ≤ 1)
  ∧ length (NetPolDrift_Missing r) + length (NetPolDrift_Extra r)
    + length (NetPolDrift_Changed r) ≤ length keys
  ∧ (∀ ref, ref ∈ NetPolDrift_Missing r ↔
       ∃ key b, Items baseline !! key = Some b ∧ Items live !! key = None ∧
                ref = refOf b)
  ∧ (∀ ref, ref ∈ NetPolDrift_Extra r ↔
       ∃ key l, Items baseline !! key = None ∧ Items live !! key = Some l ∧
                ref = refOf l)
  ∧ (∀ change, change ∈ NetPolDrift_Changed r ↔
       ∃ key b l, Items baseline !! key = Some b ∧ Items live !! key = Some l ∧
                  SpecHash b ≠ SpecHash l ∧
                  change = mkNetPolChange (NetPolDigest_Namespace b)
                             (NetPolDigest_Name b) b l)
  ∧ Sorted refLe (NetPolDrift_Missing r)
  ∧ Sorted refLe (NetPolDrift_Extra r)
  ∧ Sorted changeLe (NetPolDrift_Changed r).
Proof.
  intros Hok r keys verdict.
  destruct (DiffNetworkPolicies_Permutation keyOrder baseline live Hok)
    as (HM & HE & HC).
  destruct (DiffNetworkPolicies_sorted keyOrder baseline live) as (SM & SE & SC).
  split_and!; try done.
  - intros key. apply verdict_one_bucket.
  - unfold r. rewrite HM, HE, HC. apply buckets_length.
  - intros ref. by apply elem_of_Missing.
  - intros ref. by apply elem_of_Extra.
  - intros change. by apply elem_of_Changed.
Qed.

(** The sample snapshots, their keys visited in the order of the set and
    sorted by merge sort. *)
Lemma C6_DiffNetworkPolicies_buckets_witness :
  let r := DiffNetworkPolicies (sorter := mergeSorter)
             (elements (netpolKeys netpolBaseline netpolLive))
             netpolBaseline netpolLive in
  Sorted refLe (NetPolDrift_Missing r)
  ∧ Sorted refLe (NetPolDrift_Extra r)
  ∧ Sorted changeLe (NetPolDrift_Changed r).
Proof.
  pose proof (C6_DiffNetworkPolicies_buckets (sorter := mergeSorter)
                (elements (netpolKeys netpolBaseline netpolLive))
                netpolBaseline netpolLive) as Hthm.
  destruct Hthm as (_ & _ & _ & _ & _ & _ & _ & _ & _ & HM & HE & HC).
  - unfold keyOrder_ok. reflexivity.
  - by split_and!.
Defined.

(** The sample snapshots, computed. *)
Example DiffNetworkPolicies_sample_run :
  DiffNetworkPolicies (sorter := mergeSorter)
    (elements (netpolKeys netpolBaseline netpolLive)) netpolBaseline netpolLive
  = mkNetPolDrift
      [mkNetPolRef "ns1" "allow-dns"]
      [mkNetPolRef "ns0" "metrics"]
      [mkNetPolChange "ns1" "deny-all" denyAll denyAllEdited].
Proof. vm_compute. reflexivity. Qed.

(** ** Determinism *)

Lemma PSASchedule_forward_ok baseline live :
  PSASchedule_ok (PSASchedule_forward baseline live) baseline live.
Proof. by split. Qed.

Lemma PSASchedule_backward_ok baseline live :
  PSASchedule_ok (PSASchedule_backward baseline live) baseline live.
Proof. split; apply reverse_Permutation. Qed.

Lemma DiffPSA_deterministic `{sorter : SliceSorter} sch1 sch2 baseline live :
  PSASchedule_ok sch1 baseline live → PSASchedule_ok sch2 baseline live →
  PSABucketed.DiffPSA sch1 baseline live = PSABucketed.DiffPSA sch2 baseline live.
Proof.
  intros H1 H2.
  rewrite (DiffPSA_schedule_irrelevant sch1 baseline live H1).
  by rewrite (DiffPSA_schedule_irrelevant sch2 baseline live H2).
Qed.

Lemma DiffNetworkPolicies_deterministic `{sorter : SliceSorter} k1 k2 baseline live :
  keyOrder_ok k1 baseline live → keyOrder_ok k2 baseline live →
  NetPolDrift_Missing (DiffNetworkPolicies k1 baseline live)
    = NetPolDrift_Missing (DiffNetworkPolicies k2 baseline live)
  ∧ NetPolDrift_Extra (DiffNetworkPolicies k1 baseline live)
    = NetPolDrift_Extra (DiffNetworkPolicies k2 baseline live)
  ∧ (keyedByNamespaceName baseline →
     DiffNetworkPolicies k1 baseline live = DiffNetworkPolicies k2 baseline live).
Proof.
  intros H1 H2.
  destruct (DiffNetworkPolicies_refs_order_irrelevant k1 baseline live H1) as [M1 E1].
  destruct (DiffNetworkPolicies_refs_order_irrelevant k2 baseline live H2) as [M2 E2].
  split; [congruence|]. split; [congruence|].
  intros Hkeyed.
  pose proof (DiffNetworkPolicies_changed_order_irrelevant k1 baseline live H1 Hkeyed) as C1.
  pose proof (DiffNetworkPolicies_changed_order_irrelevant k2 baseline live H2 Hkeyed) as C2.
  destruct (DiffNetworkPolicies k1 baseline live), (DiffNetworkPolicies k2 baseline live).
  simpl in *. congruence.
Qed.

Lemma DiffRBAC_deterministic_up_to_order sch1 sch2 baseline live subj :
  RBACSchedule_ok sch1 baseline live → RBACSchedule_ok sch2 baseline live →
  option_Forall2 (≡ₚ)
    (RBACDrift_Extra (DiffRBAC sch1 baseline live) !! subj)
    (RBACDrift_Extra (DiffRBAC sch2 baseline live) !! subj)
  ∧ option_Forall2 (≡ₚ)
      (RBACDrift_Missing (DiffRBAC sch1 baseline live) !! subj)
      (RBACDrift_Missing (DiffRBAC sch2 baseline live) !! subj).
Proof.
  intros H1 H2.
  rewrite !DiffRBAC_Extra_lookup, !DiffRBAC_Missing_lookup by done.
  destruct H1 as [_ H1], H2 as [_ H2].
  destruct (H1 subj) as [L1 B1], (H2 subj) as [L2 B2].
  split; apply keptAt_Permutation.
  - by rewrite L1, L2.
  - by rewrite B1, B2.
Qed.

(** C9 (as the code has it).  Two runs on the same two snapshot values,
    whatever orders the runtime ranges over the maps in: the PSA differ
    returns identical results; the NetworkPolicy differ returns identical
    Missing and Extra lists, and an identical result altogether when the
    baseline snapshot is keyed by namespace and name; the RBAC differ
    returns the same subjects on each side and for each subject the same
    permissions, in an order that may differ between the runs. *)
Theorem C9_differs_deterministic_up_to_RBAC_list_order `{sorter : SliceSorter} :
  (∀ sch1 sch2 baseline live,
     PSASchedule_ok sch1 baseline live → PSASchedule_ok sch2 baseline live →
     PSABucketed.DiffPSA sch1 baseline live = PSABucketed.DiffPSA sch2 baseline live)
  ∧ (∀ k1 k2 baseline live,
       keyOrder_ok k1 baseline live → keyOrder_ok k2 baseline live →
       NetPolDrift_Missing (DiffNetworkPolicies k1 baseline live)
         = NetPolDrift_Missing (DiffNetworkPolicies k2 baseline live)
       ∧ NetPolDrift_Extra (DiffNetworkPolicies k1 baseline live)
         = NetPolDrift_Extra (DiffNetworkPolicies k2 baseline live)
       ∧ (keyedByNamespaceName baseline →
          DiffNetworkPolicies k1 baseline live = DiffNetworkPolicies k2 baseline live))
  ∧ (∀ sch1 sch2 baseline live subj,
       RBACSchedule_ok sch1 baseline live → RBACSchedule_ok sch2 baseline live →
       option_Forall2 (≡ₚ)
         (RBACDrift_Extra (DiffRBAC sch1 baseline live) !! subj)
         (RBACDrift_Extra (DiffRBAC sch2 baseline live) !! subj)
       ∧ option_Forall2 (≡ₚ)
           (RBACDrift_Missing (DiffRBAC sch1 baseline live) !! subj)
           (RBACDrift_Missing (DiffRBAC sch2 baseline live) !! subj)).
Proof.
  split_and!.
  - intros. by apply DiffPSA_deterministic.
  - intros. by apply DiffNetworkPolicies_deterministic.
  - intros. by apply DiffRBAC_deterministic_up_to_order.
Qed.

(** The sample cluster and the sample snapshots, each visited forwards in
    one run and backwards in the other. *)
Lemma C9_differs_deterministic_witness :
  PSABucketed.DiffPSA (sorter := mergeSorter)
    (PSASchedule_forward psaBaseline psaLive) psaBaseline psaLive
  = PSABucketed.DiffPSA (sorter := mergeSorter)
      (PSASchedule_backward psaBaseline psaLive) psaBaseline psaLive
  ∧ NetPolDrift_Missing
      (DiffNetworkPolicies (sorter := mergeSorter)
         (elements (netpolKeys netpolBaseline netpolLive)) netpolBaseline netpolLive)
    = NetPolDrift_Missing
        (DiffNetworkPolicies (sorter := mergeSorter)
           (reverse (elements (netpolKeys netpolBaseline netpolLive)))
           netpolBaseline netpolLive)
  ∧ option_Forall2 (≡ₚ)
      (RBACDrift_Extra
         (DiffRBAC (RBACSchedule_forward snapshotGet snapshotGetListWatch)
            snapshotGet snapshotGetListWatch) !! alice)
      (RBACDrift_Extra
         (DiffRBAC (RBACSchedule_backward snapshotGet snapshotGetListWatch)
            snapshotGet snapshotGetListWatch) !! alice).
Proof.
  destruct (C9_differs_deterministic_up_to_RBAC_list_order (sorter := mergeSorter))
    as (Hpsa & Hnetpol & Hrbac).
  split_and!.
  - apply Hpsa; [split; reflexivity|split; apply reverse_Permutation].
  - apply Hnetpol; unfold keyOrder_ok; [reflexivity|apply reverse_Permutation].
  - apply Hrbac.
    + split; [reflexivity|]. intros subj. split; reflexivity.
    + split; [apply reverse_Permutation|].
      intros subj. split; apply reverse_Permutation.
Defined.

(** Two runs of [DiffRBAC] on the same two snapshots, one visiting
    forwards and one backwards: both schedules are admissible, and the
    results differ, in the order of Alice's extra permissions. *)
Lemma C9_DiffRBAC_list_order_counterexample :
  RBACSchedule_ok (RBACSchedule_forward snapshotGet snapshotGetListWatch)
    snapshotGet snapshotGetListWatch
  ∧ RBACSchedule_ok (RBACSchedule_backward snapshotGet snapshotGetListWatch)
      snapshotGet snapshotGetListWatch
  ∧ RBACDrift_Extra
      (DiffRBAC (RBACSchedule_forward snapshotGet snapshotGetListWatch)
         snapshotGet snapshotGetListWatch) !! alice
    = Some [watchPods; listPods]
  ∧ RBACDrift_Extra
      (DiffRBAC (RBACSchedule_backward snapshotGet snapshotGetListWatch)
         snapshotGet snapshotGetListWatch) !! alice
    = Some [listPods; watchPods]
  ∧ DiffRBAC (RBACSchedule_forward snapshotGet snapshotGetListWatch)
      snapshotGet snapshotGetListWatch
    ≠ DiffRBAC (RBACSchedule_backward snapshotGet snapshotGetListWatch)
        snapshotGet snapshotGetListWatch.
Proof.
  split_and!.
  - apply RBACSchedule_forward_ok.
  - apply RBACSchedule_backward_ok.
  - vm_compute. reflexivity.
  - vm_compute. reflexivity.
  - intros Heq.
    apply (f_equal (λ r, RBACDrift_Extra r !! alice)) in Heq.
    vm_compute in Heq. discriminate Heq.
Qed.

(** Why the baseline has to be keyed by namespace and name for the
    Changed list: with two keys holding the same namespace and name, two
    admissible key orders give two results. *)
Example DiffNetworkPolicies_unkeyed_order_matters :
  keyOrder_ok ["k1"; "k2"] unkeyedBaseline unkeyedLive
  ∧ keyOrder_ok ["k2"; "k1"] unkeyedBaseline unkeyedLive
  ∧ DiffNetworkPolicies (sorter := mergeSorter) ["k1"; "k2"] unkeyedBaseline unkeyedLive
    ≠ DiffNetworkPolicies (sorter := mergeSorter) ["k2"; "k1"] unkeyedBaseline unkeyedLive.
Proof.
  split_and!.
  - unfold keyOrder_ok. apply NoDup_Permutation; [by vm_compute; repeat constructor; set_solver|apply NoDup_elements|].
    intros k. rewrite elem_of_elements. unfold netpolKeys, unkeyedBaseline, unkeyedLive.
    cbn [Items]. set_solver.
  - unfold keyOrder_ok. apply NoDup_Permutation; [by vm_compute; repeat constructor; set_solver|apply NoDup_elements|].
    intros k. rewrite elem_of_elements. unfold netpolKeys, unkeyedBaseline, unkeyedLive.
    cbn [Items]. set_solver.
  - intros Heq. apply (f_equal NetPolDrift_Changed) in Heq.
    vm_compute in Heq. discriminate Heq.
Qed.

(** ** Digest construction *)

Section digest.
Context {NetworkPolicySpec IngressRule EgressRule MarshalError : Type}.
Context (Spec_PolicyTypes : NetworkPolicySpec → list string).
Context (Spec_Ingress : NetworkPolicySpec → list IngressRule).
Context (Spec_Egress : NetworkPolicySpec → list EgressRule).
Context (json_Marshal : NetworkPolicySpec → result (list Byte.byte) MarshalError).
Context (sha256_Sum256 : list Byte.byte → list Byte.byte).
Context (hex_EncodeToString : list Byte.byte → string).

Local Abbreviation NewDigest :=
  (NewNetPolDigest Spec_PolicyTypes Spec_Ingress Spec_Egress json_Marshal
     sha256_Sum256 hex_EncodeToString).
Local Abbreviation buildSnapshot :=
  (buildNetPolSnapshot Spec_PolicyTypes Spec_Ingress Spec_Egress json_Marshal
     sha256_Sum256 hex_EncodeToString).
Local Abbreviation buildSnapshot_from :=
  (buildNetPolSnapshot_from Spec_PolicyTypes Spec_Ingress Spec_Egress json_Marshal
     sha256_Sum256 hex_EncodeToString).

Lemma NewNetPolDigest_Err (np : NetworkPolicy) err :
  NewDigest np = Err err ↔
  ∃ cause, json_Marshal (NetworkPolicy_Spec np) = Err cause ∧
           err = Errorf "marshal NetworkPolicy spec" cause.
Proof.
  unfold NewNetPolDigest.
  destruct (json_Marshal (NetworkPolicy_Spec np)) as [specBytes|cause]; split.
  - done.
  - by intros (? & ? & _).
  - intros [= <-]. eauto.
  - intros (? & [= <-] & ->). done.
Qed.

Lemma NewNetPolDigest_Ok (np : NetworkPolicy) digest :
  NewDigest np = Ok digest ↔
  ∃ specBytes, json_Marshal (NetworkPolicy_Spec np) = Ok specBytes ∧
    digest = mkNetPolDigest
               (ObjectMeta_Namespace (NetworkPolicy_Meta np))
               (ObjectMeta_Name (NetworkPolicy_Meta np))
               (hex_EncodeToString (sha256_Sum256 specBytes))
               (Spec_PolicyTypes (NetworkPolicy_Spec np))
               (length (Spec_Ingress (NetworkPolicy_Spec np)))
               (length (Spec_Egress (NetworkPolicy_Spec np))).
Proof.
  unfold NewNetPolDigest.
  destruct (json_Marshal (NetworkPolicy_Spec np)) as [specBytes|cause]; split.
  - intros [= <-]. eauto.
  - intros (? & [= <-] & ->). done.
  - done.
  - by intros (? & ? & _).
Qed.

(** The builder stops at the first policy whose digest fails, with that
    error. *)
Lemma buildNetPolSnapshot_from_Err (before after : list NetworkPolicy) np err snap :
  Forall (λ q, ∃ digest, NewDigest q = Ok digest) before →
  NewDigest np = Err err →
  buildSnapshot_from (before ++ np :: after) snap = Err err.
Proof.
  intros Hbefore Hnp. revert snap.
  induction Hbefore as [|q before [digest Hq] _ IH]; intros snap; simpl.
  - by rewrite Hnp.
  - rewrite Hq. apply IH.
Qed.

Lemma buildNetPolSnapshot_from_Ok (netpols : list NetworkPolicy) snap :
  Forall (λ q, ∃ digest, NewDigest q = Ok digest) netpols →
  ∃ snap', buildSnapshot_from netpols snap = Ok snap'.
Proof.
  intros Hall. revert snap.
  induction Hall as [|q netpols [digest Hq] _ IH]; intros snap; simpl.
  - eauto.
  - rewrite Hq. apply IH.
Qed.

Lemma buildNetPolSnapshot_from_fails (netpols : list NetworkPolicy) snap :
  (∃ err, buildSnapshot_from netpols snap = Err err) ↔
  ∃ np cause, np ∈ netpols ∧ json_Marshal (NetworkPolicy_Spec np) = Err cause.
Proof.
  revert snap. induction netpols as [|np netpols IH]; intros snap; simpl.
  - split; [by intros [? ?]|]. by intros (? & ? & ?%elem_of_nil & _).
  - destruct (NewDigest np) as [digest|err] eqn:Hnp.
    + rewrite IH. apply NewNetPolDigest_Ok in Hnp as (specBytes & Hbytes & _).
      split.
      * intros (q & cause & Hin & Hq). exists q, cause. split; [by right|done].
      * intros (q & cause & [->|Hin]%elem_of_cons & Hq); [congruence|eauto].
    + apply NewNetPolDigest_Err in Hnp as (cause & Hcause & _).
      split; [|by eauto]. intros _. exists np, cause. split; [by left|done].
Qed.

(** C7. Constructing a digest fails exactly when the spec cannot be
    serialized, with an error that wraps the serializer's; on success the
    [specHash] is the hex encoding of the SHA-256 of the serialized spec
    and of nothing else, so two policies with the same spec get the same
    [specHash] whatever their metadata; and the snapshot builder returns
    the error of the first policy that fails. *)
Theorem C7_digest_fails_only_when_spec_is_not_serializable
    (np np' : NetworkPolicy) (before after netpols : list NetworkPolicy) :
  (∀ err, NewDigest np = Err err ↔
     ∃ cause, json_Marshal (NetworkPolicy_Spec np) = Err cause ∧
              err = Errorf "marshal NetworkPolicy spec" cause)
  ∧ (∀ digest, NewDigest np = Ok digest ↔
       ∃ specBytes, json_Marshal (NetworkPolicy_Spec np) = Ok specBytes ∧
         digest = mkNetPolDigest
                    (ObjectMeta_Namespace (NetworkPolicy_Meta np))
                    (ObjectMeta_Name (NetworkPolicy_Meta np))
                    (hex_EncodeToString (sha256_Sum256 specBytes))
                    (Spec_PolicyTypes (NetworkPolicy_Spec np))
                    (length (Spec_Ingress (NetworkPolicy_Spec np)))
                    (length (Spec_Egress (NetworkPolicy_Spec np))))
  ∧ (NetworkPolicy_Spec np = NetworkPolicy_Spec np' →
     match NewDigest np, NewDigest np' with
     | Ok digest, Ok digest' => SpecHash digest = SpecHash digest'
     | Err err, Err err' => err = err'
     | _, _ => False
     end)
  ∧ (∀ err,
       Forall (λ q, ∃ digest, NewDigest q = Ok digest) before →
       NewDigest np = Err err →
       buildSnapshot (before ++ np :: after) = Err err)
  ∧ ((∃ err, buildSnapshot netpols = Err err) ↔
     ∃ q cause, q ∈ netpols ∧ json_Marshal (NetworkPolicy_Spec q) = Err cause).
Proof.
  split; [apply NewNetPolDigest_Err|]. split; [apply NewNetPolDigest_Ok|].
  split; [|split].
  - intros Hspec. unfold NewNetPolDigest. rewrite <-Hspec.
    by destruct (json_Marshal (NetworkPolicy_Spec np)).
  - intros err Hbefore Hnp. by apply buildNetPolSnapshot_from_Err.
  - apply buildNetPolSnapshot_from_fails.
Qed.

End digest.

(** With the stand-in serializer: the builder, given a policy it can
    serialize and then one it cannot, returns the wrapped error of the
    second. *)
Lemma C7_digest_witness :
  buildNetPolSnapshot (IngressRule := unit) (EgressRule := unit)
    (λ spec, spec) (λ _, []) (λ _, []) toyMarshal (λ bytes, bytes)
    String.string_of_list_byte
    ([toyPolicy "allow-dns" "41" ["Egress"]]
       ++ toyPolicy "broken" "7" [] :: [toyPolicy "web" "3" ["Ingress"]])
  = Err (Errorf "marshal NetworkPolicy spec" "unsupported value").
Proof.
  apply (C7_digest_fails_only_when_spec_is_not_serializable
           (IngressRule := unit) (EgressRule := unit)
           (λ spec, spec) (λ _, []) (λ _, []) toyMarshal (λ bytes, bytes)
           String.string_of_list_byte
           (toyPolicy "broken" "7" []) (toyPolicy "broken" "7" [])
           [toyPolicy "allow-dns" "41" ["Egress"]]
           [toyPolicy "web" "3" ["Ingress"]] []).
  - constructor; [|constructor]. eexists. reflexivity.
  - reflexivity.
Defined.

(** With the stand-in serializer: the same spec under two names and
    resource versions hashes alike. *)
Example NewNetPolDigest_ignores_metadata :
  SpecHash <$>
    match NewNetPolDigest (IngressRule := unit) (EgressRule := unit)
            (λ spec, spec) (λ _, []) (λ _, []) toyMarshal (λ bytes, bytes)
            String.string_of_list_byte (toyPolicy "allow-dns" "41" ["Egress"]) with
    | Ok digest => Some digest
    | Err _ => None
    end
  = Some "Egress"
  ∧ SpecHash <$>
      match NewNetPolDigest (IngressRule := unit) (EgressRule := unit)
              (λ spec, spec) (λ _, []) (λ _, []) toyMarshal (λ bytes, bytes)
              String.string_of_list_byte (toyPolicy "egress-dns" "97" ["Egress"]) with
      | Ok digest => Some digest
      | Err _ => None
      end
    = Some "Egress".
Proof. split; reflexivity. Qed.

(** ** Presence of a namespace in a slice *)

(** [bMap] and [lMap] hold, for a namespace, the last element the slice
    has for it. *)
Lemma byNamespace_lookup (l : list NamespacePSA) (ns : string) :
  byNamespace l !! ns = last (filter (λ b, NamespacePSA_Namespace b = ns) l).
Proof.
  unfold byNamespace. induction l as [|x l IH] using rev_ind.
  - by rewrite rangeSlice_nil, lookup_empty.
  - rewrite rangeSlice_app, rangeSlice_cons, rangeSlice_nil, filter_app.
    rewrite filter_cons, filter_nil.
    destruct (decide (NamespacePSA_Namespace x = ns)) as [<-|Hne].
    + by rewrite lookup_insert_eq, last_snoc.
    + by rewrite lookup_insert_ne, app_nil_r.
Qed.

(** Where the namespaces of the slice are unique, as the collectors
    provide them, that is the element of the slice for the namespace. *)
Lemma byNamespace_lookup_unique (l : list NamespacePSA) (ns : string) (b : NamespacePSA) :
  NoDup (NamespacePSA_Namespace <$> l) →
  byNamespace l !! ns = Some b ↔ b ∈ l ∧ NamespacePSA_Namespace b = ns.
Proof.
  rewrite byNamespace_lookup. induction l as [|x l IH]; intros Hnd.
  - rewrite filter_nil. split; [done|]. by intros [?%elem_of_nil _].
  - rewrite fmap_cons in Hnd. apply NoDup_cons in Hnd as [Hx Hnd].
    rewrite filter_cons, elem_of_cons.
    destruct (decide (NamespacePSA_Namespace x = ns)) as [<-|Hne].
    + assert (filter (λ b0, NamespacePSA_Namespace b0 = NamespacePSA_Namespace x) l = [])
        as ->.
      { apply elem_of_nil_inv. intros y [Heq Hy]%list_elem_of_filter.
        apply Hx. rewrite <-Heq. apply list_elem_of_fmap. eauto. }
      simpl. split; [by intros [= <-]; auto|].
      intros [[->|Hin] Heq]; [done|].
      destruct Hx. rewrite <-Heq. apply list_elem_of_fmap. eauto.
    + rewrite IH by done. naive_solver.
Qed.

(** * Further properties of the engine *)

(** ** No drift *)

Lemma keptAt_None_iff order mine other :
  order ≡ₚ elements mine →
  keptAt order mine other = None ↔ mine ∖ other = ∅.
Proof.
  intros Horder. pose proof (keptAt_difference order mine other Horder) as Hk.
  destruct (keptAt order mine other) as [kept|]; [|done].
  destruct Hk as (Hne & _ & Hset). split; [done|].
  intros Hempty. rewrite Hempty in Hset. destruct kept; [done|set_solver].
Qed.

Lemma difference_empty_both (X Y : gset Permission) :
  X ∖ Y = ∅ → Y ∖ X = ∅ → X = Y.
Proof.
  intros HXY HYX. apply set_eq. intros p. split; intros Hp.
  - destruct (decide (p ∈ Y)) as [|Hn]; [done|].
    assert (p ∈ X ∖ Y) as Hin by (by apply elem_of_difference).
    rewrite HXY in Hin. by apply not_elem_of_empty in Hin.
  - destruct (decide (p ∈ X)) as [|Hn]; [done|].
    assert (p ∈ Y ∖ X) as Hin by (by apply elem_of_difference).
    rewrite HYX in Hin. by apply not_elem_of_empty in Hin.
Qed.

(** X1. Under every admissible schedule, [DiffRBAC] reports nothing at
    all exactly when every subject has the same permission set in both
    snapshots (a subject mapped to the empty set counting as absent); in
    particular a snapshot never drifts from itself. *)
Theorem X1_DiffRBAC_empty_iff_equal_sets
    (sch : RBACSchedule) (baseline live : RBACSnapshot) :
  RBACSchedule_ok sch baseline live →
  DiffRBAC sch baseline live = mkRBACDrift ∅ ∅
  ↔ ∀ subj, permsOf baseline subj = permsOf live subj.
Proof.
  intros Hok. pose proof Hok as [_ Hperms]. split.
  - intros Heq subj.
    pose proof (DiffRBAC_Extra_lookup sch baseline live subj Hok) as HE.
    pose proof (DiffRBAC_Missing_lookup sch baseline live subj Hok) as HM.
    rewrite Heq in HE, HM. cbn [RBACDrift_Extra RBACDrift_Missing] in HE, HM.
    rewrite lookup_empty in HE, HM. symmetry in HE, HM.
    destruct (Hperms subj) as [Hlive Hbase].
    apply keptAt_None_iff in HE; [|done]. apply keptAt_None_iff in HM; [|done].
    by apply difference_empty_both.
  - intros Hsame.
    assert (HE : RBACDrift_Extra (DiffRBAC sch baseline live) = ∅).
    { apply map_eq. intros subj. rewrite DiffRBAC_Extra_lookup, lookup_empty by done.
      destruct (Hperms subj) as [Hlive _]. apply keptAt_None_iff; [done|].
      rewrite Hsame. set_solver. }
    assert (HM : RBACDrift_Missing (DiffRBAC sch baseline live) = ∅).
    { apply map_eq. intros subj. rewrite DiffRBAC_Missing_lookup, lookup_empty by done.
      destruct (Hperms subj) as [_ Hbase]. apply keptAt_None_iff; [done|].
      rewrite Hsame. set_solver. }
    destruct (DiffRBAC sch baseline live). simpl in *. by subst.
Qed.

(** A snapshot against itself. *)
Lemma X1_DiffRBAC_empty_witness :
  DiffRBAC (RBACSchedule_forward snapshotGetListWatch snapshotGetListWatch)
    snapshotGetListWatch snapshotGetListWatch = mkRBACDrift ∅ ∅.
Proof.
  apply (X1_DiffRBAC_empty_iff_equal_sets
           (RBACSchedule_forward snapshotGetListWatch snapshotGetListWatch)
           snapshotGetListWatch snapshotGetListWatch).
  - split; [reflexivity|]. intros subj. split; reflexivity.
  - reflexivity.
Defined.

Lemma sortSlice_nil_iff `{sorter : SliceSorter} {A : Type} (less : A → A → bool)
    (l : list A) :
  sortSlice less l = [] ↔ l = [].
Proof.
  split; intros Hnil.
  - apply Permutation_nil_r. rewrite <-Hnil. by rewrite sortSlice_perm.
  - apply Permutation_nil_r. rewrite sortSlice_perm. by rewrite Hnil.
Qed.

Lemma bind_nil_iff {A B : Type} (f : A → list B) (l : list A) :
  l ≫= f = [] ↔ ∀ x, x ∈ l → f x = [].
Proof.
  induction l as [|x l IH]; [by split; [intros _ ? ?%elem_of_nil|]|].
  rewrite bind_cons. split.
  - intros [Hx Hl]%app_eq_nil y [->|Hy]%elem_of_cons; [done|]. by apply IH.
  - intros Hall. rewrite (Hall x) by left. simpl. apply IH.
    intros y Hy. apply Hall. by right.
Qed.

Lemma netpolVerdict_None (b l : option NetPolDigest) :
  netpolVerdict b l = None ↔ SpecHash <$> b = SpecHash <$> l.
Proof.
  unfold netpolVerdict. destruct b as [b|], l as [l|]; simpl; try done.
  destruct (decide (SpecHash b = SpecHash l)); split; congruence.
Qed.

Lemma verdict_None_buckets (v : option NetPolBucket) :
  v = None ↔ missingOf v = [] ∧ extraOf v = [] ∧ changedOf v = [].
Proof. destruct v as [[]|]; simpl; naive_solver. Qed.

(** X2. Under every admissible key order, [DiffNetworkPolicies] reports
    nothing at all exactly when the two snapshots have the same keys with
    the same [specHash] under each; the other fields of a digest (policy
    types, counts, namespace, name) never cause drift. *)
Theorem X2_DiffNetworkPolicies_empty_iff_equal_hashes `{sorter : SliceSorter}
    (keyOrder : list string) (baseline live : NetPolSnapshot) :
  keyOrder_ok keyOrder baseline live →
  DiffNetworkPolicies keyOrder baseline live = mkNetPolDrift [] [] []
  ↔ ∀ key, SpecHash <$> Items baseline !! key = SpecHash <$> Items live !! key.
Proof.
  intros Hok. rewrite DiffNetworkPolicies_eq. split.
  - intros [= HM HE HC] key.
    apply sortSlice_nil_iff in HM, HE, HC.
    destruct (decide (key ∈ keyOrder)) as [Hin|Hnin].
    + apply netpolVerdict_None. apply verdict_None_buckets.
      rewrite bind_nil_iff in HM. rewrite bind_nil_iff in HE. rewrite bind_nil_iff in HC.
      split_and!; [by apply HM|by apply HE|by apply HC].
    + unfold keyOrder_ok in Hok. rewrite Hok, elem_of_elements in Hnin.
      unfold netpolKeys in Hnin. rewrite elem_of_union, !elem_of_dom in Hnin.
      destruct (Items baseline !! key) eqn:Hb; [destruct Hnin; eauto|].
      destruct (Items live !! key) eqn:Hl; [destruct Hnin; eauto|]. done.
  - intros Hsame.
    assert (Hnone : ∀ key, verdictAt baseline live key = None).
    { intros key. by apply netpolVerdict_None. }
    f_equal; apply sortSlice_nil_iff, bind_nil_iff; intros key _;
      by rewrite Hnone.
Qed.

(** The sample baseline against itself. *)
Lemma X2_DiffNetworkPolicies_empty_witness :
  DiffNetworkPolicies (sorter := mergeSorter)
    (elements (netpolKeys netpolBaseline netpolBaseline)) netpolBaseline netpolBaseline
  = mkNetPolDrift [] [] [].
Proof.
  apply (X2_DiffNetworkPolicies_empty_iff_equal_hashes (sorter := mergeSorter)
           (elements (netpolKeys netpolBaseline netpolBaseline))
           netpolBaseline netpolBaseline).
  - unfold keyOrder_ok. reflexivity.
  - reflexivity.
Defined.






(** ** The PSA differ with a single list *)

Lemma flatEntry_length ns baseline live : length (flatEntry ns baseline live) ≤ 1.
Proof.
  unfold flatEntry. destruct baseline, live; simpl; try lia.
  destruct (decide _); simpl; lia.
Qed.

Lemma flatEntry_NoDup ns baseline live : NoDup (flatEntry ns baseline live).
Proof.
  pose proof (flatEntry_length ns baseline live) as Hlen.
  destruct (flatEntry ns baseline live) as [|x [|y l]]; simpl in Hlen;
    [constructor|apply NoDup_singleton|lia].
Qed.

Lemma flatEntry_namespace ns baseline live e :
  e ∈ flatEntry ns baseline live → PSADriftEntry_Namespace e = ns.
Proof.
  unfold flatEntry. destruct baseline, live; try destruct (decide _);
    rewrite ?list_elem_of_singleton, ?elem_of_nil; by try intros ->.
Qed.

Lemma flat_baselineDriven_emit lMap ns b entries :
  PSAFlat.baselineDriven lMap (ns, b) entries
  = entries ++ flatEntry ns (Some (Enforce b)) (levelAt lMap ns).
Proof.
  unfold PSAFlat.baselineDriven, levelAt, flatEntry.
  destruct (lMap !! ns) as [l|]; simpl; [|done].
  case_bool_decide.
  - by rewrite decide_False.
  - rewrite decide_True by (by destruct (decide (Enforce b = Enforce l)); [|tauto]).
    by rewrite app_nil_r.
Qed.

Lemma flat_liveOnly_emit bMap ns l entries :
  PSAFlat.liveOnly bMap (ns, l) entries
  = entries ++ match bMap !! ns with
               | None => flatEntry ns None (Some (Enforce l))
               | Some _ => []
               end.
Proof.
  unfold PSAFlat.liveOnly. destruct (bMap !! ns); [by rewrite app_nil_r|done].
Qed.

Lemma collectFlat_eq sch bMap lMap :
  collectFlat sch bMap lMap =
  (bOrder sch ≫= λ kv, flatEntry kv.1 (Some (Enforce kv.2)) (levelAt lMap kv.1))
  ++ (lOrder sch ≫= λ kv,
        match bMap !! kv.1 with
        | None => flatEntry kv.1 None (Some (Enforce kv.2))
        | Some _ => []
        end).
Proof.
  unfold collectFlat, rangeMap.
  rewrite (rangeSlice_emit (bOrder sch) _
    (λ kv, flatEntry kv.1 (Some (Enforce kv.2)) (levelAt lMap kv.1))).
  2:{ intros [ns b] out. apply flat_baselineDriven_emit. }
  rewrite (rangeSlice_emit (lOrder sch) _
    (λ kv, match bMap !! kv.1 with
           | None => flatEntry kv.1 None (Some (Enforce kv.2))
           | Some _ => []
           end)).
  2:{ intros [ns l] out. apply flat_liveOnly_emit. }
  done.
Qed.

Lemma flat_DiffPSA_eq `{sorter : SliceSorter} sch baseline live :
  PSAFlat.DiffPSA sch baseline live
  = PSAFlat.mkPSADrift
      (sortSlice entryLess (collectFlat sch (byNamespace baseline) (byNamespace live))).
Proof. reflexivity. Qed.

Section psa_flat.
Context `{sorter : SliceSorter}.
Context (sch : PSASchedule) (baseline live : list NamespacePSA).
Context (Hok : PSASchedule_ok sch baseline live).

Local Abbreviation bMap := (byNamespace baseline).
Local Abbreviation lMap := (byNamespace live).
Local Abbreviation collected := (collectFlat sch (byNamespace baseline) (byNamespace live)).

Lemma elem_of_collectFlat e :
  e ∈ collected ↔
  e ∈ flatEntry (PSADriftEntry_Namespace e)
        (levelAt bMap (PSADriftEntry_Namespace e))
        (levelAt lMap (PSADriftEntry_Namespace e)).
Proof using Hok.
  rewrite collectFlat_eq. rewrite elem_of_app, !list_elem_of_bind. split.
  - intros [([ns b] & He & Hin)|([ns l] & He & Hin)]; cbn [fst snd] in He.
    + apply (bOrder_elem sch baseline live Hok) in Hin.
      rewrite (flatEntry_namespace _ _ _ _ He). unfold levelAt at 1.
      by rewrite Hin.
    + apply (lOrder_elem sch baseline live Hok) in Hin.
      destruct (bMap !! ns) eqn:Hb; [by apply elem_of_nil in He|].
      rewrite (flatEntry_namespace _ _ _ _ He). unfold levelAt.
      by rewrite Hb, Hin.
  - set (ns := PSADriftEntry_Namespace e). unfold levelAt. intros He.
    destruct (bMap !! ns) as [b|] eqn:Hb.
    + left. exists (ns, b). split; [done|].
      by apply (bOrder_elem sch baseline live Hok).
    + destruct (lMap !! ns) as [l|] eqn:Hl.
      * right. exists (ns, l). cbn [fst snd]. rewrite Hb.
        split; [done|]. by apply (lOrder_elem sch baseline live Hok).
      * by apply elem_of_nil in He.
Qed.

Lemma collectFlat_functional e1 e2 :
  e1 ∈ collected → e2 ∈ collected →
  PSADriftEntry_Namespace e1 = PSADriftEntry_Namespace e2 → e1 = e2.
Proof using Hok.
  intros H1%elem_of_collectFlat H2%elem_of_collectFlat Hns.
  rewrite Hns in H1.
  pose proof (flatEntry_length (PSADriftEntry_Namespace e2)
    (levelAt bMap (PSADriftEntry_Namespace e2))
    (levelAt lMap (PSADriftEntry_Namespace e2))) as Hlen.
  destruct (flatEntry _ _ _) as [|x [|y l]]; simpl in Hlen; [|set_solver|lia].
  by apply elem_of_nil in H1.
Qed.

Lemma collectFlat_NoDup : NoDup collected.
Proof using Hok.
  rewrite collectFlat_eq. apply NoDup_app. split_and!.
  - apply (NoDup_bind_keyed _ _ PSADriftEntry_Namespace);
      [apply (bOrder_NoDup sch baseline live Hok)| |].
    + intros kv e. apply flatEntry_namespace.
    + intros kv. apply flatEntry_NoDup.
  - intros e ([ns b] & He & Hin)%list_elem_of_bind
             ([ns' l] & He' & Hin')%list_elem_of_bind.
    cbn [fst snd] in *. apply (bOrder_elem sch baseline live Hok) in Hin.
    destruct (bMap !! ns') eqn:Hb'; [by apply elem_of_nil in He'|].
    apply flatEntry_namespace in He, He'. congruence.
  - apply (NoDup_bind_keyed _ _ PSADriftEntry_Namespace);
      [apply (lOrder_NoDup sch baseline live Hok)| |].
    + intros kv e. destruct (bMap !! kv.1); [by intros ?%elem_of_nil|].
      apply flatEntry_namespace.
    + intros kv. destruct (bMap !! kv.1); [constructor|apply flatEntry_NoDup].
Qed.

Lemma flat_DiffPSA_at ns :
  entriesOf ns (PSAFlat.Entries (PSAFlat.DiffPSA sch baseline live))
  = flatEntry ns (levelAt bMap ns) (levelAt lMap ns).
Proof using Hok.
  rewrite flat_DiffPSA_eq. cbn [PSAFlat.Entries]. unfold entriesOf.
  apply short_list_eq.
  - apply NoDup_filter. rewrite sortSlice_perm. apply collectFlat_NoDup.
  - apply flatEntry_NoDup.
  - apply flatEntry_length.
  - intros e. rewrite list_elem_of_filter, sortSlice_perm, elem_of_collectFlat.
    split.
    + by intros [<- ?].
    + intros He. pose proof (flatEntry_namespace _ _ _ _ He) as Hns.
      by rewrite Hns.
Qed.

Lemma flat_DiffPSA_schedule_irrelevant :
  PSAFlat.DiffPSA sch baseline live
  = PSAFlat.DiffPSA (PSASchedule_forward baseline live) baseline live.
Proof using Hok.
  rewrite !flat_DiffPSA_eq. f_equal.
  apply (sortSlice_unique entryLess entryLe entryLess_false entryLess_swo).
  - intros e1 e2 He1 He2 H12 H21. apply collectFlat_functional; [done..|].
    by apply (anti_symm String.le).
  - rewrite !collectFlat_eq. destruct Hok as [Hb Hl]. cbn [PSASchedule_forward bOrder lOrder].
    by rewrite Hb, Hl.
Qed.

End psa_flat.

(** X4. The differ with a single list, under every admissible schedule
    and every sorter: about each namespace [Entries] holds exactly one
    entry when the namespace is only in baseline ("missing"), only in live
    ("extra"), or in both with differing enforce values (with the type
    [classifyPSADrift] gives), and none otherwise; the list is sorted by
    namespace; and the result does not depend on the schedule. *)
Theorem X4_flat_DiffPSA_classification `{sorter : SliceSorter}
    (sch sch' : PSASchedule) (baseline live : list NamespacePSA) :
  PSASchedule_ok sch baseline live →
  PSASchedule_ok sch' baseline live →
  let r := PSAFlat.DiffPSA sch baseline live in
  (∀ ns,
     entriesOf ns (PSAFlat.Entries r)
     = match levelAt (byNamespace baseline) ns, levelAt (byNamespace live) ns with
       | Some b, Some l =>
           if decide (b = l) then []
           else [mkPSADriftEntry ns b l (PSAFlat.classifyPSADrift b l)]
       | Some b, None => [mkPSADriftEntry ns b "" "missing"]
       | None, Some l => [mkPSADriftEntry ns "" l "extra"]
       | None, None => []
       end)
  ∧ Sorted entryLe (PSAFlat.Entries r)
  ∧ PSAFlat.DiffPSA sch' baseline live = r.
Proof.
  intros Hok Hok' r. split_and!.
  - intros ns. unfold r. by rewrite flat_DiffPSA_at.
  - unfold r. rewrite flat_DiffPSA_eq.
    apply (sortSlice_Sorted_le entryLess entryLe entryLess_false entryLess_swo).
  - unfold r. rewrite (flat_DiffPSA_schedule_irrelevant sch' baseline live Hok').
    by rewrite (flat_DiffPSA_schedule_irrelevant sch baseline live Hok).
Qed.

(** The sample cluster: forwards and backwards give the same list. *)
Lemma X4_flat_DiffPSA_witness :
  PSAFlat.DiffPSA (sorter := mergeSorter)
    (PSASchedule_backward psaBaseline psaLive) psaBaseline psaLive
  = PSAFlat.DiffPSA (sorter := mergeSorter)
      (PSASchedule_forward psaBaseline psaLive) psaBaseline psaLive.
Proof.
  apply (X4_flat_DiffPSA_classification (sorter := mergeSorter)
           (PSASchedule_forward psaBaseline psaLive)
           (PSASchedule_backward psaBaseline psaLive) psaBaseline psaLive).
  - split; reflexivity.
  - split; apply reverse_Permutation.
Defined.

(** The sample cluster under the flat differ, computed: namespace [f],
    whose label is gone, is "different" here. *)
Example flat_DiffPSA_sample_run :
  PSAFlat.DiffPSA (sorter := mergeSorter)
    (PSASchedule_forward psaBaseline psaLive) psaBaseline psaLive
  = PSAFlat.mkPSADrift
      [mkPSADriftEntry "a" "restricted" "baseline" "weaker";
       mkPSADriftEntry "b" "baseline" "restricted" "stronger";
       mkPSADriftEntry "c" "restricted" "" "missing";
       mkPSADriftEntry "d" "" "baseline" "extra";
       mkPSADriftEntry "f" "restricted" "" "different"].
Proof. vm_compute. reflexivity. Qed.

(** ** The two PSA differs side by side *)

Lemma elem_of_entriesOf (l : list PSADriftEntry) (e : PSADriftEntry) :
  e ∈ l ↔ e ∈ entriesOf (PSADriftEntry_Namespace e) l.
Proof. unfold entriesOf. rewrite list_elem_of_filter. naive_solver. Qed.

Lemma flatEntry_transition ns (b l : option PSALevel) :
  transition <$> flatEntry ns b l
  = transition <$> (psaEntry ns b l InExtra ++ psaEntry ns b l InMissing).
Proof.
  unfold flatEntry, psaEntry, psaVerdict.
  destruct b as [b|], l as [l|]; try done.
  destruct (decide (b = l)); [done|]. by repeat case_decide.
Qed.

Lemma flatEntry_in_buckets ns (b l : option PSALevel) e :
  e ∈ flatEntry ns b l → DriftType e ≠ "different" →
  e ∈ psaEntry ns b l InExtra ∨ e ∈ psaEntry ns b l InMissing.
Proof.
  unfold flatEntry, psaEntry, psaVerdict.
  destruct b as [b|], l as [l|]; try (by intros ?%elem_of_nil).
  - destruct (decide (b = l)); [by intros ?%elem_of_nil|].
    intros ->%list_elem_of_singleton. cbn [DriftType].
    unfold PSAFlat.classifyPSADrift. rewrite !order_lookup.
    repeat case_bool_decide; repeat case_decide; try done; try lia;
      intros _; simpl; rewrite ?list_elem_of_singleton; auto.
  - intros ->%list_elem_of_singleton _. right. simpl. by apply list_elem_of_singleton.
  - intros ->%list_elem_of_singleton _. left. simpl. by apply list_elem_of_singleton.
Qed.

Lemma buckets_in_flatEntry ns (b l : option PSALevel) e :
  e ∈ psaEntry ns b l InExtra ∨ e ∈ psaEntry ns b l InMissing →
  e ∈ flatEntry ns b l ∨
  mkPSADriftEntry (PSADriftEntry_Namespace e) (PSADriftEntry_Baseline e)
    (PSADriftEntry_Live e) "different" ∈ flatEntry ns b l.
Proof.
  unfold flatEntry, psaEntry, psaVerdict.
  destruct b as [b|], l as [l|]; simpl;
    rewrite ?list_elem_of_singleton, ?elem_of_nil; try naive_solver.
  destruct (decide (b = l)); [rewrite !elem_of_nil; tauto|].
  unfold PSAFlat.classifyPSADrift. rewrite !order_lookup.
  repeat case_decide; simpl; rewrite ?list_elem_of_singleton, ?elem_of_nil;
    intros [He|He]; try done; subst e; simpl;
    repeat case_bool_decide; try lia; auto.
Qed.

(** X5. The two PSA differs report the same transitions: about every
    namespace, the single list holds an entry of the same namespace,
    baseline and live level as the two buckets together hold; an entry of
    the single list whose type is not "different" is an entry of one of the
    buckets as it stands; and an entry of a bucket is in the single list as
    it stands or with the type "different". *)
Theorem X5_flat_and_bucketed_PSA_agree `{sorter : SliceSorter}
    (sch : PSASchedule) (baseline live : list NamespacePSA) :
  PSASchedule_ok sch baseline live →
  let flat := PSAFlat.Entries (PSAFlat.DiffPSA sch baseline live) in
  let buckets := PSABucketed.DiffPSA sch baseline live in
  (∀ ns, transition <$> entriesOf ns flat
         = transition <$> (entriesOf ns (PSABucketed.Extra buckets)
                           ++ entriesOf ns (PSABucketed.Missing buckets)))
  ∧ (∀ e, e ∈ flat → DriftType e ≠ "different" →
          e ∈ PSABucketed.Extra buckets ∨ e ∈ PSABucketed.Missing buckets)
  ∧ (∀ e, e ∈ PSABucketed.Extra buckets ∨ e ∈ PSABucketed.Missing buckets →
          e ∈ flat ∨
          mkPSADriftEntry (PSADriftEntry_Namespace e) (PSADriftEntry_Baseline e)
            (PSADriftEntry_Live e) "different" ∈ flat).
Proof.
  intros Hok flat buckets. unfold flat, buckets. split_and!.
  - intros ns. rewrite flat_DiffPSA_at, DiffPSA_Extra_at, DiffPSA_Missing_at by done.
    apply flatEntry_transition.
  - intros e. rewrite (elem_of_entriesOf (PSAFlat.Entries _)).
    rewrite (elem_of_entriesOf (PSABucketed.Extra _)).
    rewrite (elem_of_entriesOf (PSABucketed.Missing _)).
    rewrite flat_DiffPSA_at, DiffPSA_Extra_at, DiffPSA_Missing_at by done.
    apply flatEntry_in_buckets.
  - intros e. rewrite (elem_of_entriesOf (PSABucketed.Extra _)).
    rewrite (elem_of_entriesOf (PSABucketed.Missing _)).
    rewrite !(elem_of_entriesOf (PSAFlat.Entries _)). cbn [PSADriftEntry_Namespace].
    rewrite flat_DiffPSA_at, DiffPSA_Extra_at, DiffPSA_Missing_at by done.
    apply buckets_in_flatEntry.
Qed.

(** The sample cluster: the "weaker" entry for namespace [a] of the
    single list is in a bucket. *)
Lemma X5_flat_and_bucketed_witness :
  let buckets := PSABucketed.DiffPSA (sorter := mergeSorter)
                   (PSASchedule_forward psaBaseline psaLive) psaBaseline psaLive in
  mkPSADriftEntry "a" "restricted" "baseline" "weaker" ∈ PSABucketed.Extra buckets
  ∨ mkPSADriftEntry "a" "restricted" "baseline" "weaker" ∈ PSABucketed.Missing buckets.
Proof.
  pose proof (X5_flat_and_bucketed_PSA_agree (sorter := mergeSorter)
                (PSASchedule_forward psaBaseline psaLive) psaBaseline psaLive)
    as Hthm.
  destruct Hthm as (_ & Hflat & _); [split; reflexivity|].
  apply Hflat; [|discriminate].
  vm_compute. left.
Defined.

(** ** Snapshots the NetworkPolicy builder returns *)

Section built_netpol.
Context {NetworkPolicySpec IngressRule EgressRule MarshalError : Type}.
Context (Spec_PolicyTypes : NetworkPolicySpec → list string).
Context (Spec_Ingress : NetworkPolicySpec → list IngressRule).
Context (Spec_Egress : NetworkPolicySpec → list EgressRule).
Context (json_Marshal : NetworkPolicySpec → result (list Byte.byte) MarshalError).
Context (sha256_Sum256 : list Byte.byte → list Byte.byte).
Context (hex_EncodeToString : list Byte.byte → string).

Local Abbreviation NewDigest :=
  (NewNetPolDigest Spec_PolicyTypes Spec_Ingress Spec_Egress json_Marshal
     sha256_Sum256 hex_EncodeToString).
Local Abbreviation buildSnapshot :=
  (buildNetPolSnapshot Spec_PolicyTypes Spec_Ingress Spec_Egress json_Marshal
     sha256_Sum256 hex_EncodeToString).
Local Abbreviation buildSnapshot_from :=
  (buildNetPolSnapshot_from Spec_PolicyTypes Spec_Ingress Spec_Egress json_Marshal
     sha256_Sum256 hex_EncodeToString).
Local Abbreviation policyKey np :=
  (ObjectMeta_Namespace (NetworkPolicy_Meta np) +:+ "/"
   +:+ ObjectMeta_Name (NetworkPolicy_Meta np)).

(** The builder files each policy under its key, a later policy
    replacing an earlier one of the same key. *)
Lemma buildNetPolSnapshot_from_lookup (netpols : list NetworkPolicy) snap0 snap key :
  buildSnapshot_from netpols snap0 = Ok snap →
  Items snap !! key
  = match last (filter (λ np, policyKey np = key) netpols) with
    | Some np => match NewDigest np with Ok d => Some d | Err _ => None end
    | None => Items snap0 !! key
    end.
Proof.
  revert snap0. induction netpols as [|np netpols IH]; intros snap0; simpl.
  - by intros [= <-].
  - destruct (NewDigest np) as [d|err] eqn:Hnp; [|done].
    intros Hbuild. rewrite (IH _ Hbuild). cbn [Items]. rewrite filter_cons.
    destruct (decide (policyKey np = key)) as [<-|Hne].
    + destruct (filter _ netpols) as [|q qs] eqn:Hf.
      * cbn [last]. by rewrite Hnp, lookup_insert_eq.
      * rewrite last_cons_cons.
        destruct (last (q :: qs)) eqn:Hlast; [done|]. by apply last_None in Hlast.
    + destruct (last _); [done|]. by rewrite lookup_insert_ne.
Qed.

Lemma NewNetPolDigest_keeps_name (np : NetworkPolicy) d :
  NewDigest np = Ok d →
  NetPolDigest_Namespace d = ObjectMeta_Namespace (NetworkPolicy_Meta np) ∧
  NetPolDigest_Name d = ObjectMeta_Name (NetworkPolicy_Meta np).
Proof. intros (? & _ & ->)%NewNetPolDigest_Ok. done. Qed.

Lemma buildNetPolSnapshot_keyed (netpols : list NetworkPolicy) snap :
  buildSnapshot netpols = Ok snap → keyedByNamespaceName snap.
Proof.
  intros Hbuild key d Hd.
  rewrite (buildNetPolSnapshot_from_lookup netpols _ snap key Hbuild) in Hd.
  destruct (last _) as [np|] eqn:Hlast;
    [|by cbn [Items] in Hd; rewrite lookup_empty in Hd].
  apply last_Some in Hlast as [l' Hl'].
  assert (np ∈ filter (λ np, policyKey np = key) netpols) as Hin.
  { rewrite Hl'. apply elem_of_app. right. by left. }
  apply list_elem_of_filter in Hin as [<- _].
  destruct (NewDigest np) as [d'|] eqn:Hnp; [|done]. simplify_eq.
  by destruct (NewNetPolDigest_keeps_name np d Hnp) as [-> ->].
Qed.

(** X6. When the NetworkPolicy snapshot builder succeeds, the snapshot
    holds under each key the digest of the last policy of the input with
    that namespace/name key and nothing under any other key; so every
    stored digest sits under the key [NetPolRef.String] prints for it. *)
Theorem X6_buildNetPolSnapshot_files_policies_by_key
    (netpols : list NetworkPolicy) (snap : NetPolSnapshot) :
  buildSnapshot netpols = Ok snap →
  (∀ key,
     Items snap !! key
     = match last (filter (λ np, policyKey np = key) netpols) with
       | Some np => match NewDigest np with Ok d => Some d | Err _ => None end
       | None => None
       end)
  ∧ (∀ key d, Items snap !! key = Some d → NetPolRef_String (refOf d) = key)
  ∧ (∀ np, np ∈ netpols → is_Some (Items snap !! policyKey np)).
Proof.
  intros Hbuild.
  assert (Hlookup : ∀ key,
    Items snap !! key
    = match last (filter (λ np, policyKey np = key) netpols) with
      | Some np => match NewDigest np with Ok d => Some d | Err _ => None end
      | None => None
      end).
  { intros key. rewrite (buildNetPolSnapshot_from_lookup netpols _ snap key Hbuild).
    destruct (last _); [done|]. apply lookup_empty. }
  split; [exact Hlookup|]. split.
  - intros key d Hd. symmetry. by apply (buildNetPolSnapshot_keyed netpols snap).
  - intros np Hnp. rewrite Hlookup.
    destruct (last _) as [q|] eqn:Hlast.
    + apply last_Some in Hlast as [l' Hl'].
      assert (q ∈ netpols) as Hq.
      { assert (q ∈ filter (λ np0, policyKey np0 = policyKey np) netpols) as Hin
          by (rewrite Hl'; apply elem_of_app; right; by left).
        by apply list_elem_of_filter in Hin as [_ ?]. }
      destruct (NewDigest q) as [d|err] eqn:Hdq; [by eexists|].
      exfalso.
      assert (∃ e, buildSnapshot netpols = Err e) as [e He]; [|congruence].
      apply buildNetPolSnapshot_from_fails.
      apply NewNetPolDigest_Err in Hdq as (cause & Hcause & _). eauto.
    + apply last_None in Hlast.
      assert (np ∈ filter (λ np0, policyKey np0 = policyKey np) netpols) as Hin
        by by apply list_elem_of_filter.
      rewrite Hlast in Hin. by apply elem_of_nil in Hin.
Qed.

(** X7. With a baseline the builder returned, [DiffNetworkPolicies] gives
    one and the same result, Changed list included, under every admissible
    key order, whatever the live snapshot. *)
Theorem X7_DiffNetworkPolicies_deterministic_on_built_baseline
    `{sorter : SliceSorter}
    (netpols : list NetworkPolicy) (baseline live : NetPolSnapshot)
    (keyOrder1 keyOrder2 : list string) :
  buildSnapshot netpols = Ok baseline →
  keyOrder_ok keyOrder1 baseline live →
  keyOrder_ok keyOrder2 baseline live →
  DiffNetworkPolicies keyOrder1 baseline live
  = DiffNetworkPolicies keyOrder2 baseline live.
Proof.
  intros Hbuild H1 H2.
  destruct (DiffNetworkPolicies_deterministic keyOrder1 keyOrder2 baseline live H1 H2)
    as (_ & _ & Hall).
  apply Hall. by apply (buildNetPolSnapshot_keyed netpols).
Qed.

End built_netpol.

Example toyBuild_run : toyBuild toyPolicies = Ok toySnapshot.
Proof. vm_compute. reflexivity. Qed.

(** With the stand-in serializer: the second version of [ns1/allow-dns]
    is the one on file. *)
Lemma X6_buildNetPolSnapshot_witness :
  Items toySnapshot !! "ns1/allow-dns"
  = match last (filter (λ np, ObjectMeta_Namespace (NetworkPolicy_Meta np) +:+ "/"
                              +:+ ObjectMeta_Name (NetworkPolicy_Meta np)
                              = "ns1/allow-dns") toyPolicies) with
    | Some np =>
        match NewNetPolDigest (IngressRule := unit) (EgressRule := unit)
                (λ spec, spec) (λ _, []) (λ _, []) toyMarshal (λ bytes, bytes)
                String.string_of_list_byte np with
        | Ok d => Some d
        | Err _ => None
        end
    | None => None
    end.
Proof.
  pose proof (X6_buildNetPolSnapshot_files_policies_by_key
                (IngressRule := unit) (EgressRule := unit)
                (λ spec, spec) (λ _, []) (λ _, []) toyMarshal (λ bytes, bytes)
                String.string_of_list_byte toyPolicies toySnapshot) as Hthm.
  destruct Hthm as (Hlookup & _ & _).
  - vm_compute. reflexivity.
  - apply Hlookup.
Defined.

(** With the stand-in serializer: the built snapshot against the sample
    live snapshot, its keys visited forwards and backwards. *)
Lemma X7_DiffNetworkPolicies_built_witness :
  DiffNetworkPolicies (sorter := mergeSorter)
    (elements (netpolKeys toySnapshot netpolLive)) toySnapshot netpolLive
  = DiffNetworkPolicies (sorter := mergeSorter)
      (reverse (elements (netpolKeys toySnapshot netpolLive))) toySnapshot netpolLive.
Proof.
  apply (X7_DiffNetworkPolicies_deterministic_on_built_baseline
           (IngressRule := unit) (EgressRule := unit)
           (λ spec, spec) (λ _, []) (λ _, []) toyMarshal (λ bytes, bytes)
           String.string_of_list_byte (sorter := mergeSorter) toyPolicies).
  - vm_compute. reflexivity.
  - unfold keyOrder_ok. reflexivity.
  - unfold keyOrder_ok. apply reverse_Permutation.
Defined.

(** ** The NetworkPolicy differ on keyed snapshots *)

Lemma keyed_lookup_ref (snap : NetPolSnapshot) key d :
  keyedByNamespaceName snap → Items snap !! key = Some d →
  key = NetPolRef_String (refOf d).
Proof. intros Hkeyed Hd. by apply Hkeyed. Qed.

Section netpol_keyed.
Context `{sorter : SliceSorter}.
Context (keyOrder : list string) (baseline live : NetPolSnapshot).
Context (Hok : keyOrder_ok keyOrder baseline live).
Context (Hbase : keyedByNamespaceName baseline) (Hlive : keyedByNamespaceName live).

Local Abbreviation result := (DiffNetworkPolicies keyOrder baseline live).

Lemma keyed_elem_of_Missing ref :
  ref ∈ NetPolDrift_Missing result ↔
  ∃ b, Items baseline !! NetPolRef_String ref = Some b ∧ refOf b = ref ∧
       Items live !! NetPolRef_String ref = None.
Proof using Hok Hbase.
  rewrite (elem_of_Missing keyOrder baseline live Hok). split.
  - intros (key & b & Hb & Hl & ->).
    pose proof (keyed_lookup_ref baseline key b Hbase Hb) as <-. eauto.
  - intros (b & Hb & <- & Hl). eauto.
Qed.

Lemma keyed_elem_of_Extra ref :
  ref ∈ NetPolDrift_Extra result ↔
  ∃ l, Items live !! NetPolRef_String ref = Some l ∧ refOf l = ref ∧
       Items baseline !! NetPolRef_String ref = None.
Proof using Hok Hlive.
  rewrite (elem_of_Extra keyOrder baseline live Hok). split.
  - intros (key & l & Hb & Hl & ->).
    pose proof (keyed_lookup_ref live key l Hlive Hl) as <-. eauto.
  - intros (l & Hl & <- & Hb). eauto.
Qed.

Lemma keyed_elem_of_Changed change :
  change ∈ NetPolDrift_Changed result ↔
  ∃ b l,
    Items baseline
      !! NetPolRef_String (mkNetPolRef (NetPolChange_Namespace change)
                             (NetPolChange_Name change)) = Some b ∧
    Items live
      !! NetPolRef_String (mkNetPolRef (NetPolChange_Namespace change)
                             (NetPolChange_Name change)) = Some l ∧
    SpecHash b ≠ SpecHash l ∧
    change = mkNetPolChange (NetPolDigest_Namespace b) (NetPolDigest_Name b) b l.
Proof using Hok Hbase.
  rewrite (elem_of_Changed keyOrder baseline live Hok). split.
  - intros (key & b & l & Hb & Hl & Hne & ->). cbn [NetPolChange_Namespace NetPolChange_Name].
    pose proof (keyed_lookup_ref baseline key b Hbase Hb) as Hkey.
    unfold refOf in Hkey. rewrite <-Hkey. eauto 10.
  - intros (b & l & Hb & Hl & Hne & ->). eauto 10.
Qed.

End netpol_keyed.

(** X8. On snapshots keyed by namespace/name (as the builder keys them),
    under every admissible key order: a reference is in Missing exactly
    when the key it prints as holds that policy in baseline and nothing in
    live, in Extra exactly when it holds that policy in live and nothing in
    baseline, and a change is in Changed exactly when its key holds digests
    with differing [specHash] on both sides; so no reference is in both
    Missing and Extra, and a changed policy is in neither. *)
Theorem X8_DiffNetworkPolicies_on_keyed_snapshots `{sorter : SliceSorter}
    (keyOrder : list string) (baseline live : NetPolSnapshot) :
  keyOrder_ok keyOrder baseline live →
  keyedByNamespaceName baseline →
  keyedByNamespaceName live →
  let r := DiffNetworkPolicies keyOrder baseline live in
  (∀ ref, ref ∈ NetPolDrift_Missing r ↔
     ∃ b, Items baseline !! NetPolRef_String ref = Some b ∧ refOf b = ref ∧
          Items live !! NetPolRef_String ref = None)
  ∧ (∀ ref, ref ∈ NetPolDrift_Extra r ↔
       ∃ l, Items live !! NetPolRef_String ref = Some l ∧ refOf l = ref ∧
            Items baseline !! NetPolRef_String ref = None)
  ∧ (∀ change, change ∈ NetPolDrift_Changed r ↔
       ∃ b l,
         Items baseline
           !! NetPolRef_String (mkNetPolRef (NetPolChange_Namespace change)
                                  (NetPolChange_Name change)) = Some b ∧
         Items live
           !! NetPolRef_String (mkNetPolRef (NetPolChange_Namespace change)
                                  (NetPolChange_Name change)) = Some l ∧
         SpecHash b ≠ SpecHash l ∧
         change = mkNetPolChange (NetPolDigest_Namespace b) (NetPolDigest_Name b) b l)
  ∧ (∀ ref, ref ∈ NetPolDrift_Missing r → ref ∉ NetPolDrift_Extra r)
  ∧ (∀ change, change ∈ NetPolDrift_Changed r →
       (mkNetPolRef (NetPolChange_Namespace change) (NetPolChange_Name change)
          ∉ NetPolDrift_Missing r) ∧
       (mkNetPolRef (NetPolChange_Namespace change) (NetPolChange_Name change)
          ∉ NetPolDrift_Extra r)).
Proof.
  intros Hok Hbase Hlive r. unfold r. split_and!.
  - intros ref. by apply keyed_elem_of_Missing.
  - intros ref. by apply keyed_elem_of_Extra.
  - intros change. by apply keyed_elem_of_Changed.
  - intros ref (b & Hb & _ & _)%keyed_elem_of_Missing
               (l & _ & _ & Hnone)%keyed_elem_of_Extra; [congruence|done..].
  - intros change (b & l & Hb & Hl & _ & _)%keyed_elem_of_Changed; [|done..].
    split.
    + intros (b' & _ & _ & Hnone)%keyed_elem_of_Missing; [congruence|done..].
    + intros (l' & _ & _ & Hnone)%keyed_elem_of_Extra; [congruence|done..].
Qed.

Lemma netpolBaseline_keyed : keyedByNamespaceName netpolBaseline.
Proof.
  intros key d. unfold netpolBaseline. cbn [Items].
  rewrite !lookup_insert_Some, lookup_empty. naive_solver.
Qed.

Lemma netpolLive_keyed : keyedByNamespaceName netpolLive.
Proof.
  intros key d. unfold netpolLive. cbn [Items].
  rewrite !lookup_insert_Some, lookup_empty. naive_solver.
Qed.

(** The sample snapshots: [ns1/allow-dns] is missing and is not extra. *)
Lemma X8_DiffNetworkPolicies_keyed_witness :
  let r := DiffNetworkPolicies (sorter := mergeSorter)
             (elements (netpolKeys netpolBaseline netpolLive))
             netpolBaseline netpolLive in
  mkNetPolRef "ns1" "allow-dns" ∈ NetPolDrift_Missing r
  ∧ mkNetPolRef "ns1" "allow-dns" ∉ NetPolDrift_Extra r.
Proof.
  pose proof (X8_DiffNetworkPolicies_on_keyed_snapshots (sorter := mergeSorter)
                (elements (netpolKeys netpolBaseline netpolLive))
                netpolBaseline netpolLive) as Hthm.
  destruct Hthm as (Hmissing & _ & _ & Hexcl & _).
  - unfold keyOrder_ok. reflexivity.
  - apply netpolBaseline_keyed.
  - apply netpolLive_keyed.
  - assert (mkNetPolRef "ns1" "allow-dns"
            ∈ NetPolDrift_Missing
                (DiffNetworkPolicies (sorter := mergeSorter)
                   (elements (netpolKeys netpolBaseline netpolLive))
                   netpolBaseline netpolLive)) as Hin.
    { apply Hmissing. exists allowDns. split_and!; vm_compute; reflexivity. }
    split; [exact Hin|]. by apply Hexcl.
Defined.

(** ** The shape of expanded permissions *)

(** X9. Every permission the expander emits is either a resource
    permission, with an empty [nonResourceURL] and the scope of the binding
    ("*" when cluster-scoped, else the binding namespace), or a URL
    permission, with empty API group, resource and resource name and the
    scope "*" even under a namespaced binding; and its verb is a verb of
    one of the rules. *)
Theorem X9_expanded_permission_shape
    (rules : list PolicyRule) (bindingNamespace : string) (clusterScope : bool)
    (p : Permission) :
  p ∈ ExpandPolicyRulesToPermissions rules bindingNamespace clusterScope →
  (∃ rule, rule ∈ rules ∧ Verb p ∈ Verbs rule)
  ∧ ((NonResourceURL p = "" ∧
      ScopeNamespace p = (if clusterScope then "*" else bindingNamespace))
     ∨ (APIGroup p = "" ∧ Resource p = "" ∧ ResourceName p = "" ∧
        ScopeNamespace p = "*")).
Proof.
  rewrite Expand_bind. intros (rule & Hp & Hrule)%list_elem_of_bind.
  unfold ruleFacts in Hp. destruct (NonResourceURLs rule) as [|url urls].
  - apply elem_of_resourceProduct in Hp
      as (verb & group & res & rn & Hverb & _ & _ & _ & ->).
    split; [by exists rule|]. by left.
  - apply elem_of_urlProduct in Hp as (verb & u & Hverb & _ & ->).
    split; [by exists rule|]. by right.
Qed.

(** The health rule bound in namespace [dev]: the scope is "*". *)
Lemma X9_expanded_permission_shape_witness :
  let p := mkPermission "*" "" "" "" "get" "/healthz" in
  (∃ rule, rule ∈ ClusterRole_Rules health ∧ Verb p ∈ Verbs rule)
  ∧ ((NonResourceURL p = "" ∧ ScopeNamespace p = "dev")
     ∨ (APIGroup p = "" ∧ Resource p = "" ∧ ResourceName p = "" ∧
        ScopeNamespace p = "*")).
Proof.
  apply (X9_expanded_permission_shape (ClusterRole_Rules health) "dev" false
           (mkPermission "*" "" "" "" "get" "/healthz")).
  vm_compute. left.
Defined.

(** ** Roles filed by key *)

Lemma rolesByKey_snoc roles r :
  rolesByKey (roles ++ [r])
  = <[ Role_Namespace r +:+ "/" +:+ Role_Name r
       := rulesAt (rolesByKey roles) (Role_Namespace r +:+ "/" +:+ Role_Name r)
          ++ Role_Rules r ]> (rolesByKey roles).
Proof. unfold rolesByKey. by rewrite rangeSlice_app. Qed.

Lemma clusterRolesByName_snoc clusterRoles cr :
  clusterRolesByName (clusterRoles ++ [cr])
  = <[ ClusterRole_Name cr
       := rulesAt (clusterRolesByName clusterRoles) (ClusterRole_Name cr)
          ++ ClusterRole_Rules cr ]> (clusterRolesByName clusterRoles).
Proof. unfold clusterRolesByName. by rewrite rangeSlice_app. Qed.

Lemma rulesAt_rolesByKey roles key :
  rulesAt (rolesByKey roles) key
  = roles ≫= λ r,
      if decide (Role_Namespace r +:+ "/" +:+ Role_Name r = key)
      then Role_Rules r else [].
Proof.
  induction roles as [|r roles IH] using rev_ind; [done|].
  rewrite rolesByKey_snoc, bind_app, bind_singleton. unfold rulesAt at 1.
  destruct (decide (Role_Namespace r +:+ "/" +:+ Role_Name r = key)) as [<-|Hne].
  - rewrite lookup_insert_eq. simpl. by rewrite IH.
  - rewrite lookup_insert_ne by done. rewrite app_nil_r. apply IH.
Qed.

Lemma rulesAt_clusterRolesByName clusterRoles name :
  rulesAt (clusterRolesByName clusterRoles) name
  = clusterRoles ≫= λ cr,
      if decide (ClusterRole_Name cr = name) then ClusterRole_Rules cr else [].
Proof.
  induction clusterRoles as [|cr clusterRoles IH] using rev_ind; [done|].
  rewrite clusterRolesByName_snoc, bind_app, bind_singleton. unfold rulesAt at 1.
  destruct (decide (ClusterRole_Name cr = name)) as [<-|Hne].
  - rewrite lookup_insert_eq. simpl. by rewrite IH.
  - rewrite lookup_insert_ne by done. rewrite app_nil_r. apply IH.
Qed.

(** X10. The builder files roles under the key namespace + "/" + name
    and cluster roles under their name; what a key resolves to is the
    rules of all roles with that key, one role after the other in input
    order, and no rule at all for a key no role has. *)
Theorem X10_roles_with_one_key_are_merged
    (roles : list Role) (clusterRoles : list ClusterRole) (key name : string) :
  rulesAt (rolesByKey roles) key
  = (roles ≫= λ r,
       if decide (Role_Namespace r +:+ "/" +:+ Role_Name r = key)
       then Role_Rules r else [])
  ∧ rulesAt (clusterRolesByName clusterRoles) name
    = (clusterRoles ≫= λ cr,
         if decide (ClusterRole_Name cr = name) then ClusterRole_Rules cr else []).
Proof. split; [apply rulesAt_rolesByKey|apply rulesAt_clusterRolesByName]. Qed.

(** Two roles [dev/pod-reader]: their rules are joined. *)
Example rolesByKey_sample :
  rulesAt (rolesByKey [podReader; podWatcher]) "dev/pod-reader"
  = [mkPolicyRule ["get"; "list"] [] ["pods"] [] [];
     mkPolicyRule ["watch"] [] ["pods"] [] []].
Proof. vm_compute. reflexivity. Qed.

(** ** What the snapshot builder grants *)

Lemma permsOf_AddPermissions_ne subj other perms s :
  subj ≠ other → permsOf (AddPermissions subj perms s) other = permsOf s other.
Proof.
  intros Hne. destruct perms as [|p perms]; [done|].
  rewrite AddPermissions_cons. unfold permsOf. cbn [Subjects].
  by rewrite lookup_insert_ne.
Qed.

Lemma elem_of_permsOf_AddPermissions subj other perms s p :
  p ∈ permsOf (AddPermissions subj perms s) other
  ↔ p ∈ permsOf s other ∨ (p ∈ perms ∧ subj = other).
Proof.
  destruct (decide (subj = other)) as [->|Hne].
  - rewrite permsOf_AddPermissions, elem_of_union, elem_of_list_to_set. tauto.
  - rewrite permsOf_AddPermissions_ne by done. tauto.
Qed.

(** A loop whose body adds to the permission sets adds what its passes
    add. *)
Lemma rangeSlice_adds {A : Type} (xs : list A)
    (body : A → RBACSnapshot → RBACSnapshot) (adds : A → Prop)
    (subj : SubjectKey) (p : Permission) :
  (∀ x s, p ∈ permsOf (body x s) subj ↔ p ∈ permsOf s subj ∨ adds x) →
  ∀ s, p ∈ permsOf (rangeSlice xs body s) subj
       ↔ p ∈ permsOf s subj ∨ ∃ x, x ∈ xs ∧ adds x.
Proof.
  intros Hbody. induction xs as [|x xs IH]; intros s.
  - rewrite rangeSlice_nil. split; [by left|].
    by intros [?|(? & ?%elem_of_nil & _)].
  - rewrite rangeSlice_cons, IH, Hbody. split.
    + intros [[?|?]|(y & ? & ?)]; [by left|right..].
      * exists x. split; [by left|done].
      * exists y. split; [by right|done].
    + intros [?|(y & [->|?]%elem_of_cons & ?)]; [by left; left|by left; right|].
      right. by exists y.
Qed.

Lemma elem_of_permsOf_bindRules rules ns cs subjects s subj p :
  p ∈ permsOf (bindRules rules ns cs subjects s) subj
  ↔ p ∈ permsOf s subj
    ∨ (p ∈ ExpandPolicyRulesToPermissions rules ns cs ∧ bindsSubject subjects ns subj).
Proof.
  unfold bindRules, bindsSubject.
  destruct rules as [|rule rules]; cbn [lenIsZero].
  { split; [by left|]. by intros [?|[?%elem_of_nil _]]. }
  destruct (ExpandPolicyRulesToPermissions (rule :: rules) ns cs) as [|q perms] eqn:Hperms;
    cbn [lenIsZero].
  { split; [by left|]. by intros [?|[?%elem_of_nil _]]. }
  rewrite (rangeSlice_adds subjects _
    (λ sj, p ∈ q :: perms ∧ SubjectKeyFromRBACSubject sj ns = subj)).
  - naive_solver.
  - intros sj s'. apply elem_of_permsOf_AddPermissions.
Qed.

Lemma bindRoleBinding_eq byKey byName rb s :
  bindRoleBinding byKey byName rb s
  = bindRules (roleBindingRules byKey byName rb) (RoleBinding_Namespace rb) false
      (RoleBinding_Subjects rb) s.
Proof.
  unfold bindRoleBinding, roleBindingRules. by repeat case_bool_decide.
Qed.

Lemma elem_of_permsOf_build roles clusterRoles roleBindings clusterRoleBindings subj p :
  p ∈ permsOf (buildRBACSnapshot roles clusterRoles roleBindings clusterRoleBindings) subj
  ↔ (∃ rb, rb ∈ roleBindings ∧
       p ∈ ExpandPolicyRulesToPermissions
             (roleBindingRules (rolesByKey roles) (clusterRolesByName clusterRoles) rb)
             (RoleBinding_Namespace rb) false ∧
       bindsSubject (RoleBinding_Subjects rb) (RoleBinding_Namespace rb) subj)
    ∨ (∃ crb, crb ∈ clusterRoleBindings ∧
         p ∈ ExpandPolicyRulesToPermissions
               (rulesAt (clusterRolesByName clusterRoles)
                  (RoleRef_Name (ClusterRoleBinding_RoleRef crb))) "" true ∧
         bindsSubject (ClusterRoleBinding_Subjects crb) "" subj).
Proof.
  unfold buildRBACSnapshot.
  rewrite (rangeSlice_adds clusterRoleBindings _
    (λ crb, p ∈ ExpandPolicyRulesToPermissions
                  (rulesAt (clusterRolesByName clusterRoles)
                     (RoleRef_Name (ClusterRoleBinding_RoleRef crb))) "" true ∧
            bindsSubject (ClusterRoleBinding_Subjects crb) "" subj)).
  2:{ intros crb s. apply elem_of_permsOf_bindRules. }
  rewrite (rangeSlice_adds roleBindings _
    (λ rb, p ∈ ExpandPolicyRulesToPermissions
                 (roleBindingRules (rolesByKey roles) (clusterRolesByName clusterRoles) rb)
                 (RoleBinding_Namespace rb) false ∧
           bindsSubject (RoleBinding_Subjects rb) (RoleBinding_Namespace rb) subj)).
  2:{ intros rb s. rewrite bindRoleBinding_eq. apply elem_of_permsOf_bindRules. }
  unfold permsOf at 1. cbn [Subjects]. rewrite lookup_empty. cbn [default].
  rewrite elem_of_empty. naive_solver.
Qed.

(** X11. A subject of the built snapshot holds a permission exactly when
    some RoleBinding names the subject (a ServiceAccount without namespace
    taking the binding's) and the permission is in the namespaced expansion
    of the rules the binding resolves to, or some ClusterRoleBinding names
    the subject and the permission is in the cluster-scoped expansion of
    the rules filed under its role name, whatever the kind of its role
    reference. *)
Theorem X11_buildRBACSnapshot_grants
    (roles : list Role) (clusterRoles : list ClusterRole)
    (roleBindings : list RoleBinding)
    (clusterRoleBindings : list ClusterRoleBinding)
    (subj : SubjectKey) (p : Permission) :
  p ∈ permsOf (buildRBACSnapshot roles clusterRoles roleBindings clusterRoleBindings) subj
  ↔ (∃ rb, rb ∈ roleBindings ∧
       p ∈ ExpandPolicyRulesToPermissions
             (roleBindingRules (rolesByKey roles) (clusterRolesByName clusterRoles) rb)
             (RoleBinding_Namespace rb) false ∧
       bindsSubject (RoleBinding_Subjects rb) (RoleBinding_Namespace rb) subj)
    ∨ (∃ crb, crb ∈ clusterRoleBindings ∧
         p ∈ ExpandPolicyRulesToPermissions
               (rulesAt (clusterRolesByName clusterRoles)
                  (RoleRef_Name (ClusterRoleBinding_RoleRef crb))) "" true ∧
         bindsSubject (ClusterRoleBinding_Subjects crb) "" subj).
Proof. apply elem_of_permsOf_build. Qed.

(** The sample roles and bindings, built: the two roles of one key are
    both granted, the ServiceAccount gets the binding's namespace, and the
    URL permission is cluster-wide. *)
Example buildRBACSnapshot_sample_run :
  let built := buildRBACSnapshot [podReader; podWatcher] [health]
                 [aliceReads; botReads] [aliceHealth] in
  elements (permsOf built alice)
    = [mkPermission "*" "" "" "" "get" "/healthz"; watchPods; getPods; listPods]
  ∧ elements (permsOf built (mkSubjectKey "ServiceAccount" "bot" "dev"))
    = [watchPods; getPods; listPods]
  ∧ elements (dom (Subjects built))
    = [alice; mkSubjectKey "ServiceAccount" "bot" "dev"].
Proof. vm_compute. split_and!; reflexivity. Qed.

(** ** Order of the input and of the additions *)

Lemma snapshot_eq (s1 s2 : RBACSnapshot) :
  nonEmptySets s1 → nonEmptySets s2 →
  (∀ subj, permsOf s1 subj = permsOf s2 subj) → s1 = s2.
Proof.
  intros H1 H2 Hperms. destruct s1 as [m1], s2 as [m2]. f_equal.
  apply map_eq. intros subj. specialize (Hperms subj). unfold permsOf in Hperms.
  cbn [Subjects] in *.
  destruct (m1 !! subj) as [ps1|] eqn:E1, (m2 !! subj) as [ps2|] eqn:E2;
    simpl in Hperms; [by subst| | |done].
  - by destruct (H1 subj ps1 E1).
  - by destruct (H2 subj ps2 E2).
Qed.

Lemma Expand_Permutation rules rules' ns cs :
  rules ≡ₚ rules' →
  ExpandPolicyRulesToPermissions rules ns cs ≡ₚ ExpandPolicyRulesToPermissions rules' ns cs.
Proof. intros Hperm. rewrite !Expand_bind. by rewrite Hperm. Qed.

Lemma rulesAt_rolesByKey_Permutation roles roles' key :
  roles ≡ₚ roles' → rulesAt (rolesByKey roles) key ≡ₚ rulesAt (rolesByKey roles') key.
Proof. intros Hperm. rewrite !rulesAt_rolesByKey. by rewrite Hperm. Qed.

Lemma rulesAt_clusterRolesByName_Permutation crs crs' name :
  crs ≡ₚ crs' →
  rulesAt (clusterRolesByName crs) name ≡ₚ rulesAt (clusterRolesByName crs') name.
Proof. intros Hperm. rewrite !rulesAt_clusterRolesByName. by rewrite Hperm. Qed.

Lemma roleBindingRules_Permutation roles roles' crs crs' rb :
  roles ≡ₚ roles' → crs ≡ₚ crs' →
  roleBindingRules (rolesByKey roles) (clusterRolesByName crs) rb
  ≡ₚ roleBindingRules (rolesByKey roles') (clusterRolesByName crs') rb.
Proof.
  intros Hroles Hcrs. unfold roleBindingRules. repeat case_bool_decide; [| |done].
  - by apply rulesAt_rolesByKey_Permutation.
  - by apply rulesAt_clusterRolesByName_Permutation.
Qed.

(** X12. The built snapshot does not depend on the order in which the
    roles, cluster roles, role bindings and cluster role bindings are
    listed. *)
Theorem X12_buildRBACSnapshot_ignores_input_order
    (roles roles' : list Role) (clusterRoles clusterRoles' : list ClusterRole)
    (roleBindings roleBindings' : list RoleBinding)
    (clusterRoleBindings clusterRoleBindings' : list ClusterRoleBinding) :
  roles ≡ₚ roles' → clusterRoles ≡ₚ clusterRoles' →
  roleBindings ≡ₚ roleBindings' → clusterRoleBindings ≡ₚ clusterRoleBindings' →
  buildRBACSnapshot roles clusterRoles roleBindings clusterRoleBindings
  = buildRBACSnapshot roles' clusterRoles' roleBindings' clusterRoleBindings'.
Proof.
  intros Hroles Hcrs Hrbs Hcrbs.
  apply snapshot_eq; try apply Built_nonEmptySets, buildRBACSnapshot_Built.
  intros subj. apply set_eq. intros p. rewrite !elem_of_permsOf_build.
  assert (Hrb : ∀ rb,
    p ∈ ExpandPolicyRulesToPermissions
          (roleBindingRules (rolesByKey roles) (clusterRolesByName clusterRoles) rb)
          (RoleBinding_Namespace rb) false
    ↔ p ∈ ExpandPolicyRulesToPermissions
            (roleBindingRules (rolesByKey roles') (clusterRolesByName clusterRoles') rb)
            (RoleBinding_Namespace rb) false).
  { intros rb.
    by rewrite (Expand_Permutation _ _ _ _
                  (roleBindingRules_Permutation roles roles' clusterRoles clusterRoles'
                     rb Hroles Hcrs)). }
  assert (Hcrb : ∀ name,
    p ∈ ExpandPolicyRulesToPermissions (rulesAt (clusterRolesByName clusterRoles) name) "" true
    ↔ p ∈ ExpandPolicyRulesToPermissions
            (rulesAt (clusterRolesByName clusterRoles') name) "" true).
  { intros name.
    by rewrite (Expand_Permutation _ _ _ _
                  (rulesAt_clusterRolesByName_Permutation clusterRoles clusterRoles'
                     name Hcrs)). }
  split.
  - intros [(rb & Hin & Hp & Hs)|(crb & Hin & Hp & Hs)]; [left|right].
    + exists rb. rewrite <-Hrbs, <-Hrb. done.
    + exists crb. rewrite <-Hcrbs, <-Hcrb. done.
  - intros [(rb & Hin & Hp & Hs)|(crb & Hin & Hp & Hs)]; [left|right].
    + exists rb. rewrite Hrbs, Hrb. done.
    + exists crb. rewrite Hcrbs, Hcrb. done.
Qed.

(** The sample roles and bindings, each list reversed. *)
Lemma X12_buildRBACSnapshot_order_witness :
  buildRBACSnapshot [podReader; podWatcher] [health] [aliceReads; botReads] [aliceHealth]
  = buildRBACSnapshot [podWatcher; podReader] [health] [botReads; aliceReads] [aliceHealth].
Proof.
  apply X12_buildRBACSnapshot_ignores_input_order;
    [apply perm_swap|reflexivity|apply perm_swap|reflexivity].
Defined.

(** X13. Additions compose and commute: adding a list and then another
    to a subject is adding their concatenation, and two additions, to the
    same subject or to different ones, give the same snapshot in either
    order. *)
Theorem X13_AddPermissions_compose_and_commute
    (s : RBACSnapshot) (subj1 subj2 : SubjectKey) (perms1 perms2 : list Permission) :
  AddPermissions subj1 perms2 (AddPermissions subj1 perms1 s)
    = AddPermissions subj1 (perms1 ++ perms2) s
  ∧ AddPermissions subj2 perms2 (AddPermissions subj1 perms1 s)
    = AddPermissions subj1 perms1 (AddPermissions subj2 perms2 s).
Proof.
  split.
  - destruct perms1 as [|p1 perms1]; [done|].
    destruct perms2 as [|p2 perms2]; [by rewrite app_nil_r|].
    rewrite (AddPermissions_cons subj1 p2 perms2 (AddPermissions _ _ _)).
    rewrite permsOf_AddPermissions.
    change ((p1 :: perms1) ++ p2 :: perms2) with (p1 :: (perms1 ++ p2 :: perms2)).
    rewrite !AddPermissions_cons. cbn [Subjects]. rewrite insert_insert_eq.
    do 2 f_equal. apply set_eq. intros q.
    rewrite !elem_of_union, !elem_of_list_to_set, !elem_of_cons, elem_of_app, elem_of_cons.
    tauto.
  - destruct perms1 as [|p1 perms1]; [done|].
    destruct perms2 as [|p2 perms2]; [done|].
    rewrite (AddPermissions_cons subj2 p2 perms2 (AddPermissions _ _ _)).
    rewrite (AddPermissions_cons subj1 p1 perms1 (AddPermissions _ _ _)).
    destruct (decide (subj1 = subj2)) as [->|Hne].
    + rewrite !permsOf_AddPermissions, !AddPermissions_cons. cbn [Subjects].
      rewrite !insert_insert_eq. do 2 f_equal. apply set_eq. intros q.
      rewrite !elem_of_union. tauto.
    + rewrite !permsOf_AddPermissions_ne by done.
      rewrite !AddPermissions_cons. cbn [Subjects]. f_equal.
      by apply insert_insert_ne.
Qed.

(** ** Adding permissions, then diffing *)

Lemma union_difference_self (L P : gset Permission) : (L ∪ P) ∖ P = L ∖ P.
Proof.
  apply set_eq. intros q. rewrite !elem_of_difference, elem_of_union. tauto.
Qed.

Lemma difference_union_empty (L P : gset Permission) : P ∖ (L ∪ P) = ∅.
Proof.
  apply set_eq. intros q. rewrite elem_of_difference, elem_of_union, elem_of_empty.
  tauto.
Qed.

Lemma difference_self_empty (P : gset Permission) : P ∖ P = ∅.
Proof.
  apply set_eq. intros q. rewrite elem_of_difference, elem_of_empty. tauto.
Qed.

Lemma difference_empty_subseteq (L P : gset Permission) : L ∖ P = ∅ ↔ L ⊆ P.
Proof.
  split.
  - intros Hempty q Hq. destruct (decide (q ∈ P)) as [|Hn]; [done|].
    assert (q ∈ L ∖ P) as Hin by (by apply elem_of_difference).
    rewrite Hempty in Hin. by apply elem_of_empty in Hin.
  - intros Hsub. apply set_eq. intros q.
    rewrite elem_of_difference, elem_of_empty. split; [|done].
    intros [Hq Hn]. apply Hn, Hsub, Hq.
Qed.

(** X14. Diffing a snapshot against itself with permissions added to one
    subject, under every admissible schedule: nothing is missing, no other
    subject has anything extra, and the subject's extra permissions are
    exactly the added ones it did not hold before, the subject being absent
    from Extra when it held them all. *)
Theorem X14_added_permissions_show_up_as_extra
    (sch : RBACSchedule) (s : RBACSnapshot) (subj : SubjectKey)
    (perms : list Permission) :
  RBACSchedule_ok sch s (AddPermissions subj perms s) →
  let r := DiffRBAC sch s (AddPermissions subj perms s) in
  RBACDrift_Missing r = ∅
  ∧ (∀ other, other ≠ subj → RBACDrift_Extra r !! other = None)
  ∧ match RBACDrift_Extra r !! subj with
    | Some extras =>
        (list_to_set extras : gset Permission) = list_to_set perms ∖ permsOf s subj
    | None => (list_to_set perms : gset Permission) ⊆ permsOf s subj
    end.
Proof.
  intros Hok r. unfold r. pose proof Hok as [_ Hperms]. split_and!.
  - apply map_eq. intros k. rewrite DiffRBAC_Missing_lookup, lookup_empty by done.
    destruct (Hperms k) as [_ Hbase]. apply keptAt_None_iff; [done|].
    destruct (decide (subj = k)) as [->|Hne].
    + rewrite permsOf_AddPermissions. apply difference_union_empty.
    + rewrite permsOf_AddPermissions_ne by done. apply difference_self_empty.
  - intros other Hne. rewrite DiffRBAC_Extra_lookup by done.
    destruct (Hperms other) as [Hlive _]. apply keptAt_None_iff; [done|].
    rewrite permsOf_AddPermissions_ne by done. apply difference_self_empty.
  - rewrite DiffRBAC_Extra_lookup by done.
    destruct (Hperms subj) as [Hlive _].
    pose proof (keptAt_difference _ _ (permsOf s subj) Hlive) as Hk.
    rewrite permsOf_AddPermissions in Hk. rewrite permsOf_AddPermissions.
    rewrite union_difference_self in Hk.
    destruct (keptAt _ _ _) as [extras|].
    + by destruct Hk as (_ & _ & ->).
    + by apply difference_empty_subseteq.
Qed.

(** Alice, who may get pods, is given get, list and watch. *)
Lemma X14_added_permissions_witness :
  let r := DiffRBAC
             (RBACSchedule_forward snapshotGet
                (AddPermissions alice [getPods; listPods; watchPods] snapshotGet))
             snapshotGet
             (AddPermissions alice [getPods; listPods; watchPods] snapshotGet) in
  RBACDrift_Missing r = ∅
  ∧ (∀ other, other ≠ alice → RBACDrift_Extra r !! other = None)
  ∧ match RBACDrift_Extra r !! alice with
    | Some extras =>
        (list_to_set extras : gset Permission)
        = list_to_set [getPods; listPods; watchPods] ∖ permsOf snapshotGet alice
    | None =>
        (list_to_set [getPods; listPods; watchPods] : gset Permission)
        ⊆ permsOf snapshotGet alice
    end.
Proof.
  apply (X14_added_permissions_show_up_as_extra
           (RBACSchedule_forward snapshotGet
              (AddPermissions alice [getPods; listPods; watchPods] snapshotGet))
           snapshotGet alice [getPods; listPods; watchPods]).
  split; [reflexivity|]. intros subj. split; reflexivity.
Defined.

(** ** Filtering NetworkPolicy and PSA drift for the report *)

Lemma appendUnlessSystem_filter {A : Type} (ignoreSystem : bool)
    (namespaceOf : A → string) (src dst : list A) :
  appendUnlessSystem ignoreSystem namespaceOf src dst
  = dst ++ filter (λ x, keptNamespace ignoreSystem (namespaceOf x)) src.
Proof.
  unfold appendUnlessSystem. revert dst.
  induction src as [|x src IH]; intros dst.
  - by rewrite rangeSlice_nil, app_nil_r.
  - rewrite rangeSlice_cons, IH, filter_cons.
    destruct (decide (keptNamespace ignoreSystem (namespaceOf x))) as [Hk|Hk];
      unfold keptNamespace in Hk.
    + rewrite Hk. by rewrite <-(assoc_L (++)).
    + by apply not_false_is_true in Hk as ->.
Qed.

Lemma StronglySorted_keeps_filter {A : Type} (R : relation A) (P : A → Prop)
    `{∀ x, Decision (P x)} (l : list A) :
  StronglySorted R l → StronglySorted R (filter P l).
Proof.
  induction 1 as [|x l Hl IH Hx]; [constructor|].
  rewrite filter_cons. destruct (decide (P x)); [|done].
  constructor; [done|]. apply Forall_forall. intros y [_ Hy]%list_elem_of_filter.
  by eapply (proj1 (Forall_forall _ _) Hx).
Qed.

Lemma Sorted_keeps_filter {A : Type} (R : relation A) `{!Transitive R} (P : A → Prop)
    `{∀ x, Decision (P x)} (l : list A) :
  Sorted R l → Sorted R (filter P l).
Proof.
  intros Hl. apply StronglySorted_Sorted, StronglySorted_keeps_filter.
  by apply Sorted_StronglySorted.
Qed.

#[local] Instance refLe_trans : Transitive refLe.
Proof. intros a b c. apply nsNameLe_trans. Qed.

#[local] Instance changeLe_trans : Transitive changeLe.
Proof. intros a b c. apply nsNameLe_trans. Qed.

#[local] Instance entryLe_trans : Transitive entryLe.
Proof. intros a b c. unfold entryLe. by etrans. Qed.

Lemma filterNetPolDriftToJSON_eq (d : NetPolDrift) (opts : Options) :
  filterNetPolDriftToJSON d opts
  = mkNetPolDriftJSON
      (if decide (Options_DriftType opts = "missing" ∨ Options_DriftType opts = "both")
       then filter (λ ref, keptNamespace (Options_IgnoreSystem opts) (NetPolRef_Namespace ref))
              (NetPolDrift_Missing d)
       else [])
      (if decide (Options_DriftType opts = "extra" ∨ Options_DriftType opts = "both")
       then filter (λ ref, keptNamespace (Options_IgnoreSystem opts) (NetPolRef_Namespace ref))
              (NetPolDrift_Extra d)
       else [])
      (filter (λ ch, keptNamespace (Options_IgnoreSystem opts) (NetPolChange_Namespace ch))
         (NetPolDrift_Changed d)).
Proof.
  unfold filterNetPolDriftToJSON.
  repeat case_bool_decide; repeat case_decide; try tauto;
    cbn [netPolDriftJSON_Missing netPolDriftJSON_Extra netPolDriftJSON_Changed];
    by rewrite !appendUnlessSystem_filter.
Qed.

(** X15. The NetworkPolicy section of the report, built from the
    differ's result: Missing and Extra are the differ's lists without the
    references skipped for a system namespace, each present only under the
    drift types that select it (of any other drift type than "extra",
    "missing" and "both" neither is); Changed is the differ's list without
    the skipped changes under every drift type; all three are still sorted
    by (namespace, name); and with [IgnoreSystem] nothing of [kube-system]
    or [kube-public] is left. *)
Theorem X15_filterNetPolDriftToJSON_keeps_order_and_changes `{sorter : SliceSorter}
    (keyOrder : list string) (baseline live : NetPolSnapshot) (opts : Options) :
  let d := DiffNetworkPolicies keyOrder baseline live in
  let j := filterNetPolDriftToJSON d opts in
  let kept ns := keptNamespace (Options_IgnoreSystem opts) ns in
  netPolDriftJSON_Missing j
    = (if decide (Options_DriftType opts = "missing" ∨ Options_DriftType opts = "both")
       then filter (λ ref, kept (NetPolRef_Namespace ref)) (NetPolDrift_Missing d)
       else [])
  ∧ netPolDriftJSON_Extra j
    = (if decide (Options_DriftType opts = "extra" ∨ Options_DriftType opts = "both")
       then filter (λ ref, kept (NetPolRef_Namespace ref)) (NetPolDrift_Extra d)
       else [])
  ∧ netPolDriftJSON_Changed j
    = filter (λ ch, kept (NetPolChange_Namespace ch)) (NetPolDrift_Changed d)
  ∧ Sorted refLe (netPolDriftJSON_Missing j)
  ∧ Sorted refLe (netPolDriftJSON_Extra j)
  ∧ Sorted changeLe (netPolDriftJSON_Changed j)
  ∧ (Options_IgnoreSystem opts = true →
     (∀ ref, ref ∈ netPolDriftJSON_Missing j ∨ ref ∈ netPolDriftJSON_Extra j →
        NetPolRef_Namespace ref ≠ "kube-system" ∧ NetPolRef_Namespace ref ≠ "kube-public")
     ∧ (∀ ch, ch ∈ netPolDriftJSON_Changed j →
          NetPolChange_Namespace ch ≠ "kube-system" ∧
          NetPolChange_Namespace ch ≠ "kube-public")).
Proof.
  intros d j kept. unfold j. rewrite filterNetPolDriftToJSON_eq.
  cbn [netPolDriftJSON_Missing netPolDriftJSON_Extra netPolDriftJSON_Changed].
  destruct (DiffNetworkPolicies_sorted keyOrder baseline live) as (SM & SE & SC).
  assert (Hsys : ∀ ns, keptNamespace true ns → ns ≠ "kube-system" ∧ ns ≠ "kube-public").
  { intros ns. unfold keptNamespace, isSystemNamespace. simpl.
    case_bool_decide; [done|]. intros _. tauto. }
  split_and!; try done.
  - case_decide; [|constructor]. apply Sorted_keeps_filter; [apply _|done].
  - case_decide; [|constructor]. apply Sorted_keeps_filter; [apply _|done].
  - apply Sorted_keeps_filter; [apply _|done].
  - intros Hign. unfold kept. rewrite Hign. split.
    + intros ref [Hin|Hin]; case_decide; try (by apply elem_of_nil in Hin);
        apply list_elem_of_filter in Hin as [Hk _]; by apply Hsys.
    + intros ch Hin. apply list_elem_of_filter in Hin as [Hk _]. by apply Hsys.
Qed.

(** A sorted slice whose elements are equal when they compare equal is
    left as it is. *)
Lemma sortSlice_sorted_id `{sorter : SliceSorter} {A : Type} (less : A → A → bool)
    (le : relation A) (l : list A) :
  (∀ a b, less b a = false ↔ le a b) → StrictWeakOrder less →
  Sorted le l →
  (∀ x y, x ∈ l → y ∈ l → le x y → le y x → x = y) →
  sortSlice less l = l.
Proof.
  intros Hle Hswo Hsorted Heq.
  assert (Transitive le) as Htrans.
  { intros a b c Hab Hbc. apply Hle. apply Hle in Hab, Hbc.
    by apply (swo_negtrans less Hswo a b c). }
  apply (Sorted_unique_strong le); [| |done|apply sortSlice_perm].
  - intros x y Hx Hy. apply Heq; [|done]. by apply (elem_of_sortSlice less l x).
  - by apply (sortSlice_Sorted_le less le).
Qed.

Section psa_report.
Context `{sorter : SliceSorter}.
Context (sch : PSASchedule) (baseline live : list NamespacePSA).
Context (Hok : PSASchedule_ok sch baseline live).
Context (opts : Options).

Local Abbreviation d := (PSABucketed.DiffPSA sch baseline live).

Lemma DiffPSA_Extra_functional e1 e2 :
  e1 ∈ PSABucketed.Extra d → e2 ∈ PSABucketed.Extra d →
  entryLe e1 e2 → entryLe e2 e1 → e1 = e2.
Proof using Hok.
  rewrite DiffPSA_eq. cbn [PSABucketed.Extra]. rewrite !sortSlice_perm.
  intros H1 H2 H12 H21.
  apply (collected_Extra_functional sch baseline live Hok); [done..|].
  by apply (anti_symm String.le).
Qed.

Lemma DiffPSA_Missing_functional e1 e2 :
  e1 ∈ PSABucketed.Missing d → e2 ∈ PSABucketed.Missing d →
  entryLe e1 e2 → entryLe e2 e1 → e1 = e2.
Proof using Hok.
  rewrite DiffPSA_eq. cbn [PSABucketed.Missing]. rewrite !sortSlice_perm.
  intros H1 H2 H12 H21.
  apply (collected_Missing_functional sch baseline live Hok); [done..|].
  by apply (anti_symm String.le).
Qed.

Lemma addFiltered_Extra :
  addFiltered opts [] (PSABucketed.Extra d)
  = filter (λ e, keptNamespace (Options_IgnoreSystem opts) (PSADriftEntry_Namespace e))
      (PSABucketed.Extra d).
Proof using Hok.
  unfold addFiltered. rewrite appendUnlessSystem_filter. cbn [app].
  apply (sortSlice_sorted_id entryLess entryLe);
    [apply entryLess_false|apply entryLess_swo| |].
  - apply Sorted_keeps_filter; [apply _|]. by apply DiffPSA_sorted.
  - intros x y [_ Hx]%list_elem_of_filter [_ Hy]%list_elem_of_filter.
    by apply DiffPSA_Extra_functional.
Qed.

Lemma addFiltered_Missing :
  addFiltered opts [] (PSABucketed.Missing d)
  = filter (λ e, keptNamespace (Options_IgnoreSystem opts) (PSADriftEntry_Namespace e))
      (PSABucketed.Missing d).
Proof using Hok.
  unfold addFiltered. rewrite appendUnlessSystem_filter. cbn [app].
  apply (sortSlice_sorted_id entryLess entryLe);
    [apply entryLess_false|apply entryLess_swo| |].
  - apply Sorted_keeps_filter; [apply _|]. by apply DiffPSA_sorted.
  - intros x y [_ Hx]%list_elem_of_filter [_ Hy]%list_elem_of_filter.
    by apply DiffPSA_Missing_functional.
Qed.

End psa_report.

(** X16. The PSA section of the report, built from the result of the
    differ with two buckets under an admissible schedule: sorting again
    changes nothing, so Extra is the differ's Extra list without the
    entries skipped for a system namespace, under every drift type but
    "missing" (an unknown type counts as "extra"), and Missing is the
    differ's Missing list without the skipped entries under "missing" and
    "both", and empty otherwise. *)
Theorem X16_psaDriftToJSON_filters_without_reordering `{sorter : SliceSorter}
    (sch : PSASchedule) (baseline live : list NamespacePSA) (opts : Options) :
  PSASchedule_ok sch baseline live →
  let d := PSABucketed.DiffPSA sch baseline live in
  let j := psaDriftToJSON d opts in
  let kept e := keptNamespace (Options_IgnoreSystem opts) (PSADriftEntry_Namespace e) in
  psaDriftJSON_Extra j
    = (if decide (Options_DriftType opts = "missing") then []
       else filter kept (PSABucketed.Extra d))
  ∧ psaDriftJSON_Missing j
    = (if decide (Options_DriftType opts = "missing" ∨ Options_DriftType opts = "both")
       then filter kept (PSABucketed.Missing d) else []).
Proof.
  intros Hok d j kept. subst j d kept. unfold psaDriftToJSON.
  repeat case_bool_decide; repeat case_decide;
    cbn [psaDriftJSON_Extra psaDriftJSON_Missing];
    rewrite ?addFiltered_Extra, ?addFiltered_Missing by done;
    try done; try congruence; try tauto.
  all: exfalso; intuition congruence.
Qed.

(** The sample snapshots reported with [optionsBoth]. *)
Lemma X15_filterNetPolDriftToJSON_witness :
  let j := filterNetPolDriftToJSON
             (DiffNetworkPolicies (sorter := mergeSorter)
                (elements (netpolKeys netpolBaseline netpolLive))
                netpolBaseline netpolLive) optionsBoth in
  (∀ ref, ref ∈ netPolDriftJSON_Missing j ∨ ref ∈ netPolDriftJSON_Extra j →
     NetPolRef_Namespace ref ≠ "kube-system" ∧ NetPolRef_Namespace ref ≠ "kube-public")
  ∧ (∀ ch, ch ∈ netPolDriftJSON_Changed j →
       NetPolChange_Namespace ch ≠ "kube-system" ∧
       NetPolChange_Namespace ch ≠ "kube-public").
Proof.
  pose proof (X15_filterNetPolDriftToJSON_keeps_order_and_changes (sorter := mergeSorter)
                (elements (netpolKeys netpolBaseline netpolLive))
                netpolBaseline netpolLive optionsBoth) as Hthm.
  destruct Hthm as (_ & _ & _ & _ & _ & _ & Hsys).
  apply Hsys. reflexivity.
Defined.

(** The sample cluster reported with [optionsBoth]. *)
Lemma X16_psaDriftToJSON_witness :
  let d := PSABucketed.DiffPSA (sorter := mergeSorter)
             (PSASchedule_forward psaBaseline psaLive) psaBaseline psaLive in
  let j := psaDriftToJSON (sorter := mergeSorter) d optionsBoth in
  let kept e := keptNamespace (Options_IgnoreSystem optionsBoth)
                  (PSADriftEntry_Namespace e) in
  psaDriftJSON_Extra j
    = (if decide (Options_DriftType optionsBoth = "missing") then []
       else filter kept (PSABucketed.Extra d))
  ∧ psaDriftJSON_Missing j
    = (if decide (Options_DriftType optionsBoth = "missing"
                  ∨ Options_DriftType optionsBoth = "both")
       then filter kept (PSABucketed.Missing d) else []).
Proof.
  apply (X16_psaDriftToJSON_filters_without_reordering (sorter := mergeSorter)
           (PSASchedule_forward psaBaseline psaLive) psaBaseline psaLive optionsBoth).
  split; reflexivity.
Defined.

(** ** Filtering RBAC drift for the report *)

Lemma subjectLess_false a b : subjectLess b a = false ↔ subjectLe a b.
Proof. apply strLess_false. Qed.

Lemma permissionLess_false a b : permissionLess b a = false ↔ permissionLe a b.
Proof. apply strLess_false. Qed.

Lemma subjectLess_swo : StrictWeakOrder subjectLess.
Proof.
  apply (StrictWeakOrder_of_le _ subjectLe).
  - intros a b. apply subjectLess_false.
  - intros a b. apply (total String.le).
  - intros a b c. unfold subjectLe. by etrans.
Qed.

Lemma permissionLess_swo : StrictWeakOrder permissionLess.
Proof.
  apply (StrictWeakOrder_of_le _ permissionLe).
  - intros a b. apply permissionLess_false.
  - intros a b. apply (total String.le).
  - intros a b c. unfold permissionLe. by etrans.
Qed.

#[local] Instance subjectLe_trans : Transitive subjectLe.
Proof. intros a b c. unfold subjectLe. by etrans. Qed.

Section rbac_report.
Context {Regexp : Type}.
Context (strings_ToLower : string → string).
Context (strings_TrimSpace : string → string).
Context (regexp_Compile : string → option Regexp).
Context (Regexp_MatchString : Regexp → string → bool).
Context `{sorter : SliceSorter}.
Context (opts : Options).

Local Abbreviation skipped :=
  (subjectSkipped strings_ToLower strings_TrimSpace regexp_Compile Regexp_MatchString opts).
Local Abbreviation toSlice :=
  (subjectsToSlice strings_ToLower strings_TrimSpace regexp_Compile Regexp_MatchString opts).

(** The subject is reported: it passes the filters and its list is not
    empty. *)
Local Abbreviation reportedIn side subj :=
  (skipped subj = false ∧ default [] (side !! subj) ≠ []).

Lemma subjectsToSlice_eq (side : gmap SubjectKey (list Permission))
    (order : list SubjectKey) :
  toSlice side order
  = sortSlice subjectLess order ≫= λ subj,
      if skipped subj then []
      else if lenIsZero (default [] (side !! subj)) then []
      else [mkSubjectPermissions subj
              (sortSlice permissionLess (default [] (side !! subj)))].
Proof.
  unfold subjectsToSlice, rangeMap.
  rewrite (rangeSlice_emit order _ (λ s, [s])) by done.
  replace (order ≫= λ s, [s]) with order.
  2:{ induction order as [|s order IH]; [done|]. rewrite bind_cons. simpl. by f_equal. }
  rewrite (rangeSlice_emit _ _
    (λ subj, if skipped subj then []
             else if lenIsZero (default [] (side !! subj)) then []
             else [mkSubjectPermissions subj
                     (sortSlice permissionLess (default [] (side !! subj)))])).
  - done.
  - intros subj out. destruct (skipped subj); [by rewrite app_nil_r|].
    destruct (lenIsZero _); [by rewrite app_nil_r|done].
Qed.

Lemma subjectsToSlice_subjects (side : gmap SubjectKey (list Permission))
    (order : list SubjectKey) :
  Subject_of <$> toSlice side order
  = filter (λ subj, reportedIn side subj) (sortSlice subjectLess order).
Proof.
  rewrite subjectsToSlice_eq.
  induction (sortSlice subjectLess order) as [|subj l IH]; [done|].
  rewrite bind_cons, fmap_app, IH, filter_cons.
  destruct (skipped subj) eqn:Hs.
  { rewrite decide_False; [done|]. by intros [? _]. }
  destruct (default [] (side !! subj)) as [|p perms] eqn:Hp; cbn [lenIsZero].
  { rewrite decide_False; [done|]. by intros [_ ?]. }
  by rewrite decide_True.
Qed.

Lemma elem_of_subjectsToSlice (side : gmap SubjectKey (list Permission))
    (order : list SubjectKey) sp :
  sp ∈ toSlice side order ↔
  Subject_of sp ∈ order ∧ reportedIn side (Subject_of sp) ∧
  Permissions_of sp = sortSlice permissionLess (default [] (side !! Subject_of sp)).
Proof.
  rewrite subjectsToSlice_eq, list_elem_of_bind. split.
  - intros (subj & Hsp & Hin).
    apply (proj1 (elem_of_sortSlice subjectLess order subj)) in Hin.
    destruct (skipped subj) eqn:Hs; [by apply elem_of_nil in Hsp|].
    destruct (default [] (side !! subj)) as [|p perms] eqn:Hp; cbn [lenIsZero] in Hsp;
      [by apply elem_of_nil in Hsp|].
    apply list_elem_of_singleton in Hsp as ->. cbn [Subject_of Permissions_of].
    rewrite Hp. by split_and!.
  - intros (Hin & [Hs Hne] & Hperms). exists (Subject_of sp). split.
    + rewrite Hs. destruct (default [] (side !! Subject_of sp)) eqn:Hp; [done|].
      cbn [lenIsZero]. apply list_elem_of_singleton. destruct sp. simpl in *. by subst.
    + by apply (proj2 (elem_of_sortSlice subjectLess order (Subject_of sp))).
Qed.

End rbac_report.

(** X17. The two slices of RBAC drift for the report, under every
    admissible order of ranging over the two maps: a subject is listed on a
    side exactly when the map of that side holds a non-empty list for it
    and it passes the filters; its permissions are those of the map's list,
    rearranged so that they are sorted by their printed form; each slice
    lists no subject twice and is sorted by the printed subject; and with
    [IgnoreSystem] no system subject is listed. *)
Theorem X17_filterRBACDriftToSlices_keeps_permissions
    {Regexp : Type} (strings_ToLower strings_TrimSpace : string → string)
    (regexp_Compile : string → option Regexp)
    (Regexp_MatchString : Regexp → string → bool)
    `{sorter : SliceSorter}
    (extraOrder missingOrder : list SubjectKey) (d : RBACDrift) (opts : Options) :
  sliceOrders_ok extraOrder missingOrder d →
  let out := filterRBACDriftToSlices strings_ToLower strings_TrimSpace regexp_Compile
               Regexp_MatchString extraOrder missingOrder d opts in
  let skipped := subjectSkipped strings_ToLower strings_TrimSpace regexp_Compile
                   Regexp_MatchString opts in
  let describes (side : gmap SubjectKey (list Permission))
        (slice : list subjectPermissions) :=
    (∀ subj, subj ∈ Subject_of <$> slice ↔
       ∃ perms, side !! subj = Some perms ∧ perms ≠ [] ∧ skipped subj = false)
    ∧ (∀ sp, sp ∈ slice →
         ∃ perms, side !! Subject_of sp = Some perms ∧
                  Permissions_of sp ≡ₚ perms ∧
                  Sorted permissionLe (Permissions_of sp))
    ∧ NoDup (Subject_of <$> slice)
    ∧ Sorted subjectLe (Subject_of <$> slice)
    ∧ (Options_IgnoreSystem opts = true →
       ∀ sp, sp ∈ slice → isSystemSubject (Subject_of sp) = false) in
  describes (RBACDrift_Extra d) out.1 ∧ describes (RBACDrift_Missing d) out.2.
Proof.
  intros [HE HM] out skipped describes.
  assert (Hside : ∀ side order,
    order ≡ₚ elements (dom side) →
    describes side (subjectsToSlice strings_ToLower strings_TrimSpace regexp_Compile
                      Regexp_MatchString opts side order)).
  { intros side order Horder. unfold describes. split_and!.
    - intros subj. rewrite subjectsToSlice_subjects, list_elem_of_filter.
      rewrite (elem_of_sortSlice subjectLess), Horder, elem_of_elements, elem_of_dom.
      split.
      + intros [[Hs Hne] [perms Hperms]]. exists perms. rewrite Hperms in Hne. done.
      + intros (perms & Hperms & Hne & Hs). rewrite Hperms. split; [done|by eexists].
    - intros sp (Hin & [Hs Hne] & Hperms)%elem_of_subjectsToSlice.
      destruct (side !! Subject_of sp) as [perms|] eqn:Hlook; [|done].
      exists perms. cbn [default] in Hperms. rewrite Hperms. split_and!; [done| |].
      + apply sortSlice_perm.
      + apply (sortSlice_Sorted_le permissionLess permissionLe);
          [apply permissionLess_false|apply permissionLess_swo].
    - rewrite subjectsToSlice_subjects. apply NoDup_filter.
      rewrite sortSlice_perm, Horder. apply NoDup_elements.
    - rewrite subjectsToSlice_subjects. apply Sorted_keeps_filter; [apply _|].
      apply (sortSlice_Sorted_le subjectLess subjectLe);
        [apply subjectLess_false|apply subjectLess_swo].
    - intros Hign sp (_ & [Hs _] & _)%elem_of_subjectsToSlice.
      unfold subjectSkipped in Hs. rewrite Hign in Hs. cbn [andb] in Hs.
      by destruct (isSystemSubject (Subject_of sp)). }
  split; apply Hside; done.
Qed.

(** The sample drift reported with [optionsBoth] and the stand-ins: the
    controller of [kube-system] is not listed. *)
Lemma X17_filterRBACDriftToSlices_witness :
  let out := filterRBACDriftToSlices (sorter := mergeSorter)
               (λ s, s) (λ s, s) toyCompile toyMatch
               (elements (dom (RBACDrift_Extra sampleDrift)))
               (elements (dom (RBACDrift_Missing sampleDrift)))
               sampleDrift optionsBoth in
  NoDup (Subject_of <$> out.1)
  ∧ (∀ sp, sp ∈ out.1 → isSystemSubject (Subject_of sp) = false).
Proof.
  pose proof (X17_filterRBACDriftToSlices_keeps_permissions (sorter := mergeSorter)
                (λ s, s) (λ s, s) toyCompile toyMatch
                (elements (dom (RBACDrift_Extra sampleDrift)))
                (elements (dom (RBACDrift_Missing sampleDrift)))
                sampleDrift optionsBoth) as Hthm.
  destruct Hthm as [(_ & _ & Hnd & _ & Hsys) _].
  - split; reflexivity.
  - split; [exact Hnd|]. apply Hsys. reflexivity.
Defined.

(** The sample drift, computed: Alice's permissions come out sorted. *)
Example filterRBACDriftToSlices_sample_run :
  filterRBACDriftToSlices (sorter := mergeSorter)
    (λ s, s) (λ s, s) toyCompile toyMatch
    (elements (dom (RBACDrift_Extra sampleDrift)))
    (elements (dom (RBACDrift_Missing sampleDrift)))
    sampleDrift optionsBoth
  = ([mkSubjectPermissions alice [listPods; watchPods]], []).
Proof. vm_compute. reflexivity. Qed.

(** ** From namespace objects to PSA drift *)

Lemma labelLevel_lookup (ns : Namespace) (key : string) :
  labelLevel ns key = default "" (Namespace_Labels ns !! key).
Proof. unfold labelLevel. by case_bool_decide. Qed.

Lemma byNamespace_namespaceToPSA (objs : list Namespace) (o : Namespace) :
  NoDup (Namespace_Name <$> objs) → o ∈ objs →
  byNamespace (namespaceToPSA <$> objs) !! Namespace_Name o = Some (namespaceToPSA o).
Proof.
  intros Hnd Hin. apply byNamespace_lookup_unique.
  - rewrite <-list_fmap_compose.
    replace (NamespacePSA_Namespace ∘ namespaceToPSA) with Namespace_Name; done.
  - split; [|done]. apply list_elem_of_fmap. by exists o.
Qed.

(** X18. From namespace objects to drift: the level of a namespace is
    its [pod-security.kubernetes.io/enforce] label, the empty level when
    the label is absent or empty.  So when a namespace (names being unique
    in each list) carries a known enforce level in baseline and no label,
    an empty one or an unknown one in live, the differ with two buckets
    reports it once, as "weaker", in Extra. *)
Theorem X18_dropped_enforce_label_is_weaker `{sorter : SliceSorter}
    (sch : PSASchedule) (baseline live : list Namespace) (b l : Namespace) :
  let level o := default "" (Namespace_Labels o !! "pod-security.kubernetes.io/enforce") in
  let r := PSABucketed.DiffPSA sch (namespaceToPSA <$> baseline) (namespaceToPSA <$> live) in
  Enforce (namespaceToPSA b) = level b
  ∧ (PSASchedule_ok sch (namespaceToPSA <$> baseline) (namespaceToPSA <$> live) →
     NoDup (Namespace_Name <$> baseline) → NoDup (Namespace_Name <$> live) →
     b ∈ baseline → l ∈ live → Namespace_Name b = Namespace_Name l →
     PSABucketed.psaRank (level b) ≠ 0%Z → PSABucketed.psaRank (level l) = 0%Z →
     entriesOf (Namespace_Name b) (PSABucketed.Extra r)
       = [mkPSADriftEntry (Namespace_Name b) (level b) (level l) "weaker"]
     ∧ entriesOf (Namespace_Name b) (PSABucketed.Missing r) = []).
Proof.
  intros level r. split; [apply labelLevel_lookup|].
  intros Hok HndB HndL Hb Hl Hname Hknown Hunknown. unfold r.
  rewrite DiffPSA_Extra_at, DiffPSA_Missing_at by done. unfold levelAt.
  rewrite (byNamespace_namespaceToPSA baseline b HndB Hb).
  rewrite Hname, (byNamespace_namespaceToPSA live l HndL Hl).
  cbn [fmap option_fmap option_map namespaceToPSA Enforce].
  rewrite !labelLevel_lookup. fold (level b) (level l).
  pose proof (psaRank_range (level b)).
  apply psaEntry_cases; [|lia]. intros Heq. rewrite Heq in Hknown. done.
Qed.

(** Namespace [payments], restricted in baseline and without the label
    in live. *)
Lemma X18_dropped_enforce_label_witness :
  let r := PSABucketed.DiffPSA (sorter := mergeSorter)
             (PSASchedule_forward (namespaceToPSA <$> [paymentsLabelled])
                                  (namespaceToPSA <$> [paymentsUnlabelled]))
             (namespaceToPSA <$> [paymentsLabelled])
             (namespaceToPSA <$> [paymentsUnlabelled]) in
  entriesOf "payments" (PSABucketed.Extra r)
    = [mkPSADriftEntry "payments" "restricted" "" "weaker"]
  ∧ entriesOf "payments" (PSABucketed.Missing r) = [].
Proof.
  pose proof (X18_dropped_enforce_label_is_weaker (sorter := mergeSorter)
                (PSASchedule_forward (namespaceToPSA <$> [paymentsLabelled])
                                     (namespaceToPSA <$> [paymentsUnlabelled]))
                [paymentsLabelled] [paymentsUnlabelled]
                paymentsLabelled paymentsUnlabelled) as [_ Hthm].
  apply Hthm.
  - split; reflexivity.
  - apply NoDup_singleton.
  - apply NoDup_singleton.
  - by left.
  - by left.
  - reflexivity.
  - intros Hrank; vm_compute in Hrank; discriminate Hrank.
  - reflexivity.
Defined.

(** ** The drift type of a report *)

Section report.
Context {Regexp : Type}.
Context (strings_ToLower : string → string).
Context (strings_TrimSpace : string → string).
Context (regexp_Compile : string → option Regexp).
Context (Regexp_MatchString : Regexp → string → bool).
Context `{sorter : SliceSorter}.

Lemma normalizeDriftType_cases (s : string) :
  normalizeDriftType strings_ToLower s
  = if decide (strings_ToLower s = "missing") then "missing"
    else if decide (strings_ToLower s = "both") then "both" else "extra".
Proof.
  unfold normalizeDriftType. repeat case_bool_decide; repeat case_decide; done.
Qed.

(** X19. In the report built from normalized options, the drift type is
    "missing" or "both" when the option, lowercased, is that, and "extra"
    for every other option; and the three sections agree on it: each shows
    its Extra side unless the type is "missing" and its Missing side unless
    the type is "extra", while changed NetworkPolicies are shown under
    every type. *)
Theorem X19_report_sections_agree_on_the_drift_type
    (extraOrder missingOrder : list SubjectKey) (modeLabel : string) (opts : Options)
    (rbacDrift : RBACDrift) (netpolDrift : NetPolDrift)
    (psaDrift : PSABucketed.PSADrift) :
  let opts' := normalizeOptions strings_ToLower opts in
  let report := jsonReport strings_ToLower strings_TrimSpace regexp_Compile
                  Regexp_MatchString extraOrder missingOrder modeLabel opts'
                  rbacDrift netpolDrift psaDrift in
  let slices := filterRBACDriftToSlices strings_ToLower strings_TrimSpace
                  regexp_Compile Regexp_MatchString extraOrder missingOrder
                  rbacDrift opts' in
  let t := Report_DriftType report in
  let keptRef (ref : NetPolRef) :=
    keptNamespace (Options_IgnoreSystem opts) (NetPolRef_Namespace ref) in
  t = (if decide (strings_ToLower (Options_DriftType opts) = "missing") then "missing"
       else if decide (strings_ToLower (Options_DriftType opts) = "both") then "both"
       else "extra")
  ∧ rbacDriftJSON_Extra (Report_RBAC report)
    = (if decide (t = "missing") then [] else slices.1)
  ∧ rbacDriftJSON_Missing (Report_RBAC report)
    = (if decide (t = "extra") then [] else slices.2)
  ∧ netPolDriftJSON_Extra (Report_NetworkPolicy report)
    = (if decide (t = "missing") then [] else filter keptRef (NetPolDrift_Extra netpolDrift))
  ∧ netPolDriftJSON_Missing (Report_NetworkPolicy report)
    = (if decide (t = "extra") then [] else filter keptRef (NetPolDrift_Missing netpolDrift))
  ∧ netPolDriftJSON_Changed (Report_NetworkPolicy report)
    = filter (λ ch, keptNamespace (Options_IgnoreSystem opts) (NetPolChange_Namespace ch))
        (NetPolDrift_Changed netpolDrift)
  ∧ psaDriftJSON_Extra (Report_PSA report)
    = (if decide (t = "missing") then []
       else addFiltered opts' [] (PSABucketed.Extra psaDrift))
  ∧ psaDriftJSON_Missing (Report_PSA report)
    = (if decide (t = "extra") then []
       else addFiltered opts' [] (PSABucketed.Missing psaDrift)).
Proof.
  intros opts' report slices t keptRef. subst t report slices keptRef.
  unfold jsonReport.
  destruct (filterRBACDriftToSlices _ _ _ _ _ _ _ opts') as [extra missing] eqn:Hslices.
  cbn [Report_DriftType Report_RBAC Report_NetworkPolicy Report_PSA fst snd].
  rewrite filterNetPolDriftToJSON_eq.
  cbn [netPolDriftJSON_Missing netPolDriftJSON_Extra netPolDriftJSON_Changed].
  unfold psaDriftToJSON. subst opts'. unfold normalizeOptions.
  cbn [Options_DriftType Options_IgnoreSystem].
  rewrite normalizeDriftType_cases.
  destruct (decide (strings_ToLower (Options_DriftType opts) = "missing"));
    [|destruct (decide (strings_ToLower (Options_DriftType opts) = "both"))];
    split_and!; reflexivity.
Qed.

End report.
